(** * Job-listing cleaning layer: location, salary and title parsers

    A shallow embedding of [location_cleaner.py], [salary_parser_int.py]
    and [title_cleaner.py], followed by the properties of the three parsers
    and of the salary batch driver.

    Conventions of the embedding.
    - Text is a list of Unicode code points ([str]).  Character classes
      ([\d], [\w], [isalpha], [lower], [upper]) are those of Python on the
      ASCII range; white space is Python's full Unicode white-space set.
      Non-ASCII letters and digits are treated as plain symbols.
    - A cell of a data-frame column is [option str]: [None] stands for
      every value [pd.isna] accepts (None, NaN, NA).
    - A Python float is a binary64 value: [FFin k] is the number
      [k * 2^-1074]; every finite binary64 is such a multiple.  Arithmetic
      rounds to nearest, ties to even, and overflows to an infinity.  The
      sign of zero is not kept ([-0.0 == 0.0] in Python).
    - A Python exception is a [Raise] result. *)

From Stdlib Require Import ZArith NArith List String Ascii Bool Lia.
Import ListNotations.

(* ================================================================== *)
(** ** Text: Python [str] operations used by the sources *)
(* ================================================================== *)

Module Text.
Local Open Scope N_scope.

Definition char := N.
Definition str := list char.

(** Code points of a UTF-8 byte sequence; used to write literals. *)
Fixpoint utf8_decode (bs : list N) : str :=
  match bs with
  | [] => []
  | b :: r1 =>
    if (b <? 128)%N then b :: utf8_decode r1
    else match r1 with
      | [] => [b]
      | b2 :: r2 =>
        if (b <? 224)%N then ((b - 192) * 64 + (b2 - 128))%N :: utf8_decode r2
        else match r2 with
          | [] => [b]
          | b3 :: r3 =>
            if (b <? 240)%N
            then ((b - 224) * 4096 + (b2 - 128) * 64 + (b3 - 128))%N
                   :: utf8_decode r3
            else match r3 with
              | [] => [b]
              | b4 :: r4 =>
                ((b - 240) * 262144 + (b2 - 128) * 4096
                 + (b3 - 128) * 64 + (b4 - 128))%N :: utf8_decode r4
              end
          end
      end
  end.

(** A Python string literal. *)
Definition lit (s : string) : str :=
  utf8_decode (map N_of_ascii (list_ascii_of_string s)).

Definition chr (s : string) : char :=
  match lit s with c :: _ => c | [] => 0%N end.

Fixpoint str_eqb (a b : str) : bool :=
  match a, b with
  | [], [] => true
  | x :: a', y :: b' => (x =? y)%N && str_eqb a' b'
  | _, _ => false
  end.

Definition in_range (lo hi c : char) : bool := ((lo <=? c) && (c <=? hi))%N.

(** [str.isspace] of one character, which is also the regular expression
    class [\s] and the set [str.strip()] removes. *)
Definition is_space (c : char) : bool :=
  in_range 9 13 c || in_range 28 32 c || (c =? 133)%N || (c =? 160)%N
  || (c =? 5760)%N || in_range 8192 8202 c || (c =? 8232)%N
  || (c =? 8233)%N || (c =? 8239)%N || (c =? 8287)%N || (c =? 12288)%N.

Definition is_digit (c : char) : bool := in_range 48 57 c.
Definition is_upper (c : char) : bool := in_range 65 90 c.
Definition is_lower (c : char) : bool := in_range 97 122 c.
Definition is_alpha (c : char) : bool := is_upper c || is_lower c.
(** The regular expression class [\w]. *)
Definition is_word (c : char) : bool :=
  is_alpha c || is_digit c || (c =? 95)%N.

Definition lower_char (c : char) : char := if is_upper c then (c + 32)%N else c.
Definition upper_char (c : char) : char := if is_lower c then (c - 32)%N else c.

Definition lower (s : str) : str := map lower_char s.
Definition upper (s : str) : str := map upper_char s.

(** [s.isalpha()]: at least one character, all of them alphabetic. *)
Definition isalpha (s : str) : bool :=
  match s with [] => false | _ => forallb is_alpha s end.

Fixpoint lstrip_by (p : char -> bool) (s : str) : str :=
  match s with
  | c :: s' => if p c then lstrip_by p s' else s
  | [] => []
  end.

Definition rstrip_by (p : char -> bool) (s : str) : str :=
  rev (lstrip_by p (rev s)).

(** [s.strip()] *)
Definition strip (s : str) : str := rstrip_by is_space (lstrip_by is_space s).
(** [s.lstrip(c)] and [s.rstrip(c)] for a one-character argument. *)
Definition lstrip_chr (c : char) (s : str) : str := lstrip_by (N.eqb c) s.
Definition rstrip_chr (c : char) (s : str) : str := rstrip_by (N.eqb c) s.

(** [s.replace(old, new)] for a one-character [old]. *)
Definition replace (old : char) (new : str) (s : str) : str :=
  flat_map (fun c => if (c =? old)%N then new else [c]) s.

(** [c in s] for a one-character [c]. *)
Definition contains (c : char) (s : str) : bool := existsb (N.eqb c) s.

(** [s.rfind(c)]: the highest index of [c], or -1. *)
Fixpoint rfind_from (c : char) (s : str) (i : Z) (found : Z) : Z :=
  match s with
  | [] => found
  | x :: s' => rfind_from c s' (i + 1)%Z (if (x =? c)%N then i else found)
  end.
Definition rfind (c : char) (s : str) : Z := rfind_from c s 0%Z (-1)%Z.

Fixpoint startswith (pre s : str) : bool :=
  match pre, s with
  | [], _ => true
  | x :: pre', y :: s' => (x =? y)%N && startswith pre' s'
  | _ :: _, [] => false
  end.

Definition endswith (suf s : str) : bool := startswith (rev suf) (rev s).

(** [sep.join(parts)] *)
Fixpoint join (sep : str) (parts : list str) : str :=
  match parts with
  | [] => []
  | [p] => p
  | p :: rest => p ++ sep ++ join sep rest
  end.

(** Membership of a string in a set or among the keys of a dict. *)
Definition mem (s : str) (l : list str) : bool := existsb (str_eqb s) l.

(** Dict lookup. *)
Fixpoint lookup (k : str) (d : list (str * str)) : option str :=
  match d with
  | [] => None
  | (k', v) :: d' => if str_eqb k k' then Some v else lookup k d'
  end.

(** Truthiness of an optional string: [None] and the empty string are false. *)
Definition truthy (o : option str) : bool :=
  match o with Some (_ :: _) => true | _ => false end.

End Text.

(* ================================================================== *)
(** ** Regular expressions: the fragment of Python's [re] the sources use *)
(* ================================================================== *)

(** A backtracking matcher with Python's priorities: alternatives are tried
    from left to right, quantifiers are greedy and give characters back one
    at a time.  Every quantifier in the sources applies to a single
    character or class, which is what [Tok] holds. *)
Module Re.
Import Text.
Local Open Scope N_scope.

(** A member of a bracketed class. *)
Inductive cset :=
| CChar (c : char)
| CRange (lo hi : char)
| CDigit                        (* \d *)
| CSpace                        (* \s *)
| CWord.                        (* \w *)

Inductive atom :=
| Lit (c : char)
| Cls (neg : bool) (l : list cset).

Inductive quant := One | Opt | Star | Plus.

Inductive item :=
| Tok (a : atom) (q : quant)
| WordB                         (* \b *)
| Bos                           (* ^ *)
| Eos                           (* $ *)
| GOpen                         (* ( *)
| GClose.                       (* ) *)

Definition branch := list item.

Record regex := { ignorecase : bool; branches : list branch }.

Definition cset_has (m : cset) (c : char) : bool :=
  match m with
  | CChar x => c =? x
  | CRange lo hi => in_range lo hi c
  | CDigit => is_digit c
  | CSpace => is_space c
  | CWord => is_word c
  end.

Definition atom_ok (ic : bool) (a : atom) (c : char) : bool :=
  match a with
  | Lit x => if ic then lower_char c =? lower_char x else c =? x
  | Cls neg l =>
    let has x := existsb (fun m => cset_has m x) l in
    xorb neg (has c || (ic && (has (lower_char c) || has (upper_char c))))
  end.

Definition is_w (o : option char) : bool :=
  match o with Some c => is_word c | None => false end.

(** [\b]: exactly one of the two neighbours is a word character. *)
Definition at_boundary (prev : option char) (rest : str) : bool :=
  xorb (is_w prev) (is_w (hd_error rest)).

(** [$]: the end of the text, or just before a final newline. *)
Definition at_end (rest : str) : bool :=
  match rest with
  | [] => true
  | [c] => c =? 10
  | _ => false
  end.

(** Match the items at a position.  [prev] is the character before the
    position ([None] at the start of the text), [pos] its index and [rest]
    the text from there.  The result is the end of the match and the
    positions recorded by group parentheses, latest first. *)
Fixpoint m_items (ic : bool) (its : list item) (prev : option char)
    (pos : nat) (rest : str) (caps : list nat) {struct its}
  : option (nat * list nat) :=
  match its with
  | [] => Some (pos, caps)
  | WordB :: its' =>
    if at_boundary prev rest then m_items ic its' prev pos rest caps else None
  | Bos :: its' =>
    match prev with
    | None => m_items ic its' prev pos rest caps
    | Some _ => None
    end
  | Eos :: its' =>
    if at_end rest then m_items ic its' prev pos rest caps else None
  | GOpen :: its' | GClose :: its' =>
    m_items ic its' prev pos rest (pos :: caps)
  | Tok a q :: its' =>
    (* zero or more [a], longest first, then the remaining items *)
    let star :=
      fix star (prev : option char) (pos : nat) (rest : str) {struct rest}
        : option (nat * list nat) :=
        match rest with
        | c :: r =>
          if atom_ok ic a c
          then match star (Some c) (S pos) r with
               | Some x => Some x
               | None => m_items ic its' prev pos rest caps
               end
          else m_items ic its' prev pos rest caps
        | [] => m_items ic its' prev pos rest caps
        end in
    match q, rest with
    | One, c :: r =>
      if atom_ok ic a c then m_items ic its' (Some c) (S pos) r caps else None
    | One, [] => None
    | Opt, c :: r =>
      if atom_ok ic a c
      then match m_items ic its' (Some c) (S pos) r caps with
           | Some x => Some x
           | None => m_items ic its' prev pos rest caps
           end
      else m_items ic its' prev pos rest caps
    | Opt, [] => m_items ic its' prev pos rest caps
    | Star, _ => star prev pos rest
    | Plus, c :: r =>
      if atom_ok ic a c then star (Some c) (S pos) r else None
    | Plus, [] => None
    end
  end.

(** The first alternative that matches at the position. *)
Fixpoint m_branches (ic : bool) (bs : list branch) (prev : option char)
    (pos : nat) (rest : str) : option (nat * list nat) :=
  match bs with
  | [] => None
  | b :: bs' =>
    match m_items ic b prev pos rest [] with
    | Some x => Some x
    | None => m_branches ic bs' prev pos rest
    end
  end.

Definition match_at (r : regex) (prev : option char) (rest : str)
  : option (nat * list nat) :=
  m_branches (ignorecase r) (branches r) prev 0 rest.

(** The non-overlapping matches from left to right: each with the text
    between it and the match before, then the text after the last match.
    [skip] counts the characters of the current match still to be passed
    and [gap] holds, latest first, the unmatched characters since the last
    match.  No pattern of the sources matches the empty string; an empty
    match would be recorded and the scan moved on by one character. *)
Fixpoint scan (r : regex) (prev : option char) (skip : nat) (rest : str)
    (gap : str) : list (str * str) * str :=
  match skip, rest with
  | S k, c :: rest' => scan r (Some c) k rest' gap
  | S _, [] => ([], rev gap)
  | O, [] =>
    match match_at r prev [] with
    | Some _ => ([(rev gap, [])], [])
    | None => ([], rev gap)
    end
  | O, c :: rest' =>
    match match_at r prev rest with
    | Some (len, _) =>
      let '(l, tail) :=
        scan r (Some c) (len - 1) rest'
             (match len with O => [c] | S _ => [] end) in
      ((rev gap, firstn len rest) :: l, tail)
    | None => scan r (Some c) 0 rest' (c :: gap)
    end
  end.

Definition finditer (r : regex) (s : str) : list (str * str) * str :=
  scan r None 0 s [].

(** [s[a:b]] *)
Definition slice (s : str) (a b : nat) : str := firstn (b - a) (skipn a s).

(** [re.search(r, s)] as a truth value *)
Definition search (r : regex) (s : str) : bool :=
  match fst (finditer r s) with [] => false | _ :: _ => true end.

(** [re.findall(r, s)] for a pattern without groups *)
Definition findall (r : regex) (s : str) : list str :=
  map snd (fst (finditer r s)).

(** [re.split(r, s)] for a pattern without groups *)
Definition split (r : regex) (s : str) : list str :=
  map fst (fst (finditer r s)) ++ [snd (finditer r s)].

(** [re.sub(r, "", s)] *)
Definition sub_del (r : regex) (s : str) : str := List.concat (split r s).

(** [re.match(r, s)] as a truth value *)
Definition matches (r : regex) (s : str) : bool :=
  match match_at r None s with Some _ => true | None => false end.

(** [re.match(r, s).groups()] for a pattern with two groups, [None] when
    the pattern does not match. *)
Definition match_groups2 (r : regex) (s : str) : option (str * str) :=
  match match_at r None s with
  | Some (_, [c2; o2; c1; o1]) => Some (slice s o1 c1, slice s o2 c2)
  | _ => None
  end.

(** Pattern building blocks. *)
Definition one (l : list cset) : item := Tok (Cls false l) One.
Definition none_of (l : list cset) : item := Tok (Cls true l) One.
Definition opt (l : list cset) : item := Tok (Cls false l) Opt.
Definition many (l : list cset) : item := Tok (Cls false l) Star.
Definition some (l : list cset) : item := Tok (Cls false l) Plus.
Definition chars (s : string) : list cset := map CChar (lit s).
Definition lits (s : string) : list item := map (fun c => Tok (Lit c) One) (lit s).
Definition re (bs : list branch) : regex := {| ignorecase := false; branches := bs |}.
Definition re_i (bs : list branch) : regex := {| ignorecase := true; branches := bs |}.

End Re.

(* ================================================================== *)
(** ** Python results *)
(* ================================================================== *)

Inductive exn :=
| IndexError
| TypeError
| ValueError (msg : string)
| OSError (msg : string).

Inductive result (A : Type) :=
| Ok (a : A)
| Raise (e : exn).
Arguments Ok {A} a.
Arguments Raise {A} e.

(* ================================================================== *)
(** ** location_cleaner.py *)
(* ================================================================== *)

Module location_cleaner.
Import Text.

Definition COUNTRY_MAP : list (str * str) :=
  [ (lit "us", lit "US");
    (lit "usa", lit "US");
    (lit "united states", lit "US");
    (lit "united states of america", lit "US");
    (lit "uk", lit "UK");
    (lit "gb", lit "UK");
    (lit "united kingdom", lit "UK");
    (lit "england", lit "UK");
    (lit "canada", lit "CA");
    (lit "ca", lit "CA");
    (lit "australia", lit "AU");
    (lit "au", lit "AU");
    (lit "india", lit "IN");
    (lit "in", lit "IN") ].

Definition US_STATE_MAP : list (str * str) :=
  [ (lit "alabama", lit "AL"); (lit "alaska", lit "AK");
    (lit "arizona", lit "AZ"); (lit "arkansas", lit "AR");
    (lit "california", lit "CA"); (lit "colorado", lit "CO");
    (lit "connecticut", lit "CT"); (lit "delaware", lit "DE");
    (lit "florida", lit "FL"); (lit "georgia", lit "GA");
    (lit "hawaii", lit "HI"); (lit "idaho", lit "ID");
    (lit "illinois", lit "IL"); (lit "indiana", lit "IN");
    (lit "iowa", lit "IA"); (lit "kansas", lit "KS");
    (lit "kentucky", lit "KY"); (lit "louisiana", lit "LA");
    (lit "maine", lit "ME"); (lit "maryland", lit "MD");
    (lit "massachusetts", lit "MA"); (lit "michigan", lit "MI");
    (lit "minnesota", lit "MN"); (lit "mississippi", lit "MS");
    (lit "missouri", lit "MO"); (lit "montana", lit "MT");
    (lit "nebraska", lit "NE"); (lit "nevada", lit "NV");
    (lit "new hampshire", lit "NH"); (lit "new jersey", lit "NJ");
    (lit "new mexico", lit "NM"); (lit "new york", lit "NY");
    (lit "north carolina", lit "NC"); (lit "north dakota", lit "ND");
    (lit "ohio", lit "OH"); (lit "oklahoma", lit "OK");
    (lit "oregon", lit "OR"); (lit "pennsylvania", lit "PA");
    (lit "rhode island", lit "RI"); (lit "south carolina", lit "SC");
    (lit "south dakota", lit "SD"); (lit "tennessee", lit "TN");
    (lit "texas", lit "TX"); (lit "utah", lit "UT");
    (lit "vermont", lit "VT"); (lit "virginia", lit "VA");
    (lit "washington", lit "WA"); (lit "west virginia", lit "WV");
    (lit "wisconsin", lit "WI"); (lit "wyoming", lit "WY");
    (lit "district of columbia", lit "DC");
    (lit "washington dc", lit "DC");
    (lit "dc", lit "DC") ].

(** [set(US_STATE_MAP.values())] *)
Definition _state_abbrev_set : list str := map snd US_STATE_MAP.

(** [r"[^\w\s]"] *)
Definition re_punctuation : Re.regex := Re.re [[Re.none_of [Re.CWord; Re.CSpace]]].

(** [r"[,/|]+"] *)
Definition re_separators : Re.regex := Re.re [[Re.some (Re.chars ",/|")]].

Definition is_empty (s : str) : bool :=
  match s with [] => true | _ :: _ => false end.

(** [_normalize_country(token)] for a string token. *)
Definition _normalize_country (token : str) : option str :=
  let t := lower (strip token) in
  let t := strip (Re.sub_del re_punctuation t) in
  if is_empty t then None
  else match lookup t COUNTRY_MAP with
       | Some code => Some code
       | None =>
         if (List.length t =? 2)%nat && isalpha t then Some (upper t)
         else if is_empty (strip token) then None
         else Some (upper (strip token))
       end.

(** [_normalize_state(token)] for a string token. *)
Definition _normalize_state (token : str) : option str :=
  let t := strip token in
  if is_empty t then None
  else
    let up := upper t in
    if mem up _state_abbrev_set then Some up
    else lookup (lower t) US_STATE_MAP.

Record LocationRecord := {
  city : option str;
  state : option str;
  country : option str;
  is_remote : bool;
  raw : option str
}.

(** [[p.strip() for p in re.split(r"[,/|]+", s) if p and p.strip()]] *)
Definition location_tokens (s : str) : list str :=
  map strip
      (filter (fun p => negb (is_empty p) && negb (is_empty (strip p)))
              (Re.split re_separators s)).

(** The condition of the [any(...)] over the lower-cased tokens. *)
Definition remote_like (p : str) : bool :=
  str_eqb p (lit "remote")
  || startswith (lit "remote ") p
  || endswith (lit " remote") p.

Definition mentions_remote (parts : list str) : bool :=
  existsb remote_like (map lower parts).

(** [[p for p in parts if p.lower() != "remote"]] *)
Definition drop_remote (parts : list str) : list str :=
  filter (fun p => negb (str_eqb (lower p) (lit "remote"))) parts.

(** The tokens the country, state and city are read from: the parts after
    the [remote] step. *)
Definition remaining_tokens (s : str) : list str :=
  let parts := location_tokens (strip s) in
  if mentions_remote parts then drop_remote parts else parts.

(** [parts[-1]]: raises [IndexError] on an empty list. *)
Definition last_of (parts : list str) : result str :=
  match rev parts with
  | [] => Raise IndexError
  | p :: _ => Ok p
  end.

(** The country names of the final special case. *)
Definition bare_countries : list str :=
  [lit "US"; lit "USA"; lit "UNITED STATES"; lit "UK"; lit "UNITED KINGDOM"].

(** The country step on the last token: the country it sets, and the
    remaining parts with their count [n]. *)
Definition country_step (last : str) (parts : list str) (n : Z)
  : option str * list str * Z :=
  let country := _normalize_country last in
  if (match country with Some _ => true | None => false end)
     && (mem (lower (strip last)) (map fst COUNTRY_MAP)
         || ((List.length (strip last) =? 2)%nat && isalpha (strip last))
         || negb (match country with
                  | Some c => str_eqb c (upper (strip last))
                  | None => false
                  end))
  then (country, removelast parts, (n - 1)%Z)
  else
    let last_clean := lower (strip last) in
    if mem last_clean (map fst COUNTRY_MAP)
       || ((List.length last_clean =? 2)%nat && isalpha last_clean)
    then (_normalize_country last, removelast parts, (n - 1)%Z)
    else (None, parts, n).

(** The state step on the new last token, when one is left. *)
Definition state_step (parts : list str) (n : Z)
  : result (option str * list str * Z) :=
  if (1 <=? n)%Z then
    match last_of parts with
    | Raise e => Raise e
    | Ok candidate_state =>
      let state_abbrev := _normalize_state candidate_state in
      if truthy state_abbrev
      then Ok (state_abbrev, removelast parts, (n - 1)%Z)
      else Ok (None, parts, n)
    end
  else Ok (None, parts, n).

(** What remains is the city. *)
Definition city_step (parts : list str) (n : Z) : option str :=
  if (1 <=? n)%Z then Some (strip (join (lit ", ") parts)) else None.

(** The special case at the end: a city that is a country name, when no
    country was set. *)
Definition country_from_city (out_city out_country : option str) : option str :=
  match out_city with
  | Some c =>
    if truthy out_city && mem (upper (strip c)) bare_countries
       && negb (truthy out_country)
    then _normalize_country c
    else out_country
  | None => out_country
  end.

(** The body of [parse_location] from the line [n = len(parts)] on. *)
Definition parse_tokens (remote : bool) (raw : option str) (parts : list str)
  : result LocationRecord :=
  let n := Z.of_nat (List.length parts) in
  match last_of parts with
  | Raise e => Raise e
  | Ok last =>
    let '(out_country, parts, n) := country_step last parts n in
    match state_step parts n with
    | Raise e => Raise e
    | Ok (out_state, parts, n) =>
      let out_city := city_step parts n in
      Ok {| city := out_city; state := out_state;
            country := country_from_city out_city out_country;
            is_remote := remote; raw := raw |}
    end
  end.

(** [parse_location(cell)] *)
Definition parse_location (cell : option str) : result LocationRecord :=
  let out := {| city := None; state := None; country := None;
                is_remote := false; raw := cell |} in
  match cell with
  | None => Ok out
  | Some c =>
    let s := strip c in
    if is_empty s then Ok out
    else
      let parts := location_tokens s in
      match parts with
      | [] => Ok out
      | _ :: _ =>
        let remote := mentions_remote parts in
        let parts := if remote then drop_remote parts else parts in
        parse_tokens remote cell parts
      end
  end.

(** *** The batch enrichment, row by row *)

(** The columns [enrich_locations] writes for one row of a frame. *)
Record LocationColumns := {
  location_city : option str;
  location_state : option str;
  location_country : option str;
  is_remote_flag : bool;
  location_missing : bool;
  location_display : str
}.

(** [col.fillna(value)] for one value of a text column *)
Definition fillna_text (value : str) (x : option str) : option str :=
  match x with
  | Some _ => x
  | None => Some value
  end.

(** [col.where(col.notna() & (col != "Unknown"), "")] for one value *)
Definition display_part (x : option str) : str :=
  match x with
  | Some v => if negb (str_eqb v (lit "Unknown")) then v else []
  | None => []
  end.

(** The row [enrich_locations] derives from a parsed record. *)
Definition enrich_row (fill_unknown : bool) (r : LocationRecord) : LocationColumns :=
  (* raw.isna() | (raw.astype(str).str.strip() == "") *)
  let missing :=
    match raw r with
    | None => true
    | Some c => is_empty (strip c)
    end in
  let c := if fill_unknown then fillna_text (lit "Unknown") (city r) else city r in
  let s := if fill_unknown then fillna_text (lit "Unknown") (state r) else state r in
  (* is_remote.map({True: "Remote"}) *)
  let display := if is_remote r then Some (lit "Remote") else None in
  let city_part := display_part c in
  let state_part := display_part s in
  (* city_part.astype(str).replace("nan", "")
     + (", " + state_part.astype(str)).where(state_part != "", "") *)
  let joined :=
    (if str_eqb city_part (lit "nan") then [] else city_part)
    ++ (if negb (is_empty state_part) then lit ", " ++ state_part else []) in
  let display :=
    match display with
    | Some d => d
    | None => joined
    end in
  (* display empty after strip: the country, or "Unknown" *)
  let display :=
    if is_empty (strip display)
    then match country r with
         | Some k => k
         | None => lit "Unknown"
         end
    else display in
  (* .replace("", "Unknown") *)
  let display := if is_empty display then lit "Unknown" else display in
  {| location_city := c; location_state := s; location_country := country r;
     is_remote_flag := is_remote r; location_missing := missing;
     location_display := display |}.

(** The row of [enrich_locations(df, loc_col, fill_unknown)] for one cell
    of the location column; an exception of [parse_location] ends the
    whole call. *)
Definition enrich_cell (fill_unknown : bool) (cell : option str)
  : result LocationColumns :=
  match parse_location cell with
  | Raise e => Raise e
  | Ok r => Ok (enrich_row fill_unknown r)
  end.

End location_cleaner.

(* ================================================================== *)
(** ** Python floats (IEEE 754 binary64) *)
(* ================================================================== *)

Module Float.
Import Text.
Local Open Scope Z_scope.

(** [FFin k] is the number [k * 2^-1074]. *)
Inductive float :=
| FNaN
| FInf (neg : bool)
| FFin (k : Z).

(** 1.0 counted in units of [2^-1074]. *)
Definition ONE : Z := 2 ^ 1074.
(** [2^1024] in units: the least magnitude that is no longer finite. *)
Definition LIMIT : Z := 2 ^ 2098.

(** The integer nearest to [n / d], ties to the even one ([0 < d]). *)
Definition rne (n d : Z) : Z :=
  let q := n / d in
  let r := n mod d in
  if 2 * r <? d then q
  else if d <? 2 * r then q + 1
  else if Z.even q then q else q + 1.

(** The binary exponent of the last place of a number whose integer part
    (in units) is [q]: a binary64 keeps 53 significant bits. *)
Definition ulp_shift (q : Z) : Z := Z.max 0 (Z.log2 q - 52).

(** The binary64 nearest to [n / d] units, for [0 <= n] and [0 < d]. *)
Definition round_pos (n d : Z) : float :=
  let sh := ulp_shift (n / d) in
  let k := rne n (d * 2 ^ sh) * 2 ^ sh in
  if k <? LIMIT then FFin k else FInf false.

Definition fneg (x : float) : float :=
  match x with
  | FNaN => FNaN
  | FInf s => FInf (negb s)
  | FFin k => FFin (- k)
  end.

(** The binary64 nearest to [n / d] units, for [0 < d]. *)
Definition round (n d : Z) : float :=
  if n <? 0 then fneg (round_pos (- n) d) else round_pos n d.

(** The float of an integer literal such as [1_000.0]. *)
Definition of_Z (z : Z) : float := round (z * ONE) 1.

(** [a + b] *)
Definition fadd (a b : float) : float :=
  match a, b with
  | FNaN, _ | _, FNaN => FNaN
  | FInf s, FInf t => if Bool.eqb s t then FInf s else FNaN
  | FInf s, FFin _ | FFin _, FInf s => FInf s
  | FFin x, FFin y => round (x + y) 1
  end.

(** [a * b] *)
Definition fmul (a b : float) : float :=
  match a, b with
  | FNaN, _ | _, FNaN => FNaN
  | FInf s, FInf t => FInf (xorb s t)
  | FInf s, FFin y | FFin y, FInf s =>
    if y =? 0 then FNaN else FInf (xorb s (y <? 0))
  | FFin x, FFin y => round (x * y) ONE
  end.

(** [a / b] for a divisor other than zero; Python raises
    [ZeroDivisionError] on a zero divisor, and every division of the
    sources is by the literal [2.0] or by a positive count. *)
Definition fdiv (a b : float) : float :=
  match a, b with
  | FNaN, _ | _, FNaN => FNaN
  | FInf _, FInf _ => FNaN
  | FInf s, FFin y => FInf (xorb s (y <? 0))
  | FFin _, FInf _ => FFin 0
  | FFin x, FFin y =>
    if y =? 0 then FNaN
    else if 0 <? y then round (x * ONE) y else round (- (x * ONE)) (- y)
  end.

(** [a < b] *)
Definition flt (a b : float) : bool :=
  match a, b with
  | FNaN, _ | _, FNaN => false
  | FInf true, FInf true => false
  | FInf true, _ => true
  | _, FInf true => false
  | FInf false, _ => false
  | FFin _, FInf false => true
  | FFin x, FFin y => x <? y
  end.

(** [a <= b] *)
Definition fle (a b : float) : bool :=
  match a, b with
  | FNaN, _ | _, FNaN => false
  | FInf true, _ => true
  | _, FInf true => false
  | _, FInf false => true
  | FInf false, FFin _ => false
  | FFin x, FFin y => x <=? y
  end.

(** [pd.isna] and [pd.notna] of a float *)
Definition isna (x : float) : bool :=
  match x with FNaN => true | _ => false end.
Definition notna (x : float) : bool := negb (isna x).

Definition is_finite (x : float) : bool :=
  match x with FFin _ => true | _ => false end.

(** [min(x :: l)] and [max(x :: l)]: the first least, the first greatest. *)
Definition py_min (x : float) (l : list float) : float :=
  fold_left (fun best y => if flt y best then y else best) l x.
Definition py_max (x : float) (l : list float) : float :=
  fold_left (fun best y => if flt best y then y else best) l x.

(** The leading decimal digits of [s]: their value appended to [acc], how
    many there are, and the rest of [s]. *)
Fixpoint take_digits (s : str) (acc : Z) (n : nat) : Z * nat * str :=
  match s with
  | c :: s' =>
    if is_digit c then take_digits s' (10 * acc + Z.of_N (c - 48)) (S n)
    else (acc, n, s)
  | [] => (acc, n, [])
  end.

(** [float(s)], [None] for [ValueError].  The parser only passes text made
    of digits, signs, [.] and the letters k and m, on which [float] accepts
    exactly an optional sign and a decimal numeral with at least one digit
    (so neither exponents nor [inf]/[nan] nor [_] arise); the value is
    correctly rounded. *)
Definition float_of_str (s : str) : option float :=
  let '(neg, body) :=
    match s with
    | c :: r =>
      if (c =? chr "-")%N then (true, r)
      else if (c =? chr "+")%N then (false, r)
      else (false, s)
    | [] => (false, [])
    end in
  let sign (x : float) := if neg then fneg x else x in
  let '(ip, ni, rest) := take_digits body 0 0 in
  match rest with
  | [] => if (ni =? 0)%nat then None else Some (sign (round (ip * ONE) 1))
  | c :: rest' =>
    if (c =? chr ".")%N then
      let '(all, nf, rest'') := take_digits rest' ip 0 in
      match rest'' with
      | [] =>
        if (ni + nf =? 0)%nat then None
        else Some (sign (round (all * ONE) (10 ^ Z.of_nat nf)))
      | _ :: _ => None
      end
    else None
  end.

End Float.

(* ================================================================== *)
(** ** salary_parser_int.py: the parsers *)
(* ================================================================== *)

Module salary_parser_int.
Import Text Float.

Definition is_empty (s : str) : bool :=
  match s with [] => true | _ :: _ => false end.

(** [_normalize_whitespace(s)] for a string. *)
Definition _normalize_whitespace (s : str) : str :=
  strip (replace 160%N (lit " ") s).

(** [{"na", "n/a", "none", "-", "—", "[]"}] *)
Definition null_words : list str :=
  [lit "na"; lit "n/a"; lit "none"; lit "-"; lit "—"; lit "[]"].

(** [r"(?i)\bper\s*year\b|\bper\s*annum\b|/yr\b|\byr\b|\bannually\b"] *)
Definition re_verbose : Re.regex :=
  Re.re_i
    [ [Re.WordB] ++ Re.lits "per" ++ [Re.many [Re.CSpace]] ++ Re.lits "year"
        ++ [Re.WordB];
      [Re.WordB] ++ Re.lits "per" ++ [Re.many [Re.CSpace]] ++ Re.lits "annum"
        ++ [Re.WordB];
      Re.lits "/yr" ++ [Re.WordB];
      [Re.WordB] ++ Re.lits "yr" ++ [Re.WordB];
      [Re.WordB] ++ Re.lits "annually" ++ [Re.WordB] ].

(** [r"[^\d\.,kKmM\-\+\(\)]"] *)
Definition re_not_numeric : Re.regex :=
  Re.re [[Re.none_of (Re.CDigit :: Re.chars ".,kKmM-+()")]].

(** [r'^\([\d\.,\skmKM]+\)$'] *)
Definition re_parenthesized : Re.regex :=
  Re.re [ [Re.Bos] ++ Re.lits "("
          ++ [Re.some (Re.CDigit :: Re.chars ".," ++ Re.CSpace :: Re.chars "kmKM")]
          ++ Re.lits ")" ++ [Re.Eos] ].

(** [r"^([+-]?[\d\.,]+)\s*([kKmM])$"] *)
Definition re_suffixed : Re.regex :=
  Re.re [ [Re.Bos; Re.GOpen; Re.opt (Re.chars "+-");
           Re.some (Re.CDigit :: Re.chars ".,"); Re.GClose;
           Re.many [Re.CSpace];
           Re.GOpen; Re.one (Re.chars "kKmM"); Re.GClose; Re.Eos] ].

(** [r"[^\d\.\-]"] *)
Definition re_not_decimal : Re.regex :=
  Re.re [[Re.none_of (Re.CDigit :: Re.chars ".-")]].

(** [r"\d"] *)
Definition re_digit : Re.regex := Re.re [[Re.one [Re.CDigit]]].

(** [r"[+-]?\d+[.,]?\d*[kKmM]?"] *)
Definition re_number : Re.regex :=
  Re.re [ [Re.opt (Re.chars "+-"); Re.some [Re.CDigit]; Re.opt (Re.chars ".,");
           Re.many [Re.CDigit]; Re.opt (Re.chars "kKmM")] ].

(** The single and the double quote character. *)
Definition quotes : list Re.cset := [Re.CChar 39%N; Re.CChar 34%N].

(** The pattern [^[\[\(\{'Q]+|[\]\)\}'Q]+$], where Q is the double quote. *)
Definition re_wrapping : Re.regex :=
  Re.re [ [Re.Bos; Re.some (Re.chars "[({" ++ quotes)];
          [Re.some (Re.chars "])}" ++ quotes); Re.Eos] ].

(** [r"\bto\b|[-–—]"] *)
Definition re_range : Re.regex :=
  Re.re [ [Re.WordB] ++ Re.lits "to" ++ [Re.WordB];
          [Re.one (Re.chars "-–—")] ].

(** [_parse_single_number(s)] for a string; [np.nan] is [FNaN]. *)
Definition _parse_single_number (s : str) : float :=
  let s0 := _normalize_whitespace s in
  if is_empty s0 || mem (lower s0) null_words then FNaN
  else
    (* remove verbose words and keep numeric-ish characters *)
    let s1 := Re.sub_del re_verbose s0 in
    let s1 := Re.sub_del re_not_numeric s1 in
    (* parentheses negative *)
    let s1 :=
      if Re.matches re_parenthesized s1
      then lit "-" ++ rstrip_chr (chr ")") (lstrip_chr (chr "(") (strip s1))
      else s1 in
    (* Strategy C: the first numeric-looking token *)
    let strategy_c :=
      match Re.findall re_number s1 with
      | t :: _ =>
        let t :=
          if contains (chr ",") t && negb (contains (chr ".") t)
          then replace (chr ",") (lit ".") t else t in
        let t := replace (chr ",") [] t in
        match float_of_str t with
        | Some v => v
        | None => FNaN
        end
      | [] => FNaN
      end in
    (* Strategy B: European style *)
    let strategy_b :=
      if contains (chr ".") s1 && contains (chr ",") s1
         && (rfind (chr ".") s1 <? rfind (chr ",") s1)%Z
      then
        let b := replace (chr ",") (lit ".") (replace (chr ".") [] s1) in
        let b := Re.sub_del re_not_decimal b in
        match float_of_str b with
        | Some v => v
        | None => strategy_c
        end
      else strategy_c in
    (* Strategy A: drop spaces and thousands separators, dot as decimal *)
    let strategy_a :=
      let a := replace (chr ",") [] (replace (chr " ") [] s1) in
      let a := Re.sub_del re_not_decimal a in
      if negb (is_empty a) && Re.search re_digit a
      then match float_of_str a with
           | Some v => v
           | None => strategy_b
           end
      else strategy_b in
    (* suffix k/m *)
    match Re.match_groups2 re_suffixed (strip s1) with
    | Some (num, suf) =>
      let num_clean := replace (chr " ") [] (replace (chr ",") [] num) in
      match float_of_str num_clean with
      | Some val =>
        if str_eqb (lower suf) (lit "k") then fmul val (of_Z 1000)
        else if str_eqb (lower suf) (lit "m") then fmul val (of_Z 1000000)
        else strategy_a
      | None => FNaN
      end
    | None => strategy_a
    end.

(** The three results [(min_val, max_val, mean_val)]. *)
Definition triple : Type := float * float * float.

Definition all_nan : triple := (FNaN, FNaN, FNaN).

(** [(mn, mx, (mn + mx) / 2.0)] for [mn = min(nums)], [mx = max(nums)] *)
Definition span_of (x : float) (rest : list float) : triple :=
  let mn := py_min x rest in
  let mx := py_max x rest in
  (mn, mx, fdiv (fadd mn mx) (of_Z 2)).

(** [[float(x) for x in map(_parse_single_number, texts) if pd.notna(x)]] *)
Definition parsed_numbers (texts : list str) : list float :=
  filter notna (map _parse_single_number texts).

(** [parse_salary_field(cell)] *)
Definition parse_salary_field (cell : option str) : triple :=
  match cell with
  | None => all_nan
  | Some c =>
    let s := _normalize_whitespace c in
    if is_empty s then all_nan
    else
      (* remove surrounding brackets and quotes *)
      let s_clean := strip (Re.sub_del re_wrapping s) in
      (* single numeric token *)
      let single :=
        let val := _parse_single_number s_clean in
        if isna val then all_nan else (val, val, val) in
      if Re.search re_range s_clean then
        let parts := Re.split re_range s_clean in
        let parts :=
          map strip (filter (fun p => negb (is_empty (strip p))) parts) in
        match parsed_numbers parts with
        | [] => all_nan
        | [x] => (x, x, x)
        | x :: rest => span_of x rest
        end
      else
        let tokens := Re.findall re_number s_clean in
        if (2 <=? List.length tokens)%nat then
          match parsed_numbers tokens with
          | x :: (_ :: _) as rest => span_of x rest
          | _ => single
          end
        else single
  end.

(** *** The batch driver *)

Local Open Scope Z_scope.

Definition cell : Type := option str.

(** A label of a frame's index: an integer, or a value of another kind
    (text, a date), kept as its text. *)
Inductive label :=
| IntLabel (z : Z)
| OtherLabel (name : str).

(** The part of a data frame the driver reads: the labels of its rows
    ([df.index], one label a row), which of the three source columns
    exist, and the (mean, min, max) cells of every row.  The cell of a
    column that does not exist is never read. *)
Record SalaryFrame := {
  index : list label;
  has_mean_col : bool;
  has_min_col : bool;
  has_max_col : bool;
  rows : list (cell * cell * cell)
}.

Definition mean_cells (df : SalaryFrame) : list cell := map (fun r => fst (fst r)) (rows df).
Definition min_cells (df : SalaryFrame) : list cell := map (fun r => snd (fst r)) (rows df).
Definition max_cells (df : SalaryFrame) : list cell := map (fun r => snd r) (rows df).

(** One step of the loop of [_fill_from_column]: the row's
    [(parsed_min, parsed_max, parsed_mean)] after reading [raw]. *)
Definition fill_row (raw : cell) (p : triple) : triple :=
  let '(mn, mx, me) := parse_salary_field raw in
  let '(pmin, pmax, pmean) := p in
  (if notna mn && isna pmin then mn else pmin,
   if notna mx && isna pmax then mx else pmax,
   if notna me && isna pmean then me else pmean).

(** [_fill_from_column(col_name)] for a column that exists. *)
Definition _fill_from_column (col : list cell) (parsed : list triple) : list triple :=
  map (fun rp => fill_row (fst rp) (snd rp)) (combine col parsed).

(** The last-pass logic for one row. *)
Definition last_pass (p : triple) : triple :=
  let '(pmin, pmax, pmean) := p in
  let pmin := if isna pmin && notna pmean then pmean else pmin in
  let pmax := if isna pmax && notna pmean then pmean else pmax in
  let pmean :=
    if isna pmean && notna pmin && notna pmax
    then fdiv (fadd pmin pmax) (of_Z 2) else pmean in
  (pmin, pmax, pmean).

(** The parsed rows before any back-fill. *)
Definition parsed_rows (df : SalaryFrame) : list triple :=
  let parsed := map (fun _ => all_nan) (rows df) in
  let parsed := if has_mean_col df then _fill_from_column (mean_cells df) parsed else parsed in
  let parsed := if has_min_col df then _fill_from_column (min_cells df) parsed else parsed in
  let parsed := if has_max_col df then _fill_from_column (max_cells df) parsed else parsed in
  map last_pass parsed.

(** The lists [parsed_min], [parsed_max] and [parsed_mean], by position. *)
Definition parsed_min (df : SalaryFrame) : list float := map (fun p => fst (fst p)) (parsed_rows df).
Definition parsed_max (df : SalaryFrame) : list float := map (fun p => snd (fst p)) (parsed_rows df).
Definition parsed_mean (df : SalaryFrame) : list float := map (fun p => snd p) (parsed_rows df).

(** The index [pd.Series(values)] is given: the positions [0 .. n-1]. *)
Definition RangeIndex (n : nat) : list label :=
  map (fun i => IntLabel (Z.of_nat i)) (seq 0%nat n).

(** [pd.Series(values)] at a label: the value at that position, NaN for a
    label that is no position of the series. *)
Definition at_label (values : list float) (l : label) : float :=
  match l with
  | IntLabel z =>
    if (0 <=? z) && (z <? Z.of_nat (List.length values))
    then nth (Z.to_nat z) values FNaN else FNaN
  | OtherLabel _ => FNaN
  end.

(** [df[name] = pd.Series(values)]: the assignment aligns the series on the
    labels of the frame, so the row labelled [l] receives the value the
    series has at [l].  On a frame with the default index that is the
    value at the row's position. *)
Definition set_column (df : SalaryFrame) (values : list float) : list float :=
  map (at_label values) (index df).

(** The temporary columns [_min_salary_tmp], [_max_salary_tmp] and
    [_mean_salary_tmp]. *)
Definition tmp_min (df : SalaryFrame) : list float := set_column df (parsed_min df).
Definition tmp_max (df : SalaryFrame) : list float := set_column df (parsed_max df).
Definition tmp_mean (df : SalaryFrame) : list float := set_column df (parsed_mean df).

(** The values [skipna=True] keeps. *)
Definition known (col : list float) : list float := filter notna col.

Fixpoint insert_sorted (x : float) (l : list float) : list float :=
  match l with
  | [] => [x]
  | y :: l' => if flt y x then y :: insert_sorted x l' else x :: l
  end.

Definition sort_floats (l : list float) : list float :=
  fold_right insert_sorted [] l.

(** [col.median(skipna=True)]: the middle known value, or the mean of the
    two middle ones; NaN without known values. *)
Definition series_median (col : list float) : float :=
  let v := sort_floats (known col) in
  let n := List.length v in
  if (n =? 0)%nat then FNaN
  else if Nat.odd n then nth (n / 2) v FNaN
  else fdiv (fadd (nth (n / 2 - 1) v FNaN) (nth (n / 2) v FNaN)) (of_Z 2).

(** The column with zero in place of its missing values: what
    [mean(skipna=True)] sums. *)
Definition zero_filled (col : list float) : list float :=
  map (fun x => if isna x then FFin 0 else x) col.

(** Two orders in which a sum of floats is taken.  [sum_sequential] adds
    from left to right. *)
Definition sum_sequential (v : list float) : float := fold_left fadd v (FFin 0).

(** [sum_pairwise] is the order of numpy's pairwise routine: fewer than 8
    values are added in sequence; up to 128 values go to eight running
    sums, taken by eights, which are added in pairs before the rest is
    added in sequence; a longer list is cut near its middle, at a multiple
    of 8. *)
Fixpoint add_by_eights (r : list float) (blocks : nat) (a : list float) : list float :=
  match blocks with
  | O => r
  | S b => add_by_eights (map (fun p => fadd (fst p) (snd p)) (combine r (firstn 8 a)))
                         b (skipn 8 a)
  end.

Definition sum_block (a : list float) : float :=
  let n := List.length a in
  let blocks := (n / 8 - 1)%nat in
  let r := add_by_eights (firstn 8 a) blocks (skipn 8 a) in
  let r_ i := nth i r FNaN in
  let res := fadd (fadd (fadd (r_ 0%nat) (r_ 1%nat)) (fadd (r_ 2%nat) (r_ 3%nat)))
                  (fadd (fadd (r_ 4%nat) (r_ 5%nat)) (fadd (r_ 6%nat) (r_ 7%nat))) in
  fold_left fadd (skipn (8 * (n / 8)) a) res.

Fixpoint pairwise_sum (fuel : nat) (a : list float) : float :=
  let n := List.length a in
  if (n <? 8)%nat then fold_left fadd a (FFin 0)
  else if (n <=? 128)%nat then sum_block a
  else match fuel with
       | O => sum_block a
       | S fuel' =>
         let n2 := (n / 2 - (n / 2) mod 8)%nat in
         fadd (pairwise_sum fuel' (firstn n2 a)) (pairwise_sum fuel' (skipn n2 a))
       end.

Definition sum_pairwise (v : list float) : float :=
  fadd (FFin 0) (pairwise_sum (List.length v) v).

Section Reduction.

(** [values.sum()], the reduction under [mean(skipna=True)].  The order in
    which it adds belongs to the numeric library (numpy adds pairwise, the
    accelerated path of pandas adds in sequence) and is not fixed by the
    source: the driver is read for any order. *)
Variable total : list float -> float.

(** [col.mean(skipna=True)]: the sum of the column, its missing values
    counting as zero, over the count of its known values; NaN without
    known values. *)
Definition series_mean (col : list float) : float :=
  match known col with
  | [] => FNaN
  | _ :: _ =>
    fdiv (total (zero_filled col)) (of_Z (Z.of_nat (List.length (known col))))
  end.

(** [col.fillna(value)] *)
Definition fillna (value : float) (col : list float) : list float :=
  map (fun x => if isna x then value else x) col.

(** The statistic each temporary column is filled with. *)
Definition fill_value_min (fill_strategy : option str) (col : list float) : option float :=
  match fill_strategy with
  | Some f =>
    if str_eqb f (lit "median") then Some (series_median col)
    else if str_eqb f (lit "mean") then Some (series_mean col)
    else None
  | None => None
  end.

Definition fill_value_mean (fill_strategy : option str) (col : list float) : option float :=
  match fill_strategy with
  | Some f =>
    if str_eqb f (lit "median") then Some (series_mean col)
    else if str_eqb f (lit "mean") then Some (series_mean col)
    else None
  | None => None
  end.

Definition apply_fill (value : option float) (col : list float) : list float :=
  match value with
  | Some v => fillna v col
  | None => col
  end.

End Reduction.

(** [np.floor], [np.ceil] and [round(0)] (half to even) of one float. *)
Definition round_value (round_method : str) (x : float) : float :=
  match x with
  | FFin k =>
    if str_eqb round_method (lit "floor") then FFin ((k / ONE) * ONE)
    else if str_eqb round_method (lit "ceil") then FFin (- ((- k) / ONE) * ONE)
    else FFin (rne k ONE * ONE)
  | _ => x
  end.

(** One entry of [astype("Int64")] on rounded floats: NaN becomes the
    missing value [<NA>]; a value with no equal 64-bit integer makes the
    cast raise. *)
Definition to_int64 (x : float) : result (option Z) :=
  match x with
  | FNaN => Ok None
  | FInf _ => Raise TypeError
  | FFin k =>
    let z := k / ONE in
    if (k =? z * ONE) && (- 2 ^ 63 <=? z) && (z <? 2 ^ 63)
    then Ok (Some z) else Raise TypeError
  end.

Fixpoint cast_all (col : list float) : result (list (option Z)) :=
  match col with
  | [] => Ok []
  | x :: col' =>
    match to_int64 x with
    | Raise e => Raise e
    | Ok v =>
      match cast_all col' with
      | Raise e => Raise e
      | Ok vs => Ok (v :: vs)
      end
    end
  end.

(** [_to_int_series(s)] *)
Definition _to_int_series (round_method : str) (col : list float)
  : result (list (option Z)) :=
  cast_all (map (round_value round_method) col).

(** The three columns the driver writes: nullable integers when
    [enforce_int], floats otherwise.  They are named [min_salary],
    [max_salary], [mean_salary] when [overwrite], and carry the suffix
    [_clean] otherwise. *)
Inductive SalaryColumns :=
| IntColumns (min_salary max_salary mean_salary : list (option Z))
| FloatColumns (min_salary max_salary mean_salary : list float).

(** [clean_salary_columns_int(df, ...)]: the written columns, with [total]
    the reduction under the column means. *)
Definition clean_salary_columns_int (total : list float -> float)
    (df : SalaryFrame) (overwrite : bool)
    (fill_strategy : option str) (enforce_int : bool) (round_method : str)
  : result SalaryColumns :=
  let c_min := apply_fill (fill_value_min total fill_strategy (tmp_min df)) (tmp_min df) in
  let c_max := apply_fill (fill_value_min total fill_strategy (tmp_max df)) (tmp_max df) in
  let c_mean := apply_fill (fill_value_mean total fill_strategy (tmp_mean df)) (tmp_mean df) in
  if enforce_int then
    match _to_int_series round_method c_min with
    | Raise e => Raise e
    | Ok i_min =>
      match _to_int_series round_method c_max with
      | Raise e => Raise e
      | Ok i_max =>
        match _to_int_series round_method c_mean with
        | Raise e => Raise e
        | Ok i_mean => Ok (IntColumns i_min i_max i_mean)
        end
      end
    end
  else Ok (FloatColumns c_min c_max c_mean).

(** *** Export *)

(** The two writers of a data frame: [df.to_parquet(path, index=False)]
    and [df.to_csv(path, index=False, float_format=f)].  A writer returns
    nothing, or raises: the file cannot be written, the engine is missing,
    a column does not fit the format. *)
Record DataFrame := {
  to_parquet : str -> result unit;
  to_csv : str -> str -> result unit
}.

(** [export_for_tableau(df, path, fmt)] *)
Definition export_for_tableau (df : DataFrame) (path : str) (fmt : str)
  : result unit :=
  if str_eqb fmt (lit "parquet") then to_parquet df path
  else if str_eqb fmt (lit "csv") then to_csv df path (lit "%.0f")
  else Raise (ValueError "fmt must be 'parquet' or 'csv'").
End salary_parser_int.

(* ================================================================== *)
(** ** title_cleaner.py *)
(* ================================================================== *)

Module title_cleaner.
Import Text.

(** [re.compile(r"\b...\b", flags=re.I)] for literal text between the
    word boundaries. *)
Definition word_re (s : string) : Re.regex :=
  Re.re_i [[Re.WordB] ++ Re.lits s ++ [Re.WordB]].

(** As [word_re], with an optional hyphen or space between two parts:
    [r"\bfront[- ]?end\b"]. *)
Definition split_word_re (a b : string) : Re.regex :=
  Re.re_i [[Re.WordB] ++ Re.lits a ++ [Re.opt (Re.chars "- ")] ++ Re.lits b
            ++ [Re.WordB]].

(** [_DATA_RE]: the compiled [DATA_PATTERNS]. *)
Definition _DATA_RE : list Re.regex :=
  map word_re
    [ "data scientist"; "data science"; "machine learning"; "ml engineer";
      "ml"; "deep learning"; "computer vision"; "nlp"; "natural language";
      "pytorch"; "tensorflow"; "scikit"; "pyspark"; "spark"; "data engineer";
      "data analyst"; "statistician"; "research scientist" ]%string.

(** [_SOFTWARE_RE]: the compiled [SOFTWARE_PATTERNS]. *)
Definition _SOFTWARE_RE : list Re.regex :=
  [ word_re "software engineer"; word_re "software developer";
    word_re "devops"; word_re "sre"; word_re "site reliability";
    word_re "backend"; split_word_re "front" "end";
    split_word_re "full" "stack"; word_re "mobile engineer";
    word_re "platform engineer"; word_re "application engineer";
    word_re "engineer"; word_re "programmer"; word_re "developer";
    word_re "backend"; word_re "frontend" ].

(** [for r in res: if r.search(t): return ...]: whether the loop returns. *)
Fixpoint first_match (res : list Re.regex) (t : str) : bool :=
  match res with
  | [] => false
  | r :: res' => if Re.search r t then true else first_match res' t
  end.

Definition is_empty (s : str) : bool :=
  match s with [] => true | _ :: _ => false end.

(** [classify_title(title, data_res, sw_res, unknown_label, other_label,
    coerce_other_to_sw)] *)
Definition classify_title (title : option str) (data_res sw_res : list Re.regex)
    (unknown_label other_label : str) (coerce_other_to_sw : bool) : str :=
  match title with
  | None => unknown_label
  | Some x =>
    let t := strip x in
    if is_empty t then unknown_label
    else if first_match data_res t then lit "Data Scientist"
    else if first_match sw_res t then lit "Software Engineer"
    else if coerce_other_to_sw then lit "Software Engineer"
    else other_label
  end.

(** The call with the default patterns and labels. *)
Definition classify (title : option str) (coerce_other_to_sw : bool) : str :=
  classify_title title _DATA_RE _SOFTWARE_RE (lit "Unknown") (lit "Other")
                 coerce_other_to_sw.

(** *** The batch classification *)

(** Truthiness of [keep_top_n_other]: [None] and 0 are false. *)
Definition keep_on (keep_top_n_other : option Z) : bool :=
  match keep_top_n_other with
  | Some n => negb (n =? 0)%Z
  | None => false
  end.

(** [top_other_set]: the index of the value-counts head (computed by
    pandas, given here as [top_index]), without empty and blank entries;
    empty unless [keep_top_n_other and not coerce_other_to_sw]. *)
Definition top_other_set (coerce_other_to_sw : bool) (keep_top_n_other : option Z)
    (top_index : list str) : list str :=
  if keep_on keep_top_n_other && negb coerce_other_to_sw
  then filter (fun x => negb (is_empty x) && negb (is_empty (strip x))) top_index
  else [].

(** [_map_title(x)] inside [clean_job_titles] *)
Definition _map_title (coerce_other_to_sw : bool) (keep_top_n_other : option Z)
    (top_set : list str) (x : option str) : str :=
  let raw := x in
  if keep_on keep_top_n_other && negb coerce_other_to_sw && truthy raw
     && mem (strip (match raw with Some t => t | None => [] end)) top_set
  then strip (match raw with Some t => t | None => [] end)
  else classify_title raw _DATA_RE _SOFTWARE_RE (lit "Unknown") (lit "Other")
                      coerce_other_to_sw.

(** [clean_job_titles(df, title_col, out_col, coerce_other_to_sw,
    keep_top_n_other)]: the written column, for the title column [titles]. *)
Definition clean_job_titles (titles : list (option str))
    (coerce_other_to_sw : bool) (keep_top_n_other : option Z)
    (top_index : list str) : list str :=
  map (_map_title coerce_other_to_sw keep_top_n_other
         (top_other_set coerce_other_to_sw keep_top_n_other top_index))
      titles.

End title_cleaner.

(* ================================================================== *)
(** ** Vocabulary of the properties *)
(* ================================================================== *)

Import Text Float location_cleaner salary_parser_int title_cleaner.

(** Closed facts are settled by evaluation, one conjunct at a time. *)
Ltac by_evaluation :=
  repeat match goal with |- _ /\ _ => split end; vm_compute; reflexivity.

(** A title that is missing or blank. *)
Definition missing_or_blank (title : option str) : Prop :=
  match title with
  | None => True
  | Some x => strip x = []
  end.

(** Turn boolean comparisons on code points into propositions. *)
Ltac char_props :=
  unfold is_word, is_alpha, is_upper, is_lower, is_digit, is_space, in_range in *;
  rewrite ?orb_true_iff, ?andb_true_iff, ?N.leb_le, ?N.eqb_eq in *.

(** The code a country token stands for: the synonym table's, or the
    token in upper case. *)
Definition country_code (tok : str) : str :=
  match lookup (lower tok) COUNTRY_MAP with
  | Some code => code
  | None => upper tok
  end.

(** The city is the join of the parts left after both steps. *)
Definition city_of (toks : list str) : option str :=
  match toks with
  | [] => None
  | _ :: _ => Some (strip (join (lit ", ") toks))
  end.

(** A separator of the token pattern. *)
Definition sep (c : char) : bool :=
  Re.atom_ok false (Re.Cls false (Re.chars ",/|")) c.

Definition no_sep (s : str) : Prop := Forall (fun c => sep c = false) s.

Definition space : char := 32%N.

(** Text that starts with a character that is no white space. *)
Definition starts_ok (s : str) : Prop :=
  match s with
  | [] => False
  | c :: _ => is_space c = false
  end.

(** Text with nothing to strip at either end. *)
Definition trimmed (s : str) : Prop := starts_ok s /\ starts_ok (rev s).



(** The known values of a column are finite. *)
Definition finite_known (col : list float) : Prop :=
  Forall (fun x => is_finite x = true) (known col).

(** The sum of a column, as the reduction [total] takes it, is a number. *)
Definition summable (total : list float -> float) (col : list float) : Prop :=
  isna (total (zero_filled col)) = false.





(** The minimum column a call of the driver wrote as floats. *)
Definition written_min (r : result SalaryColumns) : list float :=
  match r with
  | Ok (FloatColumns a _ _) => a
  | _ => []
  end.


(** A number of 401 digits, and the same in parentheses between two
    currency signs: they parse to plus and minus infinity. *)
Definition huge_amount : str := lit "1" ++ repeat (chr "0") 400.

Definition huge_debt : str := lit "$(" ++ huge_amount ++ lit ")$".


(** The number [10^308], of 309 digits: finite, but twice it is not. *)
Definition large_amount : str := lit "1" ++ repeat (chr "0") 308.

(** The same in parentheses between two currency signs. *)
Definition large_debt : str := lit "$(" ++ large_amount ++ lit ")$".

(** Sixteen rows with a minimum column: the large amount at rows 0 and 8,
    the large debt at rows 1 and 9, nothing at the last row. *)
Definition opposed_frame : SalaryFrame :=
  let one := (None, Some (lit "1"), None) in
  let eight := [ (None, Some large_amount, None); (None, Some large_debt, None);
                 one; one; one; one; one ] in
  {| index := RangeIndex 16;
     has_mean_col := false; has_min_col := true; has_max_col := false;
     rows := eight ++ [one] ++ eight ++ [(None, None, None)] |}.

(** The sample frame after its first row was dropped: the labels 1 and 2
    are left. *)
Definition filtered_frame : SalaryFrame :=
  {| index := [IntLabel 1; IntLabel 2];
     has_mean_col := true; has_min_col := true; has_max_col := true;
     rows := [ (None, Some (lit "40k-60k"), Some (lit "70k"));
               (None, None, None) ] |}.

(** A frame whose files cannot be written: both writers raise. *)
Definition unwritable_frame : DataFrame :=
  {| to_parquet := fun _ => Raise (OSError "Cannot save file into a non-existent directory");
     to_csv := fun _ _ => Raise (OSError "Cannot save file into a non-existent directory") |}.

(** A frame whose files are written. *)
Definition writable_frame : DataFrame :=
  {| to_parquet := fun _ => Ok tt; to_csv := fun _ _ => Ok tt |}.

(** The finite binary64 values, in units: at most 53 significant bits, and
    below the overflow threshold. *)
Definition fits53 (k : Z) : Prop :=
  (Z.abs k mod 2 ^ ulp_shift (Z.abs k) = 0 /\ Z.abs k < LIMIT)%Z.

Definition binary64 (x : float) : Prop :=
  match x with
  | FFin k => fits53 k
  | _ => True
  end.

(** A parsed number that is kept: not NaN, and a binary64 value. *)
Definition kept_number (x : float) : Prop := isna x = false /\ binary64 x.

(** What holds of every result triple [(min, max, mean)]: all three are
    NaN; or min and max are numbers with [min <= max], the mean is either
    equal to both or the float [(min + max) / 2.0], and whenever the float
    sum [min + max] is finite the mean is finite and lies between them. *)
Definition consistent (t : triple) : Prop :=
  let '(mn, mx, me) := t in
  (mn = FNaN /\ mx = FNaN /\ me = FNaN)
  \/ (isna mn = false /\ isna mx = false /\ fle mn mx = true
      /\ ((me = mn /\ me = mx) \/ me = fdiv (fadd mn mx) (of_Z 2))
      /\ (is_finite (fadd mn mx) = true ->
          is_finite me = true /\ fle mn me = true /\ fle me mx = true)).

Definition feqb (a b : float) : bool :=
  match a, b with
  | FNaN, FNaN => true
  | FInf s, FInf t => Bool.eqb s t
  | FFin x, FFin y => (x =? y)%Z
  | _, _ => false
  end.

(** C10 as it is stated: all three NaN, or all three numbers with
    [min <= mean <= max] that are equal or have the float mean. *)
Definition all_or_nothing (t : triple) : bool :=
  let '(mn, mx, me) := t in
  (isna mn && isna mx && isna me)
  || (notna mn && notna mx && notna me && fle mn me && fle me mx
      && ((feqb mn mx && feqb mx me) || feqb me (fdiv (fadd mn mx) (of_Z 2)))).

(** The labels [classify_title] can give: [Other] only without coercion. *)
Definition standard_label (coerce : bool) (l : str) : Prop :=
  l = lit "Data Scientist" \/ l = lit "Software Engineer" \/ l = lit "Unknown"
  \/ (coerce = false /\ l = lit "Other").

(** The cells of a row in the order the driver reads them: the mean
    column's, the minimum column's and the maximum column's, for the
    columns that exist. *)
Definition row_cells (df : SalaryFrame) (r : cell * cell * cell) : list cell :=
  let '(cm, cn, cx) := r in
  (if has_mean_col df then [cm] else [])
  ++ (if has_min_col df then [cn] else [])
  ++ (if has_max_col df then [cx] else []).


(** A triple that is entirely NaN, or has a minimum and a maximum that
    are numbers in order. *)
Definition ranged (t : triple) : Prop :=
  let '(mn, mx, me) := t in
  (mn = FNaN /\ mx = FNaN /\ me = FNaN)
  \/ (isna mn = false /\ isna mx = false /\ fle mn mx = true).

(** A row of the driver: entirely NaN, or a minimum and a maximum in
    order, with a mean unless they are the two infinities. *)
Definition settled (t : triple) : Prop :=
  let '(mn, mx, me) := t in
  (mn = FNaN /\ mx = FNaN /\ me = FNaN)
  \/ (isna mn = false /\ isna mx = false /\ fle mn mx = true
      /\ (isna me = true -> mn = FInf true /\ mx = FInf false)).

(** What [_to_int_series] writes for one value: nothing for NaN, and for a
    number the 64-bit integer the rounding method selects. *)
Definition rounded_to (round_method : str) (x : float) (v : option Z) : Prop :=
  match x, v with
  | FNaN, None => True
  | FFin k, Some z =>
    (- 2 ^ 63 <= z < 2 ^ 63)%Z
    /\ (if str_eqb round_method (lit "floor")
        then (z * ONE <= k < (z + 1) * ONE)%Z
        else if str_eqb round_method (lit "ceil")
        then ((z - 1) * ONE < k <= z * ONE)%Z
        else (2 * Z.abs (k - z * ONE) <= ONE
              /\ (2 * Z.abs (k - z * ONE) = ONE -> Z.even z = true))%Z)
  | _, _ => False
  end.

(** The last character passed after reading [s]. *)
Definition after (s : str) (prev : option char) : option char :=
  fold_left (fun _ c => Some c) s prev.

(** The class or character every match of a branch starts with: its first
    item that is neither an assertion nor a parenthesis, when that item is
    not optional. *)
Fixpoint leading (b : Re.branch) : option Re.atom :=
  match b with
  | [] => None
  | Re.Tok a Re.One :: _ | Re.Tok a Re.Plus :: _ => Some a
  | Re.Tok _ _ :: _ => None
  | _ :: b' => leading b'
  end.

(** Every branch of the pattern starts with a character. *)
Definition anchored (r : Re.regex) : bool :=
  forallb (fun b => match leading b with Some _ => true | None => false end)
          (Re.branches r).

(** No match of the pattern starts with the character [c]. *)
Definition inert (r : Re.regex) (c : char) : bool :=
  forallb (fun b => match leading b with
                    | Some a => negb (Re.atom_ok (Re.ignorecase r) a c)
                    | None => false
                    end)
          (Re.branches r).

(** Text made of decimal digits, and the number it writes. *)
Definition all_digits (s : str) : bool := forallb is_digit s.

Definition number (s : str) : Z :=
  fold_left (fun acc c => (10 * acc + Z.of_N (c - 48))%Z) s 0%Z.

(** Currency signs in front of an amount. *)
Definition currency : str := lit "$€£¥".

Definition signs (s : str) : Prop := Forall (fun c => In c currency) s.

(** The characters of an amount: digits, the comma, and the suffixes. *)
Definition figures : str := lit "0123456789,kKmM".

(** Amounts as job listings write them, with the number they stand for:
    digits, digits in two groups around a comma, and digits with a suffix
    for thousands or millions, each after any currency signs. *)
Inductive amount : str -> float -> Prop :=
| amount_plain (pre a : str) :
    signs pre -> a <> [] -> all_digits a = true ->
    amount (pre ++ a) (of_Z (number a))
| amount_grouped (pre a b : str) :
    signs pre -> a <> [] -> all_digits a = true -> all_digits b = true ->
    amount (pre ++ a ++ chr "," :: b) (of_Z (number (a ++ b)))
| amount_thousands (pre a : str) (k : char) :
    signs pre -> a <> [] -> all_digits a = true -> In k (lit "kK") ->
    amount (pre ++ a ++ [k]) (fmul (of_Z (number a)) (of_Z 1000))
| amount_millions (pre a : str) (k : char) :
    signs pre -> a <> [] -> all_digits a = true -> In k (lit "mM") ->
    amount (pre ++ a ++ [k]) (fmul (of_Z (number a)) (of_Z 1000000)).

(** The separators of a range other than the word [to]. *)
Definition dashes : str := lit "-–—".

(** Every character of an amount. *)
Definition amount_chars : str := currency ++ figures.

(** Text of the ASCII range, on which the case tables of the embedding
    are those of Python. *)
Definition ascii_text (s : str) : Prop := Forall (fun c => (c < 128)%N) s.

(** The words of [DATA_PATTERNS], and the words of [SOFTWARE_PATTERNS]
    that are written without an optional separator. *)
Definition data_words : list string :=
  [ "data scientist"; "data science"; "machine learning"; "ml engineer";
    "ml"; "deep learning"; "computer vision"; "nlp"; "natural language";
    "pytorch"; "tensorflow"; "scikit"; "pyspark"; "spark"; "data engineer";
    "data analyst"; "statistician"; "research scientist" ]%string.

Definition software_words : list string :=
  [ "software engineer"; "software developer"; "devops"; "sre";
    "site reliability"; "backend"; "mobile engineer"; "platform engineer";
    "application engineer"; "engineer"; "programmer"; "developer";
    "frontend" ]%string.

(** The end of the text, or an ASCII character that is not of a word. *)
Definition edge (s : str) : Prop :=
  match s with
  | [] => True
  | c :: _ => (c < 128)%N /\ is_word c = false
  end.

(** The text holds the keyword as a whole word, in any letter case. *)
Definition whole_word (kw : string) (t : str) : Prop :=
  exists pre w post,
    t = pre ++ w ++ post /\ lower w = lit kw /\ edge (rev pre) /\ edge post.

(** Runs of the space character. *)
Definition spaces (s : str) : Prop := Forall (fun c => c = space) s.

(** What stands between the two amounts of a range: a hyphen or dash with
    any spaces around it, or the word [to] between spaces. *)
Inductive separator : str -> Prop :=
| separator_dash (sp1 sp2 : str) (d : char) :
    spaces sp1 -> spaces sp2 -> In d dashes ->
    separator (sp1 ++ d :: sp2)
| separator_to (sp1 sp2 : str) :
    spaces sp1 -> spaces sp2 -> sp1 <> [] -> sp2 <> [] ->
    separator (sp1 ++ lit "to" ++ sp2).

(* ================================================================== *)
(** ** Properties *)
(* ================================================================== *)

(** *** Text *)

Lemma str_eqb_eq (a b : str) : str_eqb a b = true <-> a = b.
Proof.
  revert b; induction a as [|x a IH]; intros [|y b]; simpl; split;
    try congruence; try reflexivity.
  - intros H. apply andb_true_iff in H as [Hx Hab].
    apply N.eqb_eq in Hx. apply IH in Hab. congruence.
  - intros H. injection H as -> ->.
    apply andb_true_iff; split; [apply N.eqb_refl | now apply IH].
Qed.

Lemma str_eqb_neq (a b : str) : str_eqb a b = false <-> a <> b.
Proof.
  split.
  - intros H E. apply str_eqb_eq in E. congruence.
  - intros H. destruct (str_eqb a b) eqn:E; [|reflexivity].
    apply str_eqb_eq in E. contradiction.
Qed.

(** *** Location: the worked examples *)

(** C4: [parse_location] on the three example inputs of the specification:
    "Remote, US" gives no city, no state, country US and the remote flag;
    "New York, NY, US" gives city New York, state NY, country US and no
    remote flag; "US" gives no city, no state and country US. *)
Theorem parse_location_examples :
  parse_location (Some (lit "Remote, US"))
  = Ok {| city := None; state := None; country := Some (lit "US");
          is_remote := true; raw := Some (lit "Remote, US") |}
  /\ parse_location (Some (lit "New York, NY, US"))
     = Ok {| city := Some (lit "New York"); state := Some (lit "NY");
             country := Some (lit "US"); is_remote := false;
             raw := Some (lit "New York, NY, US") |}
  /\ parse_location (Some (lit "US"))
     = Ok {| city := None; state := None; country := Some (lit "US");
             is_remote := false; raw := Some (lit "US") |}.
Proof. by_evaluation. Qed.

(** C1: [parse_location] is not total.  On the cell "Remote" the only token
    is dropped by the remote step and [parts[-1]] raises [IndexError]; the
    same happens for a missing-value-free cell such as "remote / Remote".
    ([parse_salary_field] and [classify_title] are total functions of the
    embedding: every exception they could meet is caught in the source.) *)
Theorem parse_location_remote_raises :
  parse_location (Some (lit "Remote")) = Raise IndexError
  /\ parse_location (Some (lit "remote / Remote")) = Raise IndexError.
Proof. by_evaluation. Qed.

(** *** Salary: the worked examples *)

(** C2: on the European-style text the field parser does not return 50000.
    The number pattern finds the two tokens "50.000" and "00", so the
    list branch returns min 0, max 50 and mean 25; and the single-number
    routine, which the field parser does not even reach here, reads the
    text as 50, because Strategy A succeeds before Strategy B is tried. *)
Theorem parse_salary_field_european_text :
  Re.findall re_number (lit "€50.000,00") = [lit "50.000"; lit "00"]
  /\ parse_salary_field (Some (lit "€50.000,00")) = (of_Z 0, of_Z 50, of_Z 25)
  /\ _parse_single_number (lit "€50.000,00") = of_Z 50.
Proof. by_evaluation. Qed.

(** C3: on a parenthesized amount the field parser returns the positive
    number: the surrounding parentheses are removed as wrapping before the
    single-number routine could read them as a sign.  The routine itself
    does read them as a sign. *)
Theorem parse_salary_field_parenthesized_text :
  parse_salary_field (Some (lit "(60,000)"))
  = (of_Z 60000, of_Z 60000, of_Z 60000)
  /\ _parse_single_number (lit "(60,000)") = of_Z (-60000).
Proof. by_evaluation. Qed.

(** *** Export *)

(** C9, as the code has it: [export_for_tableau] hands the frame to the
    writer of the format and its outcome is the writer's, an error of the
    writer included; for any other [fmt] it raises its own [ValueError].
    So it raises exactly when [fmt] is neither "parquet" nor "csv" or the
    writer it calls raises, and on a frame whose writers return it raises
    exactly when [fmt] is neither of the two. *)
Theorem export_for_tableau_outcome (df : DataFrame) (path fmt : str) :
  (fmt = lit "parquet" -> export_for_tableau df path fmt = to_parquet df path)
  /\ (fmt = lit "csv" ->
      export_for_tableau df path fmt = to_csv df path (lit "%.0f"))
  /\ (fmt <> lit "parquet" -> fmt <> lit "csv" ->
      export_for_tableau df path fmt
      = Raise (ValueError "fmt must be 'parquet' or 'csv'"))
  /\ ((exists e, export_for_tableau df path fmt = Raise e)
      <-> ((fmt <> lit "parquet" /\ fmt <> lit "csv")
           \/ (fmt = lit "parquet" /\ exists e, to_parquet df path = Raise e)
           \/ (fmt = lit "csv"
               /\ exists e, to_csv df path (lit "%.0f") = Raise e)))
  /\ ((forall p, to_parquet df p = Ok tt) ->
      (forall p f, to_csv df p f = Ok tt) ->
      ((exists e, export_for_tableau df path fmt = Raise e)
       <-> (fmt <> lit "parquet" /\ fmt <> lit "csv"))).
Proof.
  unfold export_for_tableau.
  destruct (str_eqb fmt (lit "parquet")) eqn:Ep;
    [|destruct (str_eqb fmt (lit "csv")) eqn:Ec].
  - apply str_eqb_eq in Ep.
    split; [reflexivity|]. split; [intros H; subst fmt; discriminate|].
    split; [intros H; contradiction|]. split; [split|].
    + intros He. right. left. split; [exact Ep | exact He].
    + intros [[H _] | [[_ He] | [H _]]];
        [contradiction | exact He | subst fmt; discriminate].
    + intros Hp _. rewrite Hp. split.
      * intros [e He]. discriminate.
      * intros [H _]. contradiction.
  - apply str_eqb_eq in Ec. apply str_eqb_neq in Ep.
    split; [intros H; contradiction|]. split; [reflexivity|].
    split; [intros _ H; contradiction|]. split; [split|].
    + intros He. right. right. split; [exact Ec | exact He].
    + intros [[_ H] | [[H _] | [_ He]]];
        [contradiction | contradiction | exact He].
    + intros _ Hc. rewrite Hc. split.
      * intros [e He]. discriminate.
      * intros [_ H]. contradiction.
  - apply str_eqb_neq in Ep. apply str_eqb_neq in Ec.
    split; [intros H; contradiction|]. split; [intros H; contradiction|].
    split; [reflexivity|]. split; [split|].
    + intros _. left. split; assumption.
    + intros _. eexists. reflexivity.
    + intros _ _. split.
      * intros _. split; assumption.
      * intros _. eexists. reflexivity.
Qed.

(** A witness for C9: a frame whose writers return, exported as "csv". *)
Lemma export_for_tableau_outcome_witness :
  export_for_tableau writable_frame (lit "out.csv") (lit "csv") = Ok tt
  /\ ((exists e, export_for_tableau writable_frame (lit "out.csv") (lit "csv")
                 = Raise e)
      <-> (lit "csv" <> lit "parquet" /\ lit "csv" <> lit "csv")).
Proof.
  destruct (export_for_tableau_outcome writable_frame (lit "out.csv") (lit "csv"))
    as [_ [H [_ [_ W]]]].
  split.
  - exact (H eq_refl).
  - exact (W (fun _ => eq_refl) (fun _ _ => eq_refl)).
Defined.

(** C9 as stated fails: with the valid format "csv", the error of the
    writer on a path that cannot be written reaches the caller. *)
Lemma export_writer_error_reaches_caller :
  export_for_tableau unwritable_frame (lit "/missing/out.csv") (lit "csv")
  = Raise (OSError "Cannot save file into a non-existent directory")
  /\ ~ ((exists e,
           export_for_tableau unwritable_frame (lit "/missing/out.csv") (lit "csv")
           = Raise e)
        <-> (lit "csv" <> lit "parquet" /\ lit "csv" <> lit "csv")).
Proof.
  split; [reflexivity|].
  intros [H _]. destruct H as [_ H].
  - eexists. reflexivity.
  - now apply H.
Qed.

(** *** Titles *)

Lemma first_match_exists (res : list Re.regex) (t : str) :
  first_match res t = true <-> exists r, In r res /\ Re.search r t = true.
Proof.
  induction res as [|r res IH]; simpl.
  - split; [discriminate | intros [r [[] _]]].
  - destruct (Re.search r t) eqn:E.
    + split; [intros _; exists r; auto | reflexivity].
    + rewrite IH. split.
      * intros [r' [Hin Hs]]. exists r'. auto.
      * intros [r' [[->|Hin] Hs]]; [congruence | exists r'; auto].
Qed.

Lemma first_match_none (res : list Re.regex) (t : str) :
  first_match res t = false <-> forall r, In r res -> Re.search r t = false.
Proof.
  split.
  - intros H r Hin. destruct (Re.search r t) eqn:E; [|reflexivity].
    assert (first_match res t = true) by (apply first_match_exists; eauto).
    congruence.
  - intros H. destruct (first_match res t) eqn:E; [|reflexivity].
    apply first_match_exists in E as [r [Hin Hs]].
    rewrite (H r Hin) in Hs. discriminate.
Qed.

(** C7: with the default patterns and labels, the label is "Unknown"
    exactly for a missing or blank title.  For a present title [x]: if some
    data pattern is found in it the label is "Data Scientist"; otherwise if
    some software pattern is found it is "Software Engineer"; otherwise it
    is "Software Engineer" under coercion and "Other" without.  "Senior
    Data Engineer" is a "Data Scientist", although the software pattern
    [engineer] is found in it too. *)
Theorem classify_title_rules (title : option str) (coerce : bool) :
  (classify title coerce = lit "Unknown" <-> missing_or_blank title)
  /\ (forall x, title = Some x -> strip x <> [] ->
        let found res := exists r, In r res /\ Re.search r (strip x) = true in
        (found _DATA_RE -> classify title coerce = lit "Data Scientist")
        /\ (~ found _DATA_RE -> found _SOFTWARE_RE ->
              classify title coerce = lit "Software Engineer")
        /\ (~ found _DATA_RE -> ~ found _SOFTWARE_RE ->
              classify title coerce
              = if coerce then lit "Software Engineer" else lit "Other"))
  /\ classify (Some (lit "Senior Data Engineer")) coerce = lit "Data Scientist"
  /\ first_match _SOFTWARE_RE (lit "Senior Data Engineer") = true.
Proof.
  split; [|split; [|split]].
  - unfold classify, classify_title, missing_or_blank.
    destruct title as [x|]; [|split; auto].
    destruct (strip x) as [|c t] eqn:Es; simpl is_empty; cbv iota.
    + split; auto.
    + split; [|discriminate].
      destruct (first_match _DATA_RE (c :: t)); [discriminate|].
      destruct (first_match _SOFTWARE_RE (c :: t)); [discriminate|].
      destruct coerce; discriminate.
  - intros x -> Hx found. unfold classify, classify_title.
    destruct (strip x) as [|c t] eqn:Es; [contradiction|].
    simpl is_empty; cbv iota. subst found. cbv beta.
    repeat split.
    + intros H. apply first_match_exists in H. now rewrite H.
    + intros Hd Hs. apply first_match_exists in Hs.
      destruct (first_match _DATA_RE (c :: t)) eqn:Ed.
      * apply first_match_exists in Ed. contradiction.
      * now rewrite Hs.
    + intros Hd Hs.
      destruct (first_match _DATA_RE (c :: t)) eqn:Ed.
      * apply first_match_exists in Ed. contradiction.
      * destruct (first_match _SOFTWARE_RE (c :: t)) eqn:Esw.
        -- apply first_match_exists in Esw. contradiction.
        -- reflexivity.
  - destruct coerce; vm_compute; reflexivity.
  - vm_compute; reflexivity.
Qed.

(** *** Location: tokens *)

Lemma alpha_not_space (c : char) : is_alpha c = true -> is_space c = false.
Proof.
  intros H. apply not_true_is_false. intros Hs. char_props. lia.
Qed.

Lemma alpha_is_word (c : char) : is_alpha c = true -> is_word c = true.
Proof. unfold is_word. intros ->. reflexivity. Qed.

Lemma lower_char_alpha (c : char) : is_alpha c = true -> is_alpha (lower_char c) = true.
Proof.
  intros H. unfold lower_char. destruct (is_upper c) eqn:E; [|exact H].
  char_props. lia.
Qed.

Lemma upper_lower_char (c : char) : upper_char (lower_char c) = upper_char c.
Proof.
  unfold upper_char, lower_char.
  destruct (is_upper c) eqn:Eu.
  - assert (is_lower (c + 32)%N = true) as -> by (char_props; lia).
    assert (is_lower c = false) as ->
      by (apply not_true_is_false; intros Hl; char_props; lia).
    lia.
  - reflexivity.
Qed.

Lemma upper_lower (s : str) : upper (lower s) = upper s.
Proof.
  unfold upper, lower. rewrite map_map. apply map_ext. apply upper_lower_char.
Qed.

Lemma lstrip_by_head (p : char -> bool) (c : char) (s : str) :
  p c = false -> lstrip_by p (c :: s) = c :: s.
Proof. intros H. simpl. now rewrite H. Qed.

Lemma alpha_forall_rev (s : str) :
  forallb is_alpha s = true -> forallb is_alpha (rev s) = true.
Proof.
  rewrite !forallb_forall. intros H x Hx. apply H. now apply in_rev.
Qed.

Lemma lstrip_alpha (s : str) :
  forallb is_alpha s = true -> lstrip_by is_space s = s.
Proof.
  destruct s as [|c s]; [reflexivity|]. simpl. intros H.
  apply andb_true_iff in H as [Hc _]. now rewrite (alpha_not_space c Hc).
Qed.

(** Alphabetic text has nothing to strip. *)
Lemma strip_alpha (s : str) : forallb is_alpha s = true -> strip s = s.
Proof.
  intros H. unfold strip, rstrip_by. rewrite (lstrip_alpha s H).
  rewrite (lstrip_alpha (rev s) (alpha_forall_rev s H)). apply rev_involutive.
Qed.

Lemma isalpha_forall (s : str) : isalpha s = true -> forallb is_alpha s = true.
Proof. destruct s; [discriminate | exact (fun H => H)]. Qed.

Lemma lower_alpha (s : str) :
  forallb is_alpha s = true -> forallb is_alpha (lower s) = true.
Proof.
  rewrite !forallb_forall. intros H x Hx. unfold lower in Hx.
  apply in_map_iff in Hx as [y [<- Hy]]. apply lower_char_alpha. auto.
Qed.

(** The punctuation pattern finds nothing in text made of word characters
    and white space. *)
Lemma punctuation_scan (rest : str) (prev : option char) (gap : str) :
  forallb (fun c => is_word c || is_space c) rest = true ->
  Re.scan re_punctuation prev 0 rest gap = ([], rev gap ++ rest).
Proof.
  revert prev gap. induction rest as [|c rest IH]; intros prev gap H.
  - simpl. now rewrite app_nil_r.
  - simpl in H. apply andb_true_iff in H as [Hc H].
    cbn [Re.scan]. unfold Re.match_at. cbn.
    rewrite !orb_false_r. rewrite Hc.
    rewrite (IH (Some c) (c :: gap) H). cbn [rev].
    now rewrite <- app_assoc.
Qed.

Lemma sub_del_punctuation_alpha (s : str) :
  forallb is_alpha s = true -> Re.sub_del re_punctuation s = s.
Proof.
  intros H. unfold Re.sub_del, Re.split, Re.finditer.
  rewrite punctuation_scan.
  - simpl. now rewrite app_nil_r.
  - rewrite forallb_forall in *. intros x Hx.
    now rewrite (alpha_is_word x (H x Hx)).
Qed.

Lemma normalize_country_two_letters (tok : str) :
  List.length tok = 2%nat -> isalpha tok = true ->
  _normalize_country tok = Some (country_code tok).
Proof.
  intros Hlen Ha. pose proof (isalpha_forall tok Ha) as Hall.
  unfold _normalize_country, country_code.
  rewrite (strip_alpha tok Hall).
  rewrite (sub_del_punctuation_alpha _ (lower_alpha tok Hall)).
  rewrite (strip_alpha _ (lower_alpha tok Hall)).
  destruct tok as [|a [|b [|]]]; try discriminate.
  cbn [lower map location_cleaner.is_empty].
  change [lower_char a; lower_char b] with (lower [a; b]).
  destruct (lookup (lower [a; b]) COUNTRY_MAP); [reflexivity|].
  cbn [List.length Nat.eqb andb].
  assert (isalpha (lower [a; b]) = true) as ->.
  { pose proof (lower_alpha _ Hall) as H. exact H. }
  now rewrite upper_lower.
Qed.

Lemma lookup_in (k v : str) (d : list (str * str)) :
  lookup k d = Some v -> In v (map snd d).
Proof.
  induction d as [|[k' v'] d IH]; simpl; [discriminate|].
  destruct (str_eqb k k'); [intros [= ->]; auto | auto].
Qed.


Lemma last_of_app (toks : list str) (tok : str) : last_of (toks ++ [tok]) = Ok tok.
Proof. unfold last_of. now rewrite rev_unit. Qed.

Lemma last_of_nonempty (parts : list str) :
  parts <> [] -> exists p, last_of parts = Ok p /\ In p parts.
Proof.
  intros H. destruct (exists_last H) as [l [p ->]].
  exists p. split; [apply last_of_app | apply in_or_app; right; left; reflexivity].
Qed.

(** The state step never raises when [n] is the number of parts: it keeps
    the parts or removes the last one. *)
Lemma state_step_ok (parts : list str) :
  exists st parts',
    state_step parts (Z.of_nat (List.length parts))
    = Ok (st, parts', Z.of_nat (List.length parts'))
    /\ (parts' = parts \/ parts' = removelast parts)
    /\ (forall a, st = Some a -> In a _state_abbrev_set).
Proof.
  unfold state_step.
  destruct parts as [|p ps] eqn:E.
  - exists None, []. simpl. repeat split; auto; discriminate.
  - rewrite <- E. assert (Hne : parts <> []) by (subst; discriminate).
    assert ((1 <=? Z.of_nat (List.length parts))%Z = true) as ->
      by (subst; apply Z.leb_le; simpl List.length; lia).
    destruct (last_of_nonempty parts Hne) as [cand [-> _]].
    destruct (truthy (_normalize_state cand)) eqn:Et.
    + exists (_normalize_state cand), (removelast parts). split; [|split].
      * do 3 f_equal.
        destruct (exists_last Hne) as [l [q ->]].
        rewrite removelast_last, length_app. simpl. lia.
      * now right.
      * intros a Ha. unfold _normalize_state in Ha.
        destruct (location_cleaner.is_empty (strip cand)); [discriminate|].
        destruct (mem (upper (strip cand)) _state_abbrev_set) eqn:Em.
        -- injection Ha as <-. unfold mem in Em.
           apply existsb_exists in Em as [x [Hin Hx]].
           apply str_eqb_eq in Hx. now subst.
        -- now apply lookup_in in Ha.
    + exists None, parts. repeat split; auto; discriminate.
Qed.

(** From a cell with at least one token, [parse_location] is the token
    body applied to the remaining tokens. *)
Lemma parse_location_some (c : str) :
  parse_location (Some c)
  = match location_tokens (strip c) with
    | [] => Ok {| city := None; state := None; country := None;
                  is_remote := false; raw := Some c |}
    | _ :: _ =>
      parse_tokens (mentions_remote (location_tokens (strip c))) (Some c)
                   (remaining_tokens c)
    end.
Proof.
  unfold parse_location, remaining_tokens.
  destruct (strip c) as [|x s] eqn:Es; [reflexivity|].
  cbn [location_cleaner.is_empty].
  destruct (location_tokens (x :: s)); reflexivity.
Qed.

Lemma remaining_tokens_nonempty (c : str) :
  remaining_tokens c <> [] -> location_tokens (strip c) <> [].
Proof.
  unfold remaining_tokens. intros H E. rewrite E in H. now apply H.
Qed.



Lemma removelast_length (l : list str) :
  l <> [] -> Z.of_nat (List.length (removelast l)) = (Z.of_nat (List.length l) - 1)%Z.
Proof.
  intros H. destruct (exists_last H) as [l' [x ->]].
  rewrite removelast_last, length_app. simpl. lia.
Qed.

Lemma removelast_prefix (l : list str) :
  l <> [] -> exists x, l = removelast l ++ [x].
Proof.
  intros H. destruct (exists_last H) as [l' [x ->]].
  exists x. now rewrite removelast_last.
Qed.

(** The country step keeps the parts or removes the last one, and [n]
    stays the number of parts. *)
Lemma country_step_shape (last : str) (parts : list str) :
  parts <> [] ->
  exists oc parts',
    country_step last parts (Z.of_nat (List.length parts))
    = (oc, parts', Z.of_nat (List.length parts'))
    /\ (parts' = parts \/ parts' = removelast parts).
Proof.
  intros Hne. unfold country_step.
  rewrite <- (removelast_length parts Hne).
  match goal with |- context [if ?b then _ else _] => destruct b end.
  - eexists _, _. split; [reflexivity | now right].
  - match goal with |- context [if ?b then _ else _] => destruct b end.
    + eexists _, _. split; [reflexivity | now right].
    + eexists _, _. split; [reflexivity | now left].
Qed.

Lemma city_step_city_of (parts : list str) :
  city_step parts (Z.of_nat (List.length parts)) = city_of parts.
Proof.
  unfold city_step, city_of. destruct parts as [|p ps]; [reflexivity|].
  assert ((1 <=? Z.of_nat (List.length (p :: ps)))%Z = true) as ->
    by (apply Z.leb_le; simpl List.length; lia).
  reflexivity.
Qed.

(** The shape of every record the token body returns: the city is made of
    a prefix of the parts, the state is a known abbreviation, and the
    remote flag is the one passed in. *)
Lemma parse_tokens_shape (remote : bool) (raw : option str) (parts : list str)
    (r : LocationRecord) :
  parse_tokens remote raw parts = Ok r ->
  exists city_toks used,
    parts = city_toks ++ used
    /\ city r = city_of city_toks
    /\ (forall a, state r = Some a -> In a _state_abbrev_set)
    /\ is_remote r = remote.
Proof.
  unfold parse_tokens. intros H.
  destruct parts as [|p0 ps0] eqn:Eparts; [discriminate|].
  rewrite <- Eparts in *.
  assert (Hne : parts <> []) by (subst; discriminate).
  destruct (last_of_nonempty parts Hne) as [last [Hlast _]].
  rewrite Hlast in H.
  destruct (country_step_shape last parts Hne) as [oc [parts1 [Hc Hp1]]].
  rewrite Hc in H.
  destruct (state_step_ok parts1) as [st [parts2 [Hs [Hp2 Hst]]]].
  rewrite Hs in H. injection H as <-. cbn [city state is_remote].
  rewrite city_step_city_of.
  assert (Hpre : forall l : list str, exists u, l = removelast l ++ u).
  { intros l. destruct l as [|x l'] eqn:El; [exists []; reflexivity|].
    rewrite <- El. destruct (removelast_prefix l) as [y Hy]; [subst; discriminate|].
    exists [y]. exact Hy. }
  assert (Hsuf : exists used, parts = parts2 ++ used).
  { destruct Hp1 as [-> | ->], Hp2 as [-> | ->].
    - exists []. now rewrite app_nil_r.
    - apply Hpre.
    - apply Hpre.
    - destruct (Hpre parts) as [u1 Hu1].
      destruct (Hpre (removelast parts)) as [u2 Hu2].
      exists (u2 ++ u1). rewrite app_assoc, <- Hu2. exact Hu1. }
  destruct Hsuf as [used Hused].
  exists parts2, used. repeat split; auto.
Qed.

(** The token body returns on every list of parts that is not empty. *)
Lemma parse_tokens_returns (remote : bool) (raw : option str) (parts : list str) :
  parts <> [] -> exists r, parse_tokens remote raw parts = Ok r.
Proof.
  intros Hne. unfold parse_tokens.
  destruct (last_of_nonempty parts Hne) as [last [-> _]].
  destruct (country_step_shape last parts Hne) as [oc [parts1 [-> _]]].
  destruct (state_step_ok parts1) as [st [parts2 [-> _]]].
  eexists. reflexivity.
Qed.

(** X1: [parse_location] raises exactly on the cells that have tokens, all
    of them the word "remote"; the error is the [IndexError] of
    [parts[-1]].  On every other cell it returns a record. *)
Theorem parse_location_raises_iff (cell : option str) :
  ((exists e, parse_location cell = Raise e)
   <-> (exists c, cell = Some c
                  /\ location_tokens (strip c) <> []
                  /\ remaining_tokens c = []))
  /\ (forall e, parse_location cell = Raise e -> e = IndexError).
Proof.
  destruct cell as [c|].
  2:{ split; [split|]; [intros [e H] | intros [c [H _]] | intros e H];
      discriminate. }
  rewrite parse_location_some.
  destruct (location_tokens (strip c)) as [|p ps] eqn:Eparts.
  { split; [split|]; [intros [e H]; discriminate | | intros e H; discriminate].
    intros [c' [[= <-] [Hne _]]]. rewrite Eparts in Hne. now contradiction Hne. }
  destruct (remaining_tokens c) as [|q qs] eqn:Erem.
  - split; [split|].
    + intros _. exists c. rewrite Eparts. repeat split; [discriminate | exact Erem].
    + intros _. exists IndexError. reflexivity.
    + intros e [= <-]. reflexivity.
  - destruct (parse_tokens_returns (mentions_remote (p :: ps)) (Some c) (q :: qs))
      as [r Hr]; [discriminate|].
    rewrite Hr. split; [split|].
    + intros [e H]. discriminate.
    + intros [c' [[= <-] [_ H]]]. rewrite Erem in H. discriminate.
    + intros e H. discriminate.
Qed.

Lemma drop_remote_forall (parts : list str) :
  Forall (fun t => lower t <> lit "remote") (drop_remote parts).
Proof.
  apply Forall_forall. intros t Ht. unfold drop_remote in Ht.
  apply filter_In in Ht as [_ Ht]. apply negb_true_iff in Ht.
  now apply str_eqb_neq in Ht.
Qed.

(** *** Location: the city text splits back into its tokens *)

(** A run of separators matches, and is at least as long as what was
    matched before it. *)
Lemma separator_run (r : str) (prev : option char) (pos : nat) :
  exists e,
    Re.m_items false [Re.Tok (Re.Cls false (Re.chars ",/|")) Re.Star] prev pos r []
    = Some (e, [])
    /\ (pos <= e)%nat
    /\ (match r with [] => True | c :: _ => sep c = false end -> e = pos).
Proof.
  revert prev pos. induction r as [|c r IH]; intros prev pos.
  - exists pos. cbn. auto.
  - cbn [Re.m_items]. fold (sep c). destruct (sep c) eqn:E.
    + destruct (IH (Some c) (S pos)) as [e [He [Hle _]]].
      cbn [Re.m_items] in He. rewrite He. exists e. split; [reflexivity|].
      split; [lia | discriminate].
    + exists pos. auto.
Qed.

Lemma match_separators_nil (prev : option char) :
  Re.match_at re_separators prev [] = None.
Proof. reflexivity. Qed.

Lemma match_separators_none (prev : option char) (c : char) (r : str) :
  sep c = false -> Re.match_at re_separators prev (c :: r) = None.
Proof.
  intros H. unfold Re.match_at, re_separators, Re.re, Re.some.
  cbn [Re.branches Re.ignorecase Re.m_branches Re.m_items].
  fold (sep c). now rewrite H.
Qed.

Lemma match_separators_some (prev : option char) (c : char) (r : str) :
  sep c = true ->
  exists e,
    Re.match_at re_separators prev (c :: r) = Some (S e, [])
    /\ (match r with [] => True | d :: _ => sep d = false end -> e = 0%nat).
Proof.
  intros H. unfold Re.match_at, re_separators, Re.re, Re.some.
  cbn [Re.branches Re.ignorecase Re.m_branches Re.m_items].
  fold (sep c). rewrite H.
  destruct (separator_run r (Some c) 1) as [e [He [Hle Hone]]].
  cbn [Re.m_items] in He. rewrite He.
  destruct e as [|e]; [lia|]. exists e. split; [reflexivity|].
  intros Hr. specialize (Hone Hr). lia.
Qed.

(** The pieces between separator runs hold no separator. *)
Lemma split_pieces_no_sep (rest : str) (prev : option char) (skip : nat) (gap : str) :
  no_sep gap ->
  Forall no_sep
    (map fst (fst (Re.scan re_separators prev skip rest gap))
     ++ [snd (Re.scan re_separators prev skip rest gap)]).
Proof.
  revert prev skip gap.
  induction rest as [|c rest IH]; intros prev skip gap Hgap.
  - destruct skip; cbn [Re.scan]; [rewrite match_separators_nil|];
      simpl; repeat constructor; now apply Forall_rev.
  - destruct skip as [|k]; cbn [Re.scan]; [|now apply IH].
    destruct (sep c) eqn:E.
    + destruct (match_separators_some prev c rest E) as [e [-> _]].
      cbn [Nat.sub]. specialize (IH (Some c) (e - 0)%nat [] (Forall_nil _)).
      destruct (Re.scan re_separators (Some c) (e - 0) rest []) as [l tail].
      simpl in *. constructor; [now apply Forall_rev | exact IH].
    + rewrite (match_separators_none prev c rest E).
      apply IH. now constructor.
Qed.

Lemma scan_step_piece (c : char) (rest : str) (prev : option char) (gap : str) :
  sep c = false ->
  Re.scan re_separators prev 0 (c :: rest) gap
  = Re.scan re_separators (Some c) 0 rest (c :: gap).
Proof.
  intros Hc. cbn [Re.scan]. now rewrite (match_separators_none prev c rest Hc).
Qed.

Lemma scan_step_separator (c : char) (rest : str) (prev : option char) (gap : str) :
  sep c = true ->
  match rest with [] => True | d :: _ => sep d = false end ->
  Re.scan re_separators prev 0 (c :: rest) gap
  = ((rev gap, [c]) :: fst (Re.scan re_separators (Some c) 0 rest []),
     snd (Re.scan re_separators (Some c) 0 rest [])).
Proof.
  intros Hc Hr. cbn [Re.scan].
  destruct (match_separators_some prev c rest Hc) as [e [E He]].
  rewrite E, (He Hr). cbn [Nat.sub].
  now destruct (Re.scan re_separators (Some c) 0 rest []).
Qed.

(** Scanning over text without separators only extends the gap. *)
Lemma scan_over_piece (t rest : str) (prev : option char) (gap : str) :
  no_sep t ->
  exists prev',
    Re.scan re_separators prev 0 (t ++ rest) gap
    = Re.scan re_separators prev' 0 rest (rev t ++ gap).
Proof.
  intros Ht. revert prev gap.
  induction Ht as [|c t Hc Ht IH]; intros prev gap.
  - exists prev. reflexivity.
  - cbn [app]. rewrite (scan_step_piece c _ prev gap Hc).
    destruct (IH (Some c) (c :: gap)) as [prev' ->].
    exists prev'. cbn [rev]. now rewrite <- app_assoc.
Qed.

(** Splitting a comma-space join of separator-free pieces gives the pieces
    back, each but the first behind the space. *)
Lemma split_join_pieces (ts : list str) (t : str) (prev : option char) (gap : str) :
  Forall no_sep (t :: ts) ->
  map fst (fst (Re.scan re_separators prev 0 (join (lit ", ") (t :: ts)) gap))
  ++ [snd (Re.scan re_separators prev 0 (join (lit ", ") (t :: ts)) gap)]
  = (rev gap ++ t) :: map (cons space) ts.
Proof.
  revert t prev gap. induction ts as [|t2 ts IH]; intros t prev gap Hall.
  - cbn [join]. inversion Hall as [|? ? Ht _]; subst.
    destruct (scan_over_piece t [] prev gap Ht) as [prev' E].
    rewrite app_nil_r in E. rewrite E. cbn [Re.scan].
    rewrite match_separators_nil. simpl.
    now rewrite rev_app_distr, rev_involutive.
  - inversion Hall as [|? ? Ht Hrest]; subst.
    change (join (lit ", ") (t :: t2 :: ts))
      with (t ++ (44%N :: space :: join (lit ", ") (t2 :: ts))).
    destruct (scan_over_piece t (44%N :: space :: join (lit ", ") (t2 :: ts))
                              prev gap Ht) as [prev' ->].
    rewrite (scan_step_separator 44%N (space :: join (lit ", ") (t2 :: ts))
               prev' _ eq_refl eq_refl).
    rewrite (scan_step_piece space _ (Some 44%N) [] eq_refl).
    cbn [fst snd map app].
    rewrite (IH t2 (Some space) [space] Hrest).
    now rewrite rev_app_distr, rev_involutive.
Qed.

Lemma lstrip_suffix (p : char -> bool) (s : str) :
  exists d, s = d ++ lstrip_by p s.
Proof.
  induction s as [|c s [d IH]]; [exists []; reflexivity|]. simpl.
  destruct (p c); [exists (c :: d); simpl; now f_equal | exists []; reflexivity].
Qed.

Lemma lstrip_starts (s : str) :
  lstrip_by is_space s <> [] -> starts_ok (lstrip_by is_space s).
Proof.
  induction s as [|c s IH]; simpl; [contradiction|].
  destruct (is_space c) eqn:E; [exact IH | intros _; exact E].
Qed.

Lemma lstrip_id (s : str) : starts_ok s -> lstrip_by is_space s = s.
Proof. destruct s as [|c s]; simpl; [contradiction | now intros ->]. Qed.

Lemma strip_trimmed (s : str) : trimmed s -> strip s = s.
Proof.
  intros [H1 H2]. unfold strip, rstrip_by.
  rewrite (lstrip_id s H1), (lstrip_id (rev s) H2). apply rev_involutive.
Qed.

Lemma starts_ok_app (a b : str) : starts_ok a -> starts_ok (a ++ b).
Proof. destruct a; simpl; [contradiction | auto]. Qed.

Lemma strip_is_trimmed (s : str) : strip s <> [] -> trimmed (strip s).
Proof.
  unfold strip, rstrip_by. set (s' := lstrip_by is_space s).
  set (u := lstrip_by is_space (rev s')). intros Hne.
  assert (Hu : u <> []) by (intros E; rewrite E in Hne; now apply Hne).
  split.
  - destruct (lstrip_suffix is_space (rev s')) as [d Hd]. fold u in Hd.
    assert (Hs' : s' = rev u ++ rev d)
      by (rewrite <- (rev_involutive s'), Hd; apply rev_app_distr).
    assert (Hs'ne : s' <> []).
    { rewrite Hs'. destruct (rev u) eqn:E; [|discriminate].
      apply (f_equal (@rev char)) in E. rewrite rev_involutive in E.
      contradiction. }
    pose proof (lstrip_starts s Hs'ne) as Hst. fold s' in Hst.
    rewrite Hs' in Hst. destruct (rev u) eqn:E; [|exact Hst].
    apply (f_equal (@rev char)) in E. rewrite rev_involutive in E. contradiction.
  - rewrite rev_involutive. now apply lstrip_starts.
Qed.

Lemma strip_after_space (s : str) : strip (space :: s) = strip s.
Proof. reflexivity. Qed.

Lemma lstrip_forall (P : char -> Prop) (p : char -> bool) (s : str) :
  Forall P s -> Forall P (lstrip_by p s).
Proof.
  intros H. destruct (lstrip_suffix p s) as [d Hd]. rewrite Hd in H.
  now apply Forall_app in H as [_ H].
Qed.

Lemma strip_forall (P : char -> Prop) (s : str) : Forall P s -> Forall P (strip s).
Proof.
  intros H. unfold strip, rstrip_by.
  apply Forall_rev, lstrip_forall, Forall_rev, lstrip_forall, H.
Qed.

(** Every token is trimmed, not empty, and free of separators. *)
Lemma location_tokens_clean (s : str) :
  Forall (fun t => trimmed t /\ no_sep t) (location_tokens s).
Proof.
  unfold location_tokens. apply Forall_map, Forall_forall. intros p Hp.
  apply filter_In in Hp as [Hin Hf].
  apply andb_true_iff in Hf as [_ Hf]. apply negb_true_iff in Hf. split.
  - apply strip_is_trimmed. intros E. rewrite E in Hf. discriminate.
  - apply strip_forall.
    pose proof (split_pieces_no_sep s None 0 [] (Forall_nil _)) as H.
    rewrite Forall_forall in H. apply H. exact Hin.
Qed.

Lemma trimmed_join (t : str) (ts : list str) :
  Forall trimmed (t :: ts) -> trimmed (join (lit ", ") (t :: ts)).
Proof.
  revert t. induction ts as [|t2 ts IH]; intros t H.
  - now inversion H.
  - inversion H as [|? ? [H1 H2] Hrest]; subst.
    destruct (IH t2 Hrest) as [J1 J2].
    change (join (lit ", ") (t :: t2 :: ts))
      with (t ++ lit ", " ++ join (lit ", ") (t2 :: ts)).
    split; [now apply starts_ok_app|].
    rewrite !rev_app_distr, <- app_assoc. now apply starts_ok_app.
Qed.

(** The city text of clean tokens splits back into exactly these tokens. *)
Lemma location_tokens_join (t : str) (ts : list str) :
  Forall (fun t => trimmed t /\ no_sep t) (t :: ts) ->
  location_tokens (strip (join (lit ", ") (t :: ts))) = t :: ts.
Proof.
  intros H.
  assert (Ht : Forall trimmed (t :: ts))
    by (eapply Forall_impl; [|exact H]; now intros ? [? _]).
  assert (Hs : Forall no_sep (t :: ts))
    by (eapply Forall_impl; [|exact H]; now intros ? [_ ?]).
  rewrite (strip_trimmed _ (trimmed_join t ts Ht)).
  unfold location_tokens, Re.split, Re.finditer.
  rewrite (split_join_pieces ts t None [] Hs). cbn [rev app].
  assert (Hkeep : forall p, trimmed p ->
            negb (location_cleaner.is_empty p)
            && negb (location_cleaner.is_empty (strip p)) = true).
  { intros p Hp. rewrite (strip_trimmed p Hp).
    destruct p; [destruct Hp as [[] _] | reflexivity]. }
  inversion Ht as [|? ? Ht1 Hts]; subst.
  cbn [filter]. rewrite (Hkeep t Ht1). cbn [map].
  rewrite (strip_trimmed t Ht1). f_equal.
  clear - Hts Hkeep. induction Hts as [|p ts Hp Hts IH]; [reflexivity|].
  cbn [map filter]. cbn [location_cleaner.is_empty negb andb].
  rewrite strip_after_space, (strip_trimmed p Hp).
  destruct p as [|c p']; [destruct Hp as [[] _]|].
  cbn [location_cleaner.is_empty negb map].
  rewrite strip_after_space, (strip_trimmed _ Hp). now f_equal.
Qed.

Lemma remaining_tokens_clean (c : str) :
  Forall (fun t => trimmed t /\ no_sep t) (remaining_tokens c).
Proof.
  unfold remaining_tokens. pose proof (location_tokens_clean (strip c)) as H.
  destruct (mentions_remote (location_tokens (strip c))); [|exact H].
  unfold drop_remote. rewrite Forall_forall in *. intros t Ht.
  apply filter_In in Ht as [Ht _]. auto.
Qed.

(** What the remote step does remove: when the returned record has the
    remote flag, no remaining token is the word "remote" (in any letter
    case); the city is joined from a prefix of these tokens and splits back
    into exactly them, so no token of the city text is "remote"; and the
    state is a known two-letter abbreviation. *)
Lemma exact_remote_tokens_dropped (cell : option str) (r : LocationRecord) :
  parse_location cell = Ok r ->
  is_remote r = true ->
  exists c city_toks used,
    cell = Some c
    /\ remaining_tokens c = city_toks ++ used
    /\ Forall (fun t => lower t <> lit "remote") (remaining_tokens c)
    /\ city r = city_of city_toks
    /\ (forall text, city r = Some text ->
          location_tokens text = city_toks
          /\ Forall (fun t => lower t <> lit "remote") (location_tokens text))
    /\ (forall a, state r = Some a -> In a _state_abbrev_set).
Proof.
  intros Hp Hr. destruct cell as [c|].
  2:{ simpl in Hp. injection Hp as <-. discriminate. }
  rewrite parse_location_some in Hp.
  destruct (location_tokens (strip c)) as [|p ps] eqn:Eparts.
  { injection Hp as <-. discriminate. }
  destruct (parse_tokens_shape _ _ _ _ Hp) as [ct [used [Hsplit [Hcity [Hst Hrem]]]]].
  assert (Hnr : Forall (fun t => lower t <> lit "remote") (remaining_tokens c)).
  { unfold remaining_tokens. rewrite Eparts.
    rewrite Hr in Hrem. rewrite <- Hrem. apply drop_remote_forall. }
  exists c, ct, used.
  split; [reflexivity|]. split; [exact Hsplit|]. split; [exact Hnr|].
  split; [exact Hcity|]. split; [|exact Hst].
  intros text Htext. rewrite Hcity in Htext.
  pose proof (remaining_tokens_clean c) as Hclean.
  rewrite Hsplit in Hclean, Hnr.
  apply Forall_app in Hclean as [Hclean _]. apply Forall_app in Hnr as [Hnr' _].
  destruct ct as [|t ts]; [discriminate|].
  assert (E : text = strip (join (lit ", ") (t :: ts)))
    by (unfold city_of in Htext; congruence).
  rewrite E, (location_tokens_join t ts Hclean).
  split; [reflexivity | exact Hnr'].
Qed.

(** C5: a record with the remote flag is to hold no token that raised the
    flag.  The code misses it on the cell "Remote work, NY, US": the token
    "Remote work" matches the starts-with rule and raises the flag, the
    filter that follows removes only the tokens equal to "remote", and the
    token stays as the city, against the comment of the step (mark and
    remove that token). *)
Theorem remote_like_token_kept :
  parse_location (Some (lit "Remote work, NY, US"))
  = Ok {| city := Some (lit "Remote work"); state := Some (lit "NY");
          country := Some (lit "US"); is_remote := true;
          raw := Some (lit "Remote work, NY, US") |}
  /\ remote_like (lower (lit "Remote work")) = true.
Proof. by_evaluation. Qed.

(** *** Floats: rounding *)

Local Open Scope Z_scope.

Lemma ONE_pos : 0 < ONE.
Proof. unfold ONE. apply Z.pow_pos_nonneg; lia. Qed.

Lemma ONE_LIMIT : LIMIT = 2 ^ 1024 * ONE.
Proof. unfold LIMIT, ONE. rewrite <- Z.pow_add_r by lia. reflexivity. Qed.

Lemma ulp_shift_nonneg (q : Z) : 0 <= ulp_shift q.
Proof. unfold ulp_shift. lia. Qed.

Lemma round_pos_not_nan (n d : Z) : isna (round_pos n d) = false.
Proof. unfold round_pos. now destruct (_ <? LIMIT). Qed.

Lemma round_not_nan (n d : Z) : isna (round n d) = false.
Proof.
  unfold round. destruct (n <? 0).
  - pose proof (round_pos_not_nan (- n) d) as H.
    now destruct (round_pos (- n) d).
  - apply round_pos_not_nan.
Qed.

(** [rne] is exact on multiples. *)
Lemma rne_exact (j d : Z) : 0 < d -> rne (j * d) d = j.
Proof.
  intros Hd. unfold rne. rewrite Z.div_mul, Z.mod_mul by lia.
  assert ((2 * 0 <? d) = true) as -> by (apply Z.ltb_lt; lia). reflexivity.
Qed.

(** A number that fits the 53 bits of its binade is its own rounding. *)
Lemma round_pos_exact (k : Z) :
  0 <= k -> k mod 2 ^ ulp_shift k = 0 -> k < LIMIT -> round_pos k 1 = FFin k.
Proof.
  intros Hk Hmod Hlim. unfold round_pos. rewrite Z.div_1_r, Z.mul_1_l.
  pose proof (ulp_shift_nonneg k) as Hsh.
  set (sh := ulp_shift k) in *.
  assert (Hp : 0 < 2 ^ sh) by (apply Z.pow_pos_nonneg; lia).
  apply Z.mod_divide in Hmod; [|lia]. destruct Hmod as [j Hj].
  assert (E : rne k (2 ^ sh) * 2 ^ sh = k)
    by (rewrite Hj at 1; rewrite rne_exact by exact Hp; now rewrite <- Hj).
  rewrite E. apply Z.ltb_lt in Hlim. now rewrite Hlim.
Qed.

(** Integers below [2^53] are floats. *)
Lemma of_Z_small (z : Z) : 0 <= z < 2 ^ 53 -> of_Z z = FFin (z * ONE).
Proof.
  intros [Hz Hlt]. unfold of_Z, round.
  pose proof ONE_pos as H1.
  assert ((z * ONE <? 0) = false) as -> by (apply Z.ltb_ge; nia).
  destruct (Z.eq_dec z 0) as [->|Hnz]; [vm_compute; reflexivity|].
  apply round_pos_exact; [nia| |].
  - unfold ulp_shift, ONE. rewrite Z.log2_mul_pow2 by lia.
    assert (Hl : Z.log2 z < 53) by (apply Z.log2_lt_pow2; lia).
    pose proof (Z.log2_nonneg z) as Hl0.
    replace (Z.max 0 (1074 + Z.log2 z - 52)) with (1022 + Z.log2 z) by lia.
    apply Z.mod_divide; [apply Z.pow_nonzero; lia|].
    exists (z * 2 ^ (52 - Z.log2 z)).
    rewrite <- Z.mul_assoc, <- Z.pow_add_r by lia.
    do 2 f_equal. lia.
  - rewrite ONE_LIMIT. apply Z.mul_lt_mono_pos_r; [exact H1|].
    apply Z.lt_trans with (2 ^ 53); [exact Hlt|].
    apply Z.pow_lt_mono_r; lia.
Qed.

Lemma of_Z_2 : of_Z 2 = FFin (2 * ONE).
Proof. apply of_Z_small. split; [lia | reflexivity]. Qed.

(** Halving never yields NaN from a number. *)
Lemma half_not_nan (x : float) : isna x = false -> isna (fdiv x (of_Z 2)) = false.
Proof.
  rewrite of_Z_2. pose proof ONE_pos as H1. destruct x as [|s|k]; intros H.
  - discriminate.
  - reflexivity.
  - unfold fdiv.
    assert ((2 * ONE =? 0) = false) as -> by (apply Z.eqb_neq; lia).
    assert ((0 <? 2 * ONE) = true) as -> by (apply Z.ltb_lt; lia).
    apply round_not_nan.
Qed.


(** *** Salary: the back-fill *)








Lemma fold_fadd_not_nan (v : list float) (acc : float) :
  isna acc = false ->
  Forall (fun x => is_finite x = true) v ->
  isna (fold_left fadd v acc) = false.
Proof.
  intros Hacc Hv. revert acc Hacc.
  induction Hv as [|y v Hy Hv IH]; intros acc Hacc; simpl; [exact Hacc|].
  apply IH. destruct acc, y; try discriminate; try reflexivity.
  apply round_not_nan.
Qed.

Lemma zero_filled_finite (col : list float) :
  finite_known col -> Forall (fun x => is_finite x = true) (zero_filled col).
Proof.
  unfold finite_known, known, zero_filled. intros H. apply Forall_map.
  rewrite Forall_forall in *. intros x Hx. destruct (isna x) eqn:E; [reflexivity|].
  apply H, filter_In. split; [exact Hx|]. unfold notna. now rewrite E.
Qed.

(** Added in sequence, finite values give a number. *)
Lemma sequential_summable (col : list float) :
  finite_known col -> summable sum_sequential col.
Proof.
  intros H. unfold summable, sum_sequential.
  apply fold_fadd_not_nan; [reflexivity | now apply zero_filled_finite].
Qed.


















Section BackFill.

Variable total : list float -> float.


End BackFill.



(** Whether a mean is a number can depend on the order of its sum.  The
    known minimum values of the sixteen-row frame are finite.  Summed in
    sequence their mean is a number and fills the last row; summed
    pairwise, the two large amounts meet in one running sum and the two
    large debts in another, the sum is NaN and the last row stays
    undefined. *)
Lemma mean_gap_depends_on_order :
  forallb is_finite (known (tmp_min opposed_frame)) = true
  /\ isna (series_mean sum_sequential (tmp_min opposed_frame)) = false
  /\ isna (series_mean sum_pairwise (tmp_min opposed_frame)) = true
  /\ existsb isna
       (written_min (clean_salary_columns_int sum_sequential opposed_frame true
                       (Some (lit "mean")) false (lit "round"))) = false
  /\ map isna
       (written_min (clean_salary_columns_int sum_pairwise opposed_frame true
                       (Some (lit "mean")) false (lit "round")))
     = repeat false 15 ++ [true].
Proof. by_evaluation. Qed.

(** On a frame whose index is not the default one the assignment of a
    parsed list goes by label: the filtered sample frame has the labels 1
    and 2, its first row receives the value parsed for its second row and
    its second row receives none. *)
Lemma tmp_column_follows_labels :
  parsed_min filtered_frame = [of_Z 40000; FNaN]
  /\ tmp_min filtered_frame = [FNaN; FNaN].
Proof. by_evaluation. Qed.

(** *** Floats: rounding is monotone *)

(** [rne n d] is within one half of [n / d], and an exact half goes to the
    even neighbour. *)
Lemma rne_spec (n d : Z) :
  0 < d ->
  (2 * rne n d - 1) * d <= 2 * n <= (2 * rne n d + 1) * d
  /\ (2 * n = (2 * rne n d + 1) * d -> Z.even (rne n d) = true)
  /\ (2 * n = (2 * rne n d - 1) * d -> Z.even (rne n d) = true).
Proof.
  intros Hd. unfold rne.
  pose proof (Z.div_mod n d ltac:(lia)) as Hn.
  pose proof (Z.mod_pos_bound n d Hd) as Hr.
  set (q := n / d) in *. set (r := n mod d) in *.
  destruct (Z.ltb_spec (2 * r) d) as [H1|H1].
  - split; [nia|]. split; intros E; exfalso; nia.
  - destruct (Z.ltb_spec d (2 * r)) as [H2|H2].
    + split; [nia|]. split; intros E; exfalso; nia.
    + assert (Hrd : 2 * r = d) by lia.
      destruct (Z.even q) eqn:Eq.
      * split; [nia|]. split; intros E; [exact Eq | exfalso; nia].
      * split; [nia|]. split; intros E; [exfalso; nia|].
        rewrite Z.even_add, Eq. reflexivity.
Qed.

Lemma rne_mono (n1 d1 n2 d2 : Z) :
  0 < d1 -> 0 < d2 -> n1 * d2 <= n2 * d1 -> rne n1 d1 <= rne n2 d2.
Proof.
  intros H1 H2 Hle.
  destruct (rne_spec n1 d1 H1) as [[L1 _] [_ T1]].
  destruct (rne_spec n2 d2 H2) as [[_ U2] [T2 _]].
  set (m1 := rne n1 d1) in *. set (m2 := rne n2 d2) in *.
  destruct (Z_le_gt_dec m1 m2) as [|Hgt]; [assumption|exfalso].
  assert (Hd : 0 < d1 * d2) by nia.
  assert (C1 : (2 * m1 - 1) * (d1 * d2) <= 2 * (n1 * d2)) by nia.
  assert (C2 : 2 * (n2 * d1) <= (2 * m2 + 1) * (d1 * d2)) by nia.
  assert (C3 : (2 * m1 - 1) * (d1 * d2) <= (2 * m2 + 1) * (d1 * d2)) by lia.
  assert (Hm : m1 = m2 + 1) by nia.
  assert (E1 : (2 * m1 - 1) * (d1 * d2) = 2 * (n1 * d2)) by (subst m1; nia).
  assert (E2 : 2 * (n2 * d1) = (2 * m2 + 1) * (d1 * d2)) by (subst m1; nia).
  assert (F1 : 2 * n1 = (2 * m1 - 1) * d1) by nia.
  assert (F2 : 2 * n2 = (2 * m2 + 1) * d2) by nia.
  specialize (T1 F1). specialize (T2 F2).
  rewrite Hm, Z.even_add, T2 in T1. discriminate.
Qed.

Lemma rne_upper (n d c : Z) : 0 < d -> n <= c * d -> rne n d <= c.
Proof.
  intros Hd H. rewrite <- (rne_exact c d Hd). apply rne_mono; auto; nia.
Qed.

Lemma rne_lower (n d c : Z) : 0 < d -> c * d <= n -> c <= rne n d.
Proof.
  intros Hd H. rewrite <- (rne_exact c d Hd). apply rne_mono; auto; nia.
Qed.

Lemma div_frac_mono (n1 d1 n2 d2 : Z) :
  0 < d1 -> 0 < d2 -> n1 * d2 <= n2 * d1 -> n1 / d1 <= n2 / d2.
Proof.
  intros H1 H2 Hle. apply Z.div_le_lower_bound; [lia|].
  pose proof (Z.mul_div_le n1 d1 H1) as Hq.
  assert (d1 * (d2 * (n1 / d1)) <= d1 * n2) by nia.
  nia.
Qed.

Lemma ulp_shift_mono (p q : Z) : p <= q -> ulp_shift p <= ulp_shift q.
Proof.
  intros H. unfold ulp_shift. pose proof (Z.log2_le_mono p q H). lia.
Qed.

(** The significand of a rounding has at most 53 bits, or is [2^53]. *)
Lemma significand_upper (n d : Z) :
  0 <= n -> 0 < d ->
  rne n (d * 2 ^ ulp_shift (n / d)) <= 2 ^ 53.
Proof.
  intros Hn Hd. pose proof (ulp_shift_nonneg (n / d)) as Hsh.
  set (q := n / d) in *. set (sh := ulp_shift q) in *.
  assert (Hp : 0 < 2 ^ sh) by (apply Z.pow_pos_nonneg; lia).
  apply rne_upper; [nia|].
  assert (Hq0 : 0 <= q) by (apply Z.div_pos; lia).
  assert (Hq : q + 1 <= 2 ^ (sh + 53)).
  { destruct (Z.eq_dec q 0) as [->|Hnz].
    - pose proof (Z.pow_pos_nonneg 2 (sh + 53) ltac:(lia) ltac:(lia)). lia.
    - pose proof (Z.log2_spec q ltac:(lia)) as [_ Hu].
      assert (2 ^ Z.succ (Z.log2 q) <= 2 ^ (sh + 53))
        by (apply Z.pow_le_mono_r; unfold sh, ulp_shift; lia).
      lia. }
  pose proof (Z.div_mod n d ltac:(lia)) as Hdm.
  pose proof (Z.mod_pos_bound n d Hd) as Hr. fold q in Hdm.
  rewrite Z.pow_add_r in Hq by lia. nia.
Qed.

(** When the last place is above the unit, the significand has 53 bits. *)
Lemma significand_lower (n d : Z) :
  0 <= n -> 0 < d -> 0 < ulp_shift (n / d) ->
  2 ^ 52 <= rne n (d * 2 ^ ulp_shift (n / d)).
Proof.
  intros Hn Hd Hsh. set (q := n / d) in *. set (sh := ulp_shift q) in *.
  assert (Hp : 0 < 2 ^ sh) by (apply Z.pow_pos_nonneg; lia).
  apply rne_lower; [nia|].
  assert (Hq0 : 0 < q).
  { destruct (Z_lt_le_dec 0 q); [assumption|].
    unfold sh, ulp_shift in Hsh. rewrite (Z.log2_nonpos q) in Hsh; lia. }
  pose proof (Z.log2_spec q Hq0) as [Hl _].
  assert (Hlog : Z.log2 q = sh + 52) by (unfold sh, ulp_shift in *; lia).
  rewrite Hlog, Z.pow_add_r in Hl by lia.
  pose proof (Z.mul_div_le n d Hd) as Hdm. fold q in Hdm. nia.
Qed.

Lemma round_pos_mono (n1 d1 n2 d2 : Z) :
  0 <= n1 -> 0 < d1 -> 0 < d2 -> n1 * d2 <= n2 * d1 ->
  fle (round_pos n1 d1) (round_pos n2 d2) = true.
Proof.
  intros Hn1 H1 H2 Hle.
  assert (Hn2 : 0 <= n2) by nia.
  pose proof (div_frac_mono _ _ _ _ H1 H2 Hle) as Hq.
  pose proof (ulp_shift_mono _ _ Hq) as Hsh.
  pose proof (ulp_shift_nonneg (n1 / d1)) as Hs1.
  pose proof (significand_upper n1 d1 Hn1 H1) as Hu1.
  assert (Hk : rne n1 (d1 * 2 ^ ulp_shift (n1 / d1)) * 2 ^ ulp_shift (n1 / d1)
               <= rne n2 (d2 * 2 ^ ulp_shift (n2 / d2)) * 2 ^ ulp_shift (n2 / d2)).
  { set (s1 := ulp_shift (n1 / d1)) in *. set (s2 := ulp_shift (n2 / d2)) in *.
    assert (P1 : 0 < 2 ^ s1) by (apply Z.pow_pos_nonneg; lia).
    assert (P2 : 0 < 2 ^ s2) by (apply Z.pow_pos_nonneg; lia).
    destruct (Z.eq_dec s1 s2) as [E|NE].
    - rewrite <- E. apply Z.mul_le_mono_nonneg_r; [lia|].
      apply rne_mono; nia.
    - assert (Hlt : s1 + 1 <= s2) by lia.
      pose proof (significand_lower n2 d2 Hn2 H2 ltac:(fold s2; lia)) as Hl2.
      fold s2 in Hl2.
      assert (Hpow : 2 ^ 53 * 2 ^ s1 <= 2 ^ 52 * 2 ^ s2).
      { rewrite <- !Z.pow_add_r by lia. apply Z.pow_le_mono_r; lia. }
      nia. }
  unfold round_pos.
  destruct (Z.ltb_spec (rne n2 (d2 * 2 ^ ulp_shift (n2 / d2)) * 2 ^ ulp_shift (n2 / d2)) LIMIT) as [L2|L2].
  - assert ((rne n1 (d1 * 2 ^ ulp_shift (n1 / d1)) * 2 ^ ulp_shift (n1 / d1) <? LIMIT) = true) as ->
      by (apply Z.ltb_lt; lia).
    simpl. now apply Z.leb_le.
  - now destruct (_ <? LIMIT).
Qed.

Lemma fle_fneg (a b : float) : fle a b = true -> fle (fneg b) (fneg a) = true.
Proof.
  destruct a as [|[]|x], b as [|[]|y]; simpl; try discriminate; try reflexivity.
  intros H. apply Z.leb_le in H. apply Z.leb_le. lia.
Qed.

Lemma fle_trans (a b c : float) :
  fle a b = true -> fle b c = true -> fle a c = true.
Proof.
  destruct a as [|[]|x], b as [|[]|y], c as [|[]|z]; simpl;
    try discriminate; try reflexivity.
  intros H1 H2. apply Z.leb_le in H1, H2. apply Z.leb_le. lia.
Qed.

(** A rounding of a number that is not negative is not negative. *)
Lemma round_pos_nonneg (n d : Z) :
  0 <= n -> 0 < d -> fle (FFin 0) (round_pos n d) = true.
Proof.
  intros Hn Hd. unfold round_pos.
  pose proof (ulp_shift_nonneg (n / d)) as Hsh.
  assert (Hp : 0 < 2 ^ ulp_shift (n / d)) by (apply Z.pow_pos_nonneg; lia).
  pose proof (rne_lower n (d * 2 ^ ulp_shift (n / d)) 0 ltac:(nia) ltac:(lia)) as Hm.
  destruct (_ <? LIMIT); [|reflexivity]. simpl. apply Z.leb_le. nia.
Qed.

(** Rounding is monotone. *)
Lemma round_mono (n1 d1 n2 d2 : Z) :
  0 < d1 -> 0 < d2 -> n1 * d2 <= n2 * d1 ->
  fle (round n1 d1) (round n2 d2) = true.
Proof.
  intros H1 H2 Hle. unfold round.
  destruct (Z.ltb_spec n1 0) as [N1|N1], (Z.ltb_spec n2 0) as [N2|N2].
  - apply fle_fneg, round_pos_mono; lia.
  - apply fle_trans with (FFin 0).
    + change (FFin 0) with (fneg (FFin 0)).
      apply fle_fneg, round_pos_nonneg; lia.
    + apply round_pos_nonneg; lia.
  - exfalso. nia.
  - apply round_pos_mono; lia.
Qed.

Lemma pow2_divides (j e e' : Z) : 0 <= e' <= e -> (j * 2 ^ e) mod 2 ^ e' = 0.
Proof.
  intros H. apply Z.mod_divide; [apply Z.pow_nonzero; lia|].
  exists (j * 2 ^ (e - e')). rewrite <- Z.mul_assoc, <- Z.pow_add_r by lia.
  do 2 f_equal. lia.
Qed.

Lemma significand_fits (m sh : Z) :
  0 <= m <= 2 ^ 53 -> 0 <= sh ->
  (m * 2 ^ sh) mod 2 ^ ulp_shift (m * 2 ^ sh) = 0.
Proof.
  intros [Hm0 Hm] Hsh.
  destruct (Z.eq_dec m 0) as [->|Hnz]; [reflexivity|].
  unfold ulp_shift. rewrite Z.log2_mul_pow2 by lia.
  pose proof (Z.log2_spec m ltac:(lia)) as [Hl Hu].
  pose proof (Z.log2_nonneg m) as Hl0.
  assert (Hl53 : Z.log2 m <= 53).
  { destruct (Z_le_gt_dec (Z.log2 m) 53); [assumption|exfalso].
    assert (2 ^ 54 <= 2 ^ Z.log2 m) by (apply Z.pow_le_mono_r; lia).
    assert (2 ^ 53 < 2 ^ 54) by (apply Z.pow_lt_mono_r; lia). lia. }
  destruct (Z.eq_dec (Z.log2 m) 53) as [E|NE].
  - assert (m = 2 ^ 53) by (rewrite E in Hl; lia). subst m.
    rewrite E, <- Z.pow_add_r by lia.
    replace (2 ^ (53 + sh)) with (1 * 2 ^ (53 + sh)) by lia.
    apply pow2_divides. lia.
  - apply pow2_divides. lia.
Qed.

Lemma round_pos_fits (n d k : Z) :
  0 <= n -> 0 < d -> round_pos n d = FFin k -> 0 <= k /\ fits53 k.
Proof.
  intros Hn Hd. unfold round_pos.
  pose proof (ulp_shift_nonneg (n / d)) as Hsh.
  pose proof (significand_upper n d Hn Hd) as Hu.
  set (sh := ulp_shift (n / d)) in *.
  assert (Hp : 0 < 2 ^ sh) by (apply Z.pow_pos_nonneg; lia).
  pose proof (rne_lower n (d * 2 ^ sh) 0 ltac:(nia) ltac:(lia)) as Hl.
  destruct (Z.ltb_spec (rne n (d * 2 ^ sh) * 2 ^ sh) LIMIT) as [L|L];
    [|discriminate].
  intros [= <-]. split; [nia|]. unfold fits53. rewrite Z.abs_eq by nia.
  split; [apply significand_fits; lia | exact L].
Qed.

(** Every finite rounding is a binary64 value. *)
Lemma round_fits (n d k : Z) : 0 < d -> round n d = FFin k -> fits53 k.
Proof.
  intros Hd. unfold round. destruct (Z.ltb_spec n 0) as [N|N].
  - destruct (round_pos (- n) d) as [| |k'] eqn:E; try discriminate.
    simpl. intros [= <-]. apply round_pos_fits in E as [Hk [F1 F2]]; [|lia|lia].
    unfold fits53. now rewrite Z.abs_opp.
  - intros E. now apply round_pos_fits in E as [_ F]; [|lia|lia].
Qed.

(** A binary64 value is its own rounding. *)
Lemma fits_round (k : Z) : fits53 k -> round k 1 = FFin k.
Proof.
  intros [F1 F2]. unfold round. destruct (Z.ltb_spec k 0) as [N|N].
  - rewrite Z.abs_neq in F1, F2 by lia.
    rewrite round_pos_exact by (auto; lia). simpl. f_equal. lia.
  - rewrite Z.abs_eq in F1, F2 by lia. apply round_pos_exact; auto.
Qed.

(** Doubling a binary64 value gives one, short of overflow. *)
Lemma fits_double (k : Z) : fits53 k -> Z.abs (2 * k) < LIMIT -> fits53 (2 * k).
Proof.
  intros [F1 _] Hlim. split; [|exact Hlim].
  rewrite Z.abs_mul. change (Z.abs 2) with 2. set (a := Z.abs k) in *.
  destruct (Z.eq_dec a 0) as [->|Hnz]; [reflexivity|].
  assert (Ha : 0 < a) by (subst a; lia).
  pose proof (ulp_shift_nonneg a) as Hs.
  apply Z.mod_divide in F1; [|apply Z.pow_nonzero; lia].
  destruct F1 as [j Hj].
  assert (Hsh : ulp_shift (2 * a) <= ulp_shift a + 1)
    by (unfold ulp_shift; rewrite Z.log2_double by lia; lia).
  pose proof (ulp_shift_nonneg (2 * a)) as Hs2.
  replace (2 * a) with (j * 2 ^ (ulp_shift a + 1)) at 1
    by (rewrite Z.pow_add_r by lia; lia).
  apply pow2_divides. lia.
Qed.

Lemma round_bound (n d k : Z) : 0 < d -> round n d = FFin k -> - LIMIT < k < LIMIT.
Proof.
  intros Hd E. apply round_fits in E as [_ F]; [lia | exact Hd].
Qed.

Lemma round_limit : round LIMIT 1 = FInf false /\ round (- LIMIT) 1 = FInf true.
Proof. by_evaluation. Qed.

Lemma sum_lower (a c s : Z) :
  fits53 a -> 2 * a <= c -> round c 1 = FFin s -> 2 * a <= s.
Proof.
  intros Fa Hc Hs.
  destruct (Z_lt_le_dec (Z.abs (2 * a)) LIMIT) as [L|L].
  - pose proof (fits_round _ (fits_double a Fa L)) as E.
    pose proof (round_mono (2 * a) 1 c 1 ltac:(lia) ltac:(lia) ltac:(lia)) as M.
    rewrite E, Hs in M. simpl in M. now apply Z.leb_le in M.
  - destruct (Z_lt_le_dec a 0) as [N|N].
    + pose proof (round_bound c 1 s ltac:(lia) Hs). lia.
    + pose proof (round_mono LIMIT 1 c 1 ltac:(lia) ltac:(lia) ltac:(lia)) as M.
      rewrite (proj1 round_limit), Hs in M. discriminate.
Qed.

Lemma sum_upper (b c s : Z) :
  fits53 b -> c <= 2 * b -> round c 1 = FFin s -> s <= 2 * b.
Proof.
  intros Fb Hc Hs.
  destruct (Z_lt_le_dec (Z.abs (2 * b)) LIMIT) as [L|L].
  - pose proof (fits_round _ (fits_double b Fb L)) as E.
    pose proof (round_mono c 1 (2 * b) 1 ltac:(lia) ltac:(lia) ltac:(lia)) as M.
    rewrite E, Hs in M. simpl in M. now apply Z.leb_le in M.
  - destruct (Z_lt_le_dec b 0) as [N|N].
    + pose proof (round_mono c 1 (- LIMIT) 1 ltac:(lia) ltac:(lia) ltac:(lia)) as M.
      rewrite (proj2 round_limit), Hs in M. discriminate.
    + pose proof (round_bound c 1 s ltac:(lia) Hs). lia.
Qed.

(** The float mean of two binary64 values lies between them, when their
    sum does not overflow. *)
Lemma mean_between (a b s : Z) :
  fits53 a -> fits53 b -> a <= b ->
  fadd (FFin a) (FFin b) = FFin s ->
  exists m, fdiv (FFin s) (of_Z 2) = FFin m /\ a <= m <= b.
Proof.
  intros Fa Fb Hab Hs. simpl in Hs.
  pose proof (sum_lower a (a + b) s Fa ltac:(lia) Hs) as Hl.
  pose proof (sum_upper b (a + b) s Fb ltac:(lia) Hs) as Hu.
  pose proof ONE_pos as H1.
  rewrite of_Z_2. unfold fdiv.
  assert ((2 * ONE =? 0) = false) as -> by (apply Z.eqb_neq; lia).
  assert ((0 <? 2 * ONE) = true) as -> by (apply Z.ltb_lt; lia).
  pose proof (round_mono a 1 (s * ONE) (2 * ONE) ltac:(lia) ltac:(lia) ltac:(nia)) as Ma.
  pose proof (round_mono (s * ONE) (2 * ONE) b 1 ltac:(lia) ltac:(lia) ltac:(nia)) as Mb.
  rewrite (fits_round a Fa) in Ma. rewrite (fits_round b Fb) in Mb.
  destruct (round (s * ONE) (2 * ONE)) as [|[]|m]; try discriminate.
  exists m. simpl in Ma, Mb. apply Z.leb_le in Ma, Mb. auto.
Qed.

(** *** Salary: the parsed numbers are binary64 values *)

Lemma round_binary64 (n d : Z) : 0 < d -> binary64 (round n d).
Proof.
  intros Hd. destruct (round n d) as [| |k] eqn:E; simpl; auto.
  now apply (round_fits n d).
Qed.

Lemma fneg_binary64 (x : float) : binary64 x -> binary64 (fneg x).
Proof.
  destruct x as [| |k]; simpl; auto. unfold fits53. now rewrite Z.abs_opp.
Qed.

Lemma fmul_binary64 (a b : float) : binary64 (fmul a b).
Proof.
  destruct a as [|s|x], b as [|t|y]; simpl; auto.
  - now destruct (y =? 0).
  - now destruct (x =? 0).
  - apply round_binary64, ONE_pos.
Qed.

Lemma float_of_str_binary64 (s : str) (v : float) :
  float_of_str s = Some v -> binary64 v.
Proof.
  unfold float_of_str.
  repeat match goal with
  | |- context [match ?x with _ => _ end] => destruct x eqn:?
  end; intros [= <-];
  first [apply fneg_binary64, round_binary64 | apply round_binary64];
  try lia; apply Z.pow_pos_nonneg; lia.
Qed.

Lemma parse_single_number_binary64 (s : str) : binary64 (_parse_single_number s).
Proof.
  unfold _parse_single_number. cbv zeta.
  repeat match goal with
  | |- context [match ?x with _ => _ end] => destruct x eqn:?
  end;
  try exact I; try apply fmul_binary64;
  try (eapply float_of_str_binary64; eassumption).
Qed.

(** *** Salary: the shape of the result *)

Lemma flt_fle (a b : float) : flt a b = true -> fle a b = true.
Proof.
  destruct a as [|[]|x], b as [|[]|y]; simpl; try discriminate; try reflexivity.
  intros H. apply Z.ltb_lt in H. apply Z.leb_le. lia.
Qed.

Lemma not_flt_fle (a b : float) :
  isna a = false -> isna b = false -> flt a b = false -> fle b a = true.
Proof.
  destruct a as [|[]|x], b as [|[]|y]; simpl; try discriminate; try reflexivity.
  intros _ _ H. apply Z.ltb_ge in H. apply Z.leb_le. lia.
Qed.

Lemma fle_refl (a : float) : isna a = false -> fle a a = true.
Proof. destruct a as [|[]|x]; simpl; try discriminate; auto. intros _. apply Z.leb_refl. Qed.

Lemma py_min_spec (l : list float) (x : float) :
  isna x = false -> Forall (fun y => isna y = false) l ->
  In (py_min x l) (x :: l) /\ fle (py_min x l) x = true.
Proof.
  unfold py_min. intros Hx Hl. revert x Hx.
  induction Hl as [|y l Hy Hl IH]; intros x Hx; simpl.
  - split; [now left | now apply fle_refl].
  - destruct (flt y x) eqn:E.
    + destruct (IH y Hy) as [Hin Hle]. split.
      * right. exact Hin.
      * apply fle_trans with y; [exact Hle | now apply flt_fle].
    + destruct (IH x Hx) as [Hin Hle]. split; [|exact Hle].
      destruct Hin as [<-|Hin]; [now left | now right; right].
Qed.

Lemma py_max_spec (l : list float) (x : float) :
  isna x = false -> Forall (fun y => isna y = false) l ->
  In (py_max x l) (x :: l) /\ fle x (py_max x l) = true.
Proof.
  unfold py_max. intros Hx Hl. revert x Hx.
  induction Hl as [|y l Hy Hl IH]; intros x Hx; simpl.
  - split; [now left | now apply fle_refl].
  - destruct (flt x y) eqn:E.
    + destruct (IH y Hy) as [Hin Hle]. split.
      * right. exact Hin.
      * apply fle_trans with y; [now apply flt_fle | exact Hle].
    + destruct (IH x Hx) as [Hin Hle]. split; [|exact Hle].
      destruct Hin as [<-|Hin]; [now left | now right; right].
Qed.

Lemma parsed_numbers_kept (texts : list str) :
  Forall kept_number (parsed_numbers texts).
Proof.
  unfold parsed_numbers. apply Forall_forall. intros x Hx.
  apply filter_In in Hx as [Hin Hn]. split.
  - unfold notna in Hn. now apply negb_true_iff in Hn.
  - apply in_map_iff in Hin as [t [<- _]]. apply parse_single_number_binary64.
Qed.

Lemma single_consistent (x : float) : isna x = false -> consistent (x, x, x).
Proof.
  intros Hx. right. split; [exact Hx|]. split; [exact Hx|].
  split; [now apply fle_refl|]. split; [now left|]. intros Hfin.
  destruct x as [|[]|k]; try discriminate.
  simpl. repeat split; try reflexivity; apply Z.leb_refl.
Qed.

Lemma span_of_consistent (x : float) (rest : list float) :
  Forall kept_number (x :: rest) -> consistent (span_of x rest).
Proof.
  intros Hall. unfold span_of, consistent.
  assert (Hx : isna x = false) by (inversion Hall as [|? ? [H _] _]; exact H).
  assert (Hrest : Forall (fun y => isna y = false) rest).
  { inversion Hall; subst. eapply Forall_impl; [|eassumption]. now intros y [H _]. }
  destruct (py_min_spec rest x Hx Hrest) as [Imin Lmin].
  destruct (py_max_spec rest x Hx Hrest) as [Imax Lmax].
  rewrite Forall_forall in Hall.
  destruct (Hall _ Imin) as [Nmin Bmin]. destruct (Hall _ Imax) as [Nmax Bmax].
  set (mn := py_min x rest) in *. set (mx := py_max x rest) in *.
  assert (Hle : fle mn mx = true) by (now apply fle_trans with x).
  right. split; [exact Nmin|]. split; [exact Nmax|]. split; [exact Hle|].
  split; [now right|]. intros Hfin.
  destruct mn as [|s|a], mx as [|t|b]; try discriminate;
    try (simpl in Hfin; try destruct (Bool.eqb s t); discriminate).
  simpl in Hle. apply Z.leb_le in Hle.
  destruct (fadd (FFin a) (FFin b)) as [| |s] eqn:Es; try discriminate.
  destruct (mean_between a b s Bmin Bmax Hle Es) as [m [-> [H1 H2]]].
  simpl. repeat split; try reflexivity; apply Z.leb_le; assumption.
Qed.

(** C10, as the code has it: for every cell the triple returned by
    [parse_salary_field] is either entirely NaN, or has a minimum and a
    maximum that are numbers with [min <= max] and a mean that is equal to
    both or is the float [(min + max) / 2.0]; and whenever the float sum
    [min + max] is finite (no overflow, no opposite infinities) the mean is
    finite with [min <= mean <= max]. *)
Theorem parse_salary_field_consistent (cell : option str) :
  consistent (parse_salary_field cell).
Proof.
  assert (Hnan : consistent all_nan) by (left; auto).
  unfold parse_salary_field. destruct cell as [c|]; [|exact Hnan].
  destruct (salary_parser_int.is_empty (_normalize_whitespace c)); [exact Hnan|].
  cbv zeta.
  set (s_clean := strip (Re.sub_del re_wrapping (_normalize_whitespace c))).
  assert (Hsingle : consistent
            (if isna (_parse_single_number s_clean) then all_nan
             else (_parse_single_number s_clean, _parse_single_number s_clean,
                   _parse_single_number s_clean))).
  { destruct (isna (_parse_single_number s_clean)) eqn:E; [exact Hnan|].
    exact (single_consistent _ E). }
  destruct (Re.search re_range s_clean).
  - match goal with |- context [parsed_numbers ?l] =>
      pose proof (parsed_numbers_kept l) as Hk;
      destruct (parsed_numbers l) as [|x [|y rest]]
    end.
    + exact Hnan.
    + inversion Hk as [|? ? [Hx _] _]. exact (single_consistent x Hx).
    + exact (span_of_consistent x (y :: rest) Hk).
  - destruct (2 <=? List.length (Re.findall re_number s_clean))%nat;
      [|exact Hsingle].
    match goal with |- context [parsed_numbers ?l] =>
      pose proof (parsed_numbers_kept l) as Hk;
      destruct (parsed_numbers l) as [|x [|y rest]]
    end.
    + exact Hsingle.
    + exact Hsingle.
    + exact (span_of_consistent x (y :: rest) Hk).
Qed.

(** C10 as stated fails in two ways.  A range of two equal large amounts
    has a mean of plus infinity, above its maximum; a range from minus to
    plus infinity has a NaN mean beside a defined minimum and maximum. *)
Lemma parse_salary_field_overflow :
  parse_salary_field (Some (large_amount ++ lit "-" ++ large_amount))
  = (round (10 ^ 308 * ONE) 1, round (10 ^ 308 * ONE) 1, FInf false)
  /\ all_or_nothing
       (parse_salary_field (Some (large_amount ++ lit "-" ++ large_amount)))
     = false
  /\ parse_salary_field (Some (huge_debt ++ lit " to " ++ huge_amount))
     = (FInf true, FInf false, FNaN)
  /\ all_or_nothing
       (parse_salary_field (Some (huge_debt ++ lit " to " ++ huge_amount)))
     = false.
Proof. by_evaluation. Qed.

(** *** Titles: the batch labels *)

Lemma classify_standard (x : option str) (coerce : bool) :
  standard_label coerce (classify x coerce).
Proof.
  unfold classify, classify_title, standard_label.
  destruct x as [t|]; [|now right; right; left].
  destruct (title_cleaner.is_empty (strip t)); [now right; right; left|].
  destruct (first_match _DATA_RE (strip t)); [now left|].
  destruct (first_match _SOFTWARE_RE (strip t)); [now right; left|].
  destruct coerce; [now right; left | now right; right; right].
Qed.

(** X2: unless [keep_top_n_other] is a count other than zero and
    [coerce_other_to_sw] is off, [clean_job_titles] ignores
    [keep_top_n_other] and writes [classify_title] of every title: the
    column only holds [Data Scientist], [Software Engineer] and [Unknown],
    and [Other] only when the coercion is off. *)
Theorem clean_job_titles_standard_labels (titles : list (option str))
    (coerce : bool) (keep : option Z) (top_index : list str) :
  keep_on keep && negb coerce = false ->
  clean_job_titles titles coerce keep top_index
  = map (fun x => classify x coerce) titles
  /\ Forall (standard_label coerce) (clean_job_titles titles coerce keep top_index).
Proof.
  intros Hoff.
  assert (E : clean_job_titles titles coerce keep top_index
              = map (fun x => classify x coerce) titles).
  { unfold clean_job_titles. apply map_ext. intros x.
    unfold _map_title. rewrite Hoff. reflexivity. }
  split; [exact E|]. rewrite E. apply Forall_forall. intros l Hl.
  apply in_map_iff in Hl as [x [<- _]]. apply classify_standard.
Qed.

Lemma clean_job_titles_standard_labels_witness :
  clean_job_titles [Some (lit " Senior Data Engineer"); Some (lit "Chef"); None]
                   true (Some 3) [lit "Chef"]
  = map (fun x => classify x true)
        [Some (lit " Senior Data Engineer"); Some (lit "Chef"); None]
  /\ Forall (standard_label true)
       (clean_job_titles [Some (lit " Senior Data Engineer"); Some (lit "Chef"); None]
                   true (Some 3) [lit "Chef"]).
Proof.
  apply (clean_job_titles_standard_labels
           [Some (lit " Senior Data Engineer"); Some (lit "Chef"); None]
           true (Some 3) [lit "Chef"]).
  reflexivity.
Defined.

(** *** Location: the shape of a record *)

Lemma upper_char_not_space (c : char) :
  is_space c = false -> is_space (upper_char c) = false.
Proof.
  intros H. unfold upper_char. destruct (is_lower c) eqn:E; [|exact H].
  apply alpha_not_space. unfold is_alpha.
  assert (is_upper (c - 32)%N = true) as ->; [|reflexivity].
  char_props. lia.
Qed.

Lemma upper_starts_ok (s : str) : starts_ok s -> starts_ok (upper s).
Proof.
  destruct s as [|c s]; simpl; [auto|]. apply upper_char_not_space.
Qed.

Lemma upper_trimmed (s : str) : trimmed s -> trimmed (upper s).
Proof.
  intros [H1 H2]. split; [now apply upper_starts_ok|].
  unfold upper. rewrite <- map_rev. now apply (upper_starts_ok (rev s)).
Qed.

Lemma nonempty_strip_trimmed (s : str) :
  location_cleaner.is_empty (strip s) = false -> trimmed (strip s).
Proof.
  intros H. apply strip_is_trimmed. intros E. now rewrite E in H.
Qed.

Lemma country_codes_trimmed : Forall trimmed (map snd COUNTRY_MAP).
Proof. repeat (constructor; [split; vm_compute; reflexivity|]). constructor. Qed.

Lemma normalize_country_trimmed (tok k : str) :
  _normalize_country tok = Some k -> trimmed k.
Proof.
  unfold _normalize_country.
  set (t := strip (Re.sub_del re_punctuation (lower (strip tok)))).
  destruct (location_cleaner.is_empty t) eqn:Et; [discriminate|].
  destruct (lookup t COUNTRY_MAP) as [code|] eqn:El.
  - intros [= <-]. apply lookup_in in El.
    pose proof country_codes_trimmed as H. rewrite Forall_forall in H. now apply H.
  - destruct ((List.length t =? 2)%nat && isalpha t).
    + intros [= <-]. apply upper_trimmed. now apply nonempty_strip_trimmed.
    + destruct (location_cleaner.is_empty (strip tok)) eqn:Es; [discriminate|].
      intros [= <-]. apply upper_trimmed. now apply nonempty_strip_trimmed.
Qed.

Lemma country_step_country (last : str) (parts : list str) (n : Z) :
  fst (fst (country_step last parts n)) = None
  \/ fst (fst (country_step last parts n)) = _normalize_country last.
Proof.
  unfold country_step.
  match goal with |- context [if ?b then _ else _] => destruct b end.
  - now right.
  - match goal with |- context [if ?b then _ else _] => destruct b end.
    + now right.
    + now left.
Qed.

Lemma parse_tokens_country (remote : bool) (raw : option str) (parts : list str)
    (r : LocationRecord) :
  parse_tokens remote raw parts = Ok r ->
  location_cleaner.raw r = raw /\ forall k, country r = Some k -> trimmed k.
Proof.
  unfold parse_tokens. intros H.
  destruct (last_of parts) as [last|e]; [|discriminate].
  pose proof (country_step_country last parts (Z.of_nat (List.length parts))) as Hc.
  destruct (country_step last parts (Z.of_nat (List.length parts)))
    as [[oc parts1] n1].
  cbn [fst] in Hc.
  destruct (state_step parts1 n1) as [[[st parts2] n2]|e]; [|discriminate].
  injection H as <-. cbn [location_cleaner.raw country]. split; [reflexivity|].
  intros k Hk.
  assert (Hoc : forall k, oc = Some k -> trimmed k).
  { intros k' ->. destruct Hc as [Hc|Hc]; [discriminate|].
    symmetry in Hc. now apply normalize_country_trimmed in Hc. }
  unfold country_from_city in Hk.
  destruct (city_step parts2 n2) as [c|]; [|now apply Hoc].
  match type of Hk with (if ?b then _ else _) = _ => destruct b end.
  - now apply normalize_country_trimmed in Hk.
  - now apply Hoc.
Qed.

Lemma city_of_trimmed (toks : list str) (c : str) :
  Forall trimmed toks -> city_of toks = Some c -> trimmed c.
Proof.
  intros Hall. destruct toks as [|t ts]; [discriminate|].
  intros E. pose proof (trimmed_join t ts Hall) as H.
  assert (E2 : c = strip (join (lit ", ") (t :: ts)))
    by (unfold city_of in E; congruence).
  rewrite E2, (strip_trimmed _ H). exact H.
Qed.

Lemma parse_location_cases (cell : option str) (r : LocationRecord) :
  parse_location cell = Ok r ->
  r = {| city := None; state := None; country := None;
         is_remote := false; raw := cell |}
  \/ (exists c, cell = Some c /\ strip c <> []
        /\ parse_tokens (mentions_remote (location_tokens (strip c))) (Some c)
                        (remaining_tokens c) = Ok r).
Proof.
  intros H. unfold parse_location in H. cbv zeta in H.
  destruct cell as [c|]; [|left; injection H as <-; reflexivity].
  destruct (location_cleaner.is_empty (strip c)) eqn:Es;
    [left; injection H as <-; reflexivity|].
  destruct (location_tokens (strip c)) as [|t ts] eqn:Et;
    [left; injection H as <-; reflexivity|].
  right. exists c. split; [reflexivity|]. split.
  - intros E. now rewrite E in Es.
  - unfold remaining_tokens. rewrite Et. exact H.
Qed.

(** X3: a record returned by [parse_location] keeps the cell as [raw]; its
    state, when set, is one of the abbreviations of [US_STATE_MAP]; its
    city and its country, when set, are not empty and have no white space
    at either end; for a missing or blank cell every field is empty and
    the remote flag is off. *)
Theorem parse_location_record_shape (cell : option str) (r : LocationRecord) :
  parse_location cell = Ok r ->
  location_cleaner.raw r = cell
  /\ (forall a, state r = Some a -> In a _state_abbrev_set)
  /\ (forall c, city r = Some c -> trimmed c)
  /\ (forall k, country r = Some k -> trimmed k)
  /\ (missing_or_blank cell ->
      city r = None /\ state r = None /\ country r = None /\ is_remote r = false).
Proof.
  intros H.
  destruct (parse_location_cases cell r H) as [->|[c [-> [Hc Ht]]]].
  - cbn. repeat split; discriminate.
  - destruct (parse_tokens_shape _ _ _ _ Ht) as [toks [used [Hparts [Hcity [Hst _]]]]].
    destruct (parse_tokens_country _ _ _ _ Ht) as [Hraw Hco].
    split; [exact Hraw|]. split; [exact Hst|]. split; [|split; [exact Hco|]].
    + intros x Hx. rewrite Hcity in Hx. apply (city_of_trimmed toks); [|exact Hx].
      pose proof (remaining_tokens_clean c) as Hall. rewrite Hparts in Hall.
      apply Forall_app in Hall as [Hall _].
      eapply Forall_impl; [|exact Hall]. now intros a [Ha _].
    + intros Hb. simpl in Hb. contradiction.
Qed.

Lemma parse_location_record_shape_witness :
  exists r,
    parse_location (Some (lit " Remote / Austin , tx , usa ")) = Ok r
    /\ location_cleaner.raw r = Some (lit " Remote / Austin , tx , usa ")
    /\ (forall a, state r = Some a -> In a _state_abbrev_set)
    /\ (forall c, city r = Some c -> trimmed c)
    /\ (forall k, country r = Some k -> trimmed k)
    /\ (missing_or_blank (Some (lit " Remote / Austin , tx , usa ")) ->
        city r = None /\ state r = None /\ country r = None /\ is_remote r = false).
Proof.
  eexists. split; [vm_compute; reflexivity|].
  apply (parse_location_record_shape (Some (lit " Remote / Austin , tx , usa "))).
  vm_compute. reflexivity.
Defined.

(** *** Location: the display column *)

Lemma trimmed_strip_nonempty (s : str) : trimmed s -> strip s <> [].
Proof.
  intros H. rewrite (strip_trimmed s H). destruct H as [H _].
  now destruct s.
Qed.

Lemma is_empty_false (s : str) : location_cleaner.is_empty s = false <-> s <> [].
Proof. destruct s; simpl; split; congruence. Qed.

Lemma strip_nil : strip [] = [].
Proof. reflexivity. Qed.

Lemma enrich_row_display (fu : bool) (r : LocationRecord) :
  (forall k, country r = Some k -> trimmed k) ->
  strip (location_display (enrich_row fu r)) <> []
  /\ (is_remote r = true -> location_display (enrich_row fu r) = lit "Remote").
Proof.
  intros Hco. unfold enrich_row. cbn [location_display].
  set (joined := _ ++ _).
  destruct (is_remote r).
  - split; [|reflexivity]. vm_compute. discriminate.
  - split; [|discriminate].
    destruct (location_cleaner.is_empty (strip joined)) eqn:Ej.
    + destruct (country r) as [k|] eqn:Ek.
      * pose proof (Hco k eq_refl) as Hk.
        assert (location_cleaner.is_empty k = false) as ->.
        { apply is_empty_false. destruct Hk as [Hk _]. now destruct k. }
        now apply trimmed_strip_nonempty.
      * vm_compute. discriminate.
    + apply is_empty_false in Ej.
      assert (location_cleaner.is_empty joined = false) as ->.
      { apply is_empty_false. intros E. rewrite E in Ej. now apply Ej. }
      exact Ej.
Qed.

(** X4: in every row [enrich_locations] writes, [location_display] is
    neither empty nor blank, and it is [Remote] when the row is remote;
    [location_missing] is set exactly for a missing or blank cell; with
    [fill_unknown] the city and the state are never null. *)
Theorem enrich_cell_display (fill_unknown : bool) (cell : option str)
    (cols : LocationColumns) :
  enrich_cell fill_unknown cell = Ok cols ->
  strip (location_display cols) <> []
  /\ (is_remote_flag cols = true -> location_display cols = lit "Remote")
  /\ (location_missing cols = true <-> missing_or_blank cell)
  /\ (fill_unknown = true ->
      location_city cols <> None /\ location_state cols <> None).
Proof.
  unfold enrich_cell. destruct (parse_location cell) as [r|e] eqn:Hp; [|discriminate].
  intros [= <-].
  assert (Hr : location_cleaner.raw r = cell
               /\ forall k, country r = Some k -> trimmed k).
  { destruct (parse_location_cases cell r Hp) as [->|[c [-> [Hc Ht]]]].
    - split; [reflexivity | discriminate].
    - exact (parse_tokens_country _ _ _ _ Ht). }
  destruct Hr as [Hraw Hco].
  destruct (enrich_row_display fill_unknown r Hco) as [H1 H2].
  split; [exact H1|]. split; [exact H2|]. split.
  - unfold enrich_row. cbn [location_missing]. rewrite Hraw.
    destruct cell as [c|]; simpl; [|tauto].
    destruct (strip c); simpl; split; congruence.
  - intros ->. unfold enrich_row. cbn [location_city location_state].
    destruct (city r), (state r); simpl; split; discriminate.
Qed.

Lemma enrich_cell_display_witness :
  exists cols,
    enrich_cell true (Some (lit "NY, US")) = Ok cols
    /\ strip (location_display cols) <> []
    /\ (is_remote_flag cols = true -> location_display cols = lit "Remote")
    /\ (location_missing cols = true <-> missing_or_blank (Some (lit "NY, US")))
    /\ (true = true ->
        location_city cols <> None /\ location_state cols <> None).
Proof.
  eexists. split; [vm_compute; reflexivity|].
  apply (enrich_cell_display true (Some (lit "NY, US"))).
  vm_compute. reflexivity.
Defined.

Lemma state_codes_plain :
  forallb (fun a => negb (location_cleaner.is_empty a)
                    && negb (str_eqb a (lit "Unknown"))
                    && negb (location_cleaner.is_empty (strip (lit ", " ++ a))))
          _state_abbrev_set = true.
Proof. vm_compute. reflexivity. Qed.

(** X5: for a parsed location with a state and no city that is not
    remote (as for the cell [NY, US]), [location_display] is the state
    after a comma and a space: the join does not drop the separator when
    the city part is empty. *)
Theorem state_without_city_display (fill_unknown : bool) (cell : option str)
    (r : LocationRecord) (st : str) :
  parse_location cell = Ok r ->
  is_remote r = false ->
  city r = None ->
  state r = Some st ->
  location_display (enrich_row fill_unknown r) = lit ", " ++ st.
Proof.
  intros Hp Hrem Hcity Hst.
  assert (Hin : In st _state_abbrev_set).
  { destruct (parse_location_cases cell r Hp) as [->|[c [-> [Hc Ht]]]].
    - discriminate.
    - destruct (parse_tokens_shape _ _ _ _ Ht) as [_ [_ [_ [_ [H _]]]]].
      now apply H. }
  pose proof state_codes_plain as Hplain. rewrite forallb_forall in Hplain.
  apply Hplain in Hin. apply andb_true_iff in Hin as [Hin Hs].
  apply andb_true_iff in Hin as [Hne Hunk].
  apply negb_true_iff in Hne, Hunk, Hs.
  unfold enrich_row. cbn [location_display]. rewrite Hrem, Hcity, Hst.
  assert (Hcp : display_part (if fill_unknown
                              then fillna_text (lit "Unknown") None else None) = []).
  { now destruct fill_unknown. }
  rewrite Hcp.
  assert (Hsp : display_part (if fill_unknown
                              then fillna_text (lit "Unknown") (Some st)
                              else Some st) = st).
  { destruct fill_unknown; simpl; unfold display_part; now rewrite Hunk. }
  rewrite Hsp, Hne. cbn [negb str_eqb app].
  change (match lit "nan" with [] => true | _ :: _ => false end) with false.
  cbv iota. cbn [app].
  rewrite Hs.
  destruct (lit ", " ++ st) eqn:E; [discriminate E|]. reflexivity.
Qed.

Lemma state_without_city_display_witness :
  location_display
    (enrich_row true {| city := None; state := Some (lit "NY");
                        country := Some (lit "US"); is_remote := false;
                        raw := Some (lit "NY, US") |})
  = lit ", " ++ lit "NY".
Proof.
  apply (state_without_city_display true (Some (lit "NY, US"))
           {| city := None; state := Some (lit "NY");
              country := Some (lit "US"); is_remote := false;
              raw := Some (lit "NY, US") |} (lit "NY"));
    vm_compute; reflexivity.
Defined.

(** *** Salary: the rows of the driver *)

Lemma combine_map {A B C : Type} (f : A -> B) (g : A -> C) (l : list A) :
  combine (map f l) (map g l) = map (fun x => (f x, g x)) l.
Proof. induction l as [|x l IH]; simpl; [reflexivity | now rewrite IH]. Qed.

Lemma fill_from_column_map {A : Type} (f : A -> cell) (g : A -> triple) (l : list A) :
  _fill_from_column (map f l) (map g l) = map (fun x => fill_row (f x) (g x)) l.
Proof. unfold _fill_from_column. now rewrite combine_map, map_map. Qed.

Lemma parsed_rows_fold (df : SalaryFrame) :
  parsed_rows df
  = map (fun r => last_pass (fold_left (fun p c => fill_row c p)
                                        (row_cells df r) all_nan))
        (rows df).
Proof.
  unfold parsed_rows, mean_cells, min_cells, max_cells, row_cells.
  destruct (has_mean_col df), (has_min_col df), (has_max_col df);
    rewrite ?fill_from_column_map, map_map;
    apply map_ext; intros [[cm cn] cx]; reflexivity.
Qed.








(** *** Salary: every row has both ends or none *)

Lemma ranged_single (x : float) : isna x = false -> ranged (x, x, x).
Proof. intros H. right. split; [exact H|]. split; [exact H|]. now apply fle_refl. Qed.

Lemma parsed_numbers_known (texts : list str) :
  Forall (fun y => isna y = false) (parsed_numbers texts).
Proof.
  unfold parsed_numbers. apply Forall_forall. intros x Hx.
  apply filter_In in Hx as [_ Hn]. unfold notna in Hn.
  now apply negb_true_iff in Hn.
Qed.

Lemma span_of_ranged (x : float) (rest : list float) :
  Forall (fun y => isna y = false) (x :: rest) -> ranged (span_of x rest).
Proof.
  intros Hall. unfold span_of, ranged.
  assert (Hx : isna x = false) by (inversion Hall; assumption).
  assert (Hrest : Forall (fun y => isna y = false) rest) by (inversion Hall; assumption).
  destruct (py_min_spec rest x Hx Hrest) as [Imin Lmin].
  destruct (py_max_spec rest x Hx Hrest) as [Imax Lmax].
  rewrite Forall_forall in Hall.
  right. split; [exact (Hall _ Imin)|]. split; [exact (Hall _ Imax)|].
  now apply fle_trans with x.
Qed.

Lemma parse_salary_field_ranged (c : cell) : ranged (parse_salary_field c).
Proof.
  assert (Hnan : ranged all_nan) by (left; auto).
  unfold parse_salary_field. destruct c as [c|]; [|exact Hnan].
  destruct (salary_parser_int.is_empty (_normalize_whitespace c)); [exact Hnan|].
  cbv zeta.
  set (s_clean := strip (Re.sub_del re_wrapping (_normalize_whitespace c))).
  assert (Hsingle : ranged
            (if isna (_parse_single_number s_clean) then all_nan
             else (_parse_single_number s_clean, _parse_single_number s_clean,
                   _parse_single_number s_clean))).
  { destruct (isna (_parse_single_number s_clean)) eqn:E; [exact Hnan|].
    exact (ranged_single _ E). }
  destruct (Re.search re_range s_clean).
  - match goal with |- context [parsed_numbers ?l] =>
      pose proof (parsed_numbers_known l) as Hk;
      destruct (parsed_numbers l) as [|x [|y rest]]
    end.
    + exact Hnan.
    + inversion Hk as [|? ? Hx _]. exact (ranged_single x Hx).
    + exact (span_of_ranged x (y :: rest) Hk).
  - destruct (2 <=? List.length (Re.findall re_number s_clean))%nat;
      [|exact Hsingle].
    match goal with |- context [parsed_numbers ?l] =>
      pose proof (parsed_numbers_known l) as Hk;
      destruct (parsed_numbers l) as [|x [|y rest]]
    end.
    + exact Hsingle.
    + exact Hsingle.
    + exact (span_of_ranged x (y :: rest) Hk).
Qed.

Lemma fill_row_ranged (raw : cell) (p : triple) : ranged p -> ranged (fill_row raw p).
Proof.
  intros Hp. pose proof (parse_salary_field_ranged raw) as Hr.
  unfold fill_row. destruct (parse_salary_field raw) as [[a b] c].
  destruct p as [[x y] z]. unfold ranged in *.
  destruct Hp as [[-> [-> ->]]|[Hx [Hy Hxy]]].
  - destruct Hr as [[-> [-> ->]]|[Ha [Hb Hab]]].
    + left. auto.
    + right. unfold notna. rewrite Ha, Hb. simpl. auto.
  - right. rewrite Hx, Hy, !andb_false_r. auto.
Qed.

Lemma half_sum_nan (mn mx : float) :
  isna mn = false -> isna mx = false -> fle mn mx = true ->
  isna (fdiv (fadd mn mx) (of_Z 2)) = true ->
  mn = FInf true /\ mx = FInf false.
Proof.
  intros Hn Hx Hle H.
  destruct (isna (fadd mn mx)) eqn:E.
  - destruct mn as [|[]|a], mx as [|[]|b]; try discriminate; auto.
    simpl in E. now rewrite round_not_nan in E.
  - now rewrite (half_not_nan _ E) in H.
Qed.

Lemma last_pass_settled (p : triple) : ranged p -> settled (last_pass p).
Proof.
  destruct p as [[x y] z]. unfold ranged, settled, last_pass.
  intros [[-> [-> ->]]|[Hx [Hy Hxy]]].
  - left. auto.
  - right. unfold notna. rewrite Hx, Hy. cbn [andb negb].
    rewrite ?Hx, ?Hy. cbn [andb negb]. rewrite ?andb_true_r.
    split; [reflexivity|]. split; [reflexivity|]. split; [exact Hxy|].
    destruct (isna z) eqn:Ez.
    + now apply half_sum_nan.
    + rewrite Ez. discriminate.
Qed.

(** X7: before the back-fill every row of the driver is either entirely
    NaN or has a minimum and a maximum that are numbers with
    [min <= max]; the mean is then a number too, unless the minimum is
    minus infinity and the maximum plus infinity. *)
Theorem parsed_rows_settled (df : SalaryFrame) : Forall settled (parsed_rows df).
Proof.
  rewrite parsed_rows_fold. apply Forall_forall. intros t Ht.
  apply in_map_iff in Ht as [r [<- _]]. apply last_pass_settled.
  assert (H : forall cells p, ranged p ->
                ranged (fold_left (fun p c => fill_row c p) cells p)).
  { induction cells as [|c cells IH]; intros p Hp; cbn [fold_left]; [exact Hp|].
    apply IH. now apply fill_row_ranged. }
  apply H. left. auto.
Qed.

(** *** Salary: the integer columns *)

Lemma to_int64_whole (z : Z) :
  to_int64 (FFin (z * ONE))
  = if (- 2 ^ 63 <=? z) && (z <? 2 ^ 63) then Ok (Some z) else Raise TypeError.
Proof.
  unfold to_int64. pose proof ONE_pos as HO.
  replace (z * ONE / ONE) with z by (symmetry; apply Z.div_mul; lia).
  now rewrite Z.eqb_refl.
Qed.

Lemma to_int64_rounded (rm : str) (x : float) (v : option Z) :
  to_int64 (round_value rm x) = Ok v -> rounded_to rm x v.
Proof.
  pose proof ONE_pos as HO.
  destruct x as [|s|k]; unfold round_value, rounded_to.
  - unfold to_int64. intros [= <-]. exact I.
  - unfold to_int64. discriminate.
  - assert (Hcast : forall z,
              to_int64 (FFin (z * ONE)) = Ok v ->
              v = Some z /\ - 2 ^ 63 <= z < 2 ^ 63).
    { intros z. rewrite to_int64_whole.
      destruct ((- 2 ^ 63 <=? z) && (z <? 2 ^ 63)) eqn:E; [|discriminate].
      intros [= <-]. apply andb_true_iff in E as [E1 E2].
      apply Z.leb_le in E1. apply Z.ltb_lt in E2. split; [reflexivity | lia]. }
    destruct (str_eqb rm (lit "floor")); [|destruct (str_eqb rm (lit "ceil"))];
      intros H; apply Hcast in H as [-> Hr]; (split; [exact Hr|]).
    + pose proof (Z.div_mod k ONE ltac:(lia)) as Hd.
      pose proof (Z.mod_pos_bound k ONE HO) as Hm. lia.
    + pose proof (Z.div_mod (- k) ONE ltac:(lia)) as Hd.
      pose proof (Z.mod_pos_bound (- k) ONE HO) as Hm. lia.
    + destruct (rne_spec k ONE HO) as [Hb [He1 He2]].
      split; [lia|]. intros Ht.
      destruct (Z.abs_spec (k - rne k ONE * ONE)) as [[_ Ha]|[_ Ha]];
        [apply He1 | apply He2]; lia.
Qed.

(** X8: when [_to_int_series] returns, NaN has become the missing value
    and every number an integer of 64 bits: the greatest integer below or
    equal to it for [floor], the least integer above or equal to it for
    [ceil], and for any other [round_method] the nearest integer, the even
    one at a tie. *)
Theorem to_int_series_rounds (round_method : str) (col : list float)
    (ints : list (option Z)) :
  _to_int_series round_method col = Ok ints ->
  Forall2 (rounded_to round_method) col ints.
Proof.
  unfold _to_int_series. revert ints.
  induction col as [|x col IH]; intros ints; simpl.
  - intros [= <-]. constructor.
  - destruct (to_int64 (round_value round_method x)) as [v|e] eqn:Ex; [|discriminate].
    destruct (cast_all (map (round_value round_method) col)) as [vs|e];
      [|discriminate].
    intros [= <-]. constructor; [now apply to_int64_rounded | now apply IH].
Qed.

Lemma to_int_series_rounds_witness :
  _to_int_series (lit "round") [FFin (5 * ONE / 2); FFin (7 * ONE / 2); FNaN]
  = Ok [Some 2; Some 4; None]
  /\ Forall2 (rounded_to (lit "round"))
       [FFin (5 * ONE / 2); FFin (7 * ONE / 2); FNaN] [Some 2; Some 4; None].
Proof.
  split; [vm_compute; reflexivity|].
  apply (to_int_series_rounds (lit "round")
           [FFin (5 * ONE / 2); FFin (7 * ONE / 2); FNaN] [Some 2; Some 4; None]).
  vm_compute. reflexivity.
Defined.

(** *** Regular expressions: the equations of the matcher *)

Section Matcher.
Variables (ic : bool) (a : Re.atom) (its : list Re.item).
Variables (prev : option char) (pos : nat) (caps : list nat).

Lemma m_one_cons (c : char) (r : str) :
  Re.m_items ic (Re.Tok a Re.One :: its) prev pos (c :: r) caps
  = if Re.atom_ok ic a c then Re.m_items ic its (Some c) (S pos) r caps else None.
Proof. reflexivity. Qed.

Lemma m_opt_cons (c : char) (r : str) :
  Re.m_items ic (Re.Tok a Re.Opt :: its) prev pos (c :: r) caps
  = if Re.atom_ok ic a c
    then match Re.m_items ic its (Some c) (S pos) r caps with
         | Some x => Some x
         | None => Re.m_items ic its prev pos (c :: r) caps
         end
    else Re.m_items ic its prev pos (c :: r) caps.
Proof. reflexivity. Qed.

Lemma m_opt_nil :
  Re.m_items ic (Re.Tok a Re.Opt :: its) prev pos [] caps
  = Re.m_items ic its prev pos [] caps.
Proof. reflexivity. Qed.

Lemma m_star_cons (c : char) (r : str) :
  Re.m_items ic (Re.Tok a Re.Star :: its) prev pos (c :: r) caps
  = if Re.atom_ok ic a c
    then match Re.m_items ic (Re.Tok a Re.Star :: its) (Some c) (S pos) r caps with
         | Some x => Some x
         | None => Re.m_items ic its prev pos (c :: r) caps
         end
    else Re.m_items ic its prev pos (c :: r) caps.
Proof. reflexivity. Qed.

Lemma m_star_nil :
  Re.m_items ic (Re.Tok a Re.Star :: its) prev pos [] caps
  = Re.m_items ic its prev pos [] caps.
Proof. reflexivity. Qed.

Lemma m_plus_cons (c : char) (r : str) :
  Re.m_items ic (Re.Tok a Re.Plus :: its) prev pos (c :: r) caps
  = if Re.atom_ok ic a c
    then Re.m_items ic (Re.Tok a Re.Star :: its) (Some c) (S pos) r caps
    else None.
Proof. reflexivity. Qed.

Lemma m_wordb (rest : str) :
  Re.m_items ic (Re.WordB :: its) prev pos rest caps
  = if Re.at_boundary prev rest then Re.m_items ic its prev pos rest caps else None.
Proof. reflexivity. Qed.

Lemma m_eos (rest : str) :
  Re.m_items ic (Re.Eos :: its) prev pos rest caps
  = if Re.at_end rest then Re.m_items ic its prev pos rest caps else None.
Proof. reflexivity. Qed.

Lemma m_gopen (rest : str) :
  Re.m_items ic (Re.GOpen :: its) prev pos rest caps
  = Re.m_items ic its prev pos rest (pos :: caps).
Proof. reflexivity. Qed.

Lemma m_gclose (rest : str) :
  Re.m_items ic (Re.GClose :: its) prev pos rest caps
  = Re.m_items ic its prev pos rest (pos :: caps).
Proof. reflexivity. Qed.

End Matcher.

(** *** Regular expressions: runs of a repeated class *)

Lemma after_app (s t : str) (prev : option char) :
  after (s ++ t) prev = after t (after s prev).
Proof. unfold after. apply fold_left_app. Qed.

Lemma after_cons (c : char) (s : str) (prev : option char) :
  after (c :: s) prev = after s (Some c).
Proof. reflexivity. Qed.

Lemma after_last (w : str) (prev : option char) :
  after w prev = match rev w with [] => prev | c :: _ => Some c end.
Proof.
  revert prev. induction w as [|c w IH]; intros prev; [reflexivity|].
  rewrite after_cons, IH. cbn [rev].
  destruct (rev w) as [|d r]; reflexivity.
Qed.

(** Text that does not begin with a character of the atom. *)
Lemma star_run (ic : bool) (a : Re.atom) (its : list Re.item) (s rest : str)
    (prev : option char) (pos : nat) (caps : list nat) (x : nat * list nat) :
  Forall (fun c => Re.atom_ok ic a c = true) s ->
  match rest with [] => True | d :: _ => Re.atom_ok ic a d = false end ->
  Re.m_items ic its (after s prev) (pos + List.length s) rest caps = Some x ->
  Re.m_items ic (Re.Tok a Re.Star :: its) prev pos (s ++ rest) caps = Some x.
Proof.
  intros Hs Hrest. revert prev pos.
  induction Hs as [|c s Hc Hs IH]; intros prev pos Hk.
  - cbn [app]. cbn [after fold_left List.length] in Hk. rewrite Nat.add_0_r in Hk.
    destruct rest as [|d rest]; [now rewrite m_star_nil|].
    now rewrite m_star_cons, Hrest.
  - cbn [app]. rewrite m_star_cons, Hc.
    rewrite (IH (Some c) (S pos)); [reflexivity|].
    rewrite <- Hk. cbn [List.length]. rewrite Nat.add_succ_r. reflexivity.
Qed.

Lemma star_fail (ic : bool) (a : Re.atom) (its : list Re.item) (s rest : str)
    (prev : option char) (pos : nat) (caps : list nat) :
  Forall (fun c => Re.atom_ok ic a c = true) s ->
  match rest with [] => True | d :: _ => Re.atom_ok ic a d = false end ->
  (forall s1 s2, s = s1 ++ s2 ->
     Re.m_items ic its (after s1 prev) (pos + List.length s1) (s2 ++ rest) caps
     = None) ->
  Re.m_items ic (Re.Tok a Re.Star :: its) prev pos (s ++ rest) caps = None.
Proof.
  intros Hs Hrest. revert prev pos.
  induction Hs as [|c s Hc Hs IH]; intros prev pos Hk.
  - specialize (Hk [] [] eq_refl). cbn [app after fold_left List.length] in Hk.
    rewrite Nat.add_0_r in Hk. cbn [app].
    destruct rest as [|d rest]; [now rewrite m_star_nil|].
    now rewrite m_star_cons, Hrest.
  - cbn [app]. rewrite m_star_cons, Hc. rewrite (IH (Some c) (S pos)).
    + specialize (Hk [] (c :: s) eq_refl).
      cbn [app after fold_left List.length] in Hk.
      now rewrite Nat.add_0_r in Hk.
    + intros s1 s2 E. specialize (Hk (c :: s1) s2).
      cbn [List.length] in Hk. rewrite Nat.add_succ_r in Hk.
      apply Hk. now rewrite E.
Qed.

(** *** Regular expressions: the scan, step by step *)

Lemma scan_end (r : Re.regex) (prev : option char) (gap : str) :
  Re.match_at r prev [] = None -> Re.scan r prev 0 [] gap = ([], rev gap).
Proof. intros H. cbn [Re.scan]. now rewrite H. Qed.

Lemma scan_miss (r : Re.regex) (prev : option char) (c : char) (rest gap : str) :
  Re.match_at r prev (c :: rest) = None ->
  Re.scan r prev 0 (c :: rest) gap = Re.scan r (Some c) 0 rest (c :: gap).
Proof. intros H. cbn [Re.scan]. now rewrite H. Qed.

Lemma scan_skip (r : Re.regex) (m rest gap : str) (prev : option char) :
  Re.scan r prev (List.length m) (m ++ rest) gap = Re.scan r (after m prev) 0 rest gap.
Proof.
  revert prev. induction m as [|c m IH]; intros prev; [reflexivity|].
  cbn [List.length app Re.scan]. now rewrite IH.
Qed.

Lemma scan_hit (r : Re.regex) (prev : option char) (c : char) (m rest gap : str)
    (caps : list nat) :
  Re.match_at r prev (c :: m ++ rest) = Some (S (List.length m), caps) ->
  Re.scan r prev 0 (c :: m ++ rest) gap
  = ((rev gap, c :: m) :: fst (Re.scan r (after m (Some c)) 0 rest []),
     snd (Re.scan r (after m (Some c)) 0 rest [])).
Proof.
  intros H. cbn [Re.scan]. rewrite H. cbn [Nat.sub]. rewrite Nat.sub_0_r.
  rewrite scan_skip. cbn [firstn].
  rewrite firstn_app, firstn_all, Nat.sub_diag. cbn [firstn]. rewrite app_nil_r.
  now destruct (Re.scan r (after m (Some c)) 0 rest []).
Qed.

(** *** Regular expressions: text a pattern cannot start in *)

(** The class or character every match of the branch starts with: the
    first item that is not an assertion or a parenthesis, when it is not
    optional. *)
Lemma leading_nil (ic : bool) (b : Re.branch) (a : Re.atom) (prev : option char)
    (pos : nat) (caps : list nat) :
  leading b = Some a -> Re.m_items ic b prev pos [] caps = None.
Proof.
  revert caps. induction b as [|it b IH]; intros caps H; [discriminate|].
  destruct it as [a' q| | | | |]; cbn [leading] in H.
  - destruct q; try discriminate; reflexivity.
  - rewrite m_wordb. destruct (Re.at_boundary prev []); [now apply IH | reflexivity].
  - cbn [Re.m_items]. destruct prev; [reflexivity | now apply IH].
  - rewrite m_eos. destruct (Re.at_end []); [now apply IH | reflexivity].
  - rewrite m_gopen. now apply IH.
  - rewrite m_gclose. now apply IH.
Qed.

Lemma leading_fail (ic : bool) (b : Re.branch) (a : Re.atom) (prev : option char)
    (pos : nat) (c : char) (rest : str) (caps : list nat) :
  leading b = Some a -> Re.atom_ok ic a c = false ->
  Re.m_items ic b prev pos (c :: rest) caps = None.
Proof.
  revert caps. induction b as [|it b IH]; intros caps H Hc; [discriminate|].
  destruct it as [a' q| | | | |]; cbn [leading] in H.
  - destruct q; try discriminate; injection H as ->.
    + now rewrite m_one_cons, Hc.
    + now rewrite m_plus_cons, Hc.
  - rewrite m_wordb. destruct (Re.at_boundary prev (c :: rest)); [now apply IH | reflexivity].
  - cbn [Re.m_items]. destruct prev; [reflexivity | now apply IH].
  - rewrite m_eos. destruct (Re.at_end (c :: rest)); [now apply IH | reflexivity].
  - rewrite m_gopen. now apply IH.
  - rewrite m_gclose. now apply IH.
Qed.

Lemma anchored_nil (r : Re.regex) (prev : option char) :
  anchored r = true -> Re.match_at r prev [] = None.
Proof.
  unfold anchored, Re.match_at. generalize (Re.ignorecase r) as ic.
  induction (Re.branches r) as [|b bs IH]; intros ic H; [reflexivity|].
  cbn [forallb] in H. apply andb_true_iff in H as [Hb H].
  cbn [Re.m_branches]. destruct (leading b) as [a|] eqn:E; [|discriminate].
  rewrite (leading_nil ic b a prev 0 [] E). now apply IH.
Qed.

Lemma inert_miss (r : Re.regex) (prev : option char) (c : char) (rest : str) :
  inert r c = true -> Re.match_at r prev (c :: rest) = None.
Proof.
  unfold inert, Re.match_at. generalize (Re.ignorecase r) as ic.
  induction (Re.branches r) as [|b bs IH]; intros ic H; [reflexivity|].
  cbn [forallb] in H. apply andb_true_iff in H as [Hb H].
  cbn [Re.m_branches]. destruct (leading b) as [a|] eqn:E; [|discriminate].
  apply negb_true_iff in Hb.
  rewrite (leading_fail ic b a prev 0 c rest [] E Hb). now apply IH.
Qed.

Lemma inert_anchored (r : Re.regex) (c : char) : inert r c = true -> anchored r = true.
Proof.
  unfold inert, anchored. induction (Re.branches r) as [|b bs IH]; [reflexivity|].
  cbn [forallb]. intros H. apply andb_true_iff in H as [Hb H].
  rewrite (IH H). now destruct (leading b).
Qed.

Lemma scan_inert (r : Re.regex) (s : str) (prev : option char) (gap : str) :
  anchored r = true -> forallb (inert r) s = true ->
  Re.scan r prev 0 s gap = ([], rev gap ++ s).
Proof.
  intros Ha. revert prev gap. induction s as [|c s IH]; intros prev gap H.
  - rewrite scan_end; [now rewrite app_nil_r | now apply anchored_nil].
  - cbn [forallb] in H. apply andb_true_iff in H as [Hc H].
    rewrite scan_miss; [|now apply inert_miss].
    rewrite (IH (Some c) (c :: gap) H). cbn [rev]. now rewrite <- app_assoc.
Qed.

Lemma sub_del_inert (r : Re.regex) (s : str) :
  anchored r = true -> forallb (inert r) s = true -> Re.sub_del r s = s.
Proof.
  intros Ha H. unfold Re.sub_del, Re.split, Re.finditer.
  rewrite (scan_inert r s None [] Ha H). cbn. now rewrite app_nil_r.
Qed.

Lemma search_inert (r : Re.regex) (s : str) :
  anchored r = true -> forallb (inert r) s = true -> Re.search r s = false.
Proof.
  intros Ha H. unfold Re.search, Re.finditer.
  now rewrite (scan_inert r s None [] Ha H).
Qed.

Lemma forallb_alphabet (p : char -> bool) (alphabet s : str) :
  forallb p alphabet = true -> Forall (fun c => In c alphabet) s ->
  forallb p s = true.
Proof.
  intros Hp Hs. rewrite forallb_forall in *. rewrite Forall_forall in Hs.
  intros c Hc. apply Hp, Hs, Hc.
Qed.

(** *** Regular expressions: deleting the characters of one class *)

Lemma match_one (ic : bool) (a : Re.atom) (prev : option char) (c : char) (rest : str) :
  Re.match_at {| Re.ignorecase := ic; Re.branches := [[Re.Tok a Re.One]] |}
              prev (c :: rest)
  = if Re.atom_ok ic a c then Some (1%nat, []) else None.
Proof.
  unfold Re.match_at. cbn [Re.branches Re.ignorecase Re.m_branches].
  rewrite m_one_cons. cbn [Re.m_items]. now destruct (Re.atom_ok ic a c).
Qed.

Lemma scan_one (ic : bool) (a : Re.atom) (s : str) (prev : option char) (gap : str) :
  let r := {| Re.ignorecase := ic; Re.branches := [[Re.Tok a Re.One]] |} in
  List.concat (map fst (fst (Re.scan r prev 0 s gap)) ++ [snd (Re.scan r prev 0 s gap)])
  = rev gap ++ filter (fun c => negb (Re.atom_ok ic a c)) s.
Proof.
  intros r. revert prev gap. induction s as [|c s IH]; intros prev gap.
  - rewrite scan_end by reflexivity. cbn. now rewrite app_nil_r.
  - destruct (Re.atom_ok ic a c) eqn:E.
    + pose proof (scan_hit r prev c [] s gap []) as H.
      cbn [app List.length after fold_left] in H. rewrite H.
      * cbn [fst snd map List.concat app filter]. rewrite E. cbn [negb].
        f_equal. exact (IH (Some c) []).
      * unfold r. now rewrite match_one, E.
    + rewrite scan_miss by (unfold r; now rewrite match_one, E).
      rewrite IH. cbn [rev filter]. rewrite E. cbn [negb].
      now rewrite <- app_assoc.
Qed.

Lemma sub_del_one (ic : bool) (a : Re.atom) (s : str) :
  Re.sub_del {| Re.ignorecase := ic; Re.branches := [[Re.Tok a Re.One]] |} s
  = filter (fun c => negb (Re.atom_ok ic a c)) s.
Proof.
  unfold Re.sub_del, Re.split, Re.finditer.
  exact (scan_one ic a s None []).
Qed.

Lemma search_one (ic : bool) (a : Re.atom) (s : str) :
  Re.search {| Re.ignorecase := ic; Re.branches := [[Re.Tok a Re.One]] |} s
  = existsb (Re.atom_ok ic a) s.
Proof.
  set (r := {| Re.ignorecase := ic; Re.branches := [[Re.Tok a Re.One]] |}).
  unfold Re.search, Re.finditer. generalize (@nil char) as gap.
  generalize (@None char) as prev.
  induction s as [|c s IH]; intros prev gap.
  - now rewrite scan_end.
  - cbn [existsb]. destruct (Re.atom_ok ic a c) eqn:E.
    + pose proof (scan_hit r prev c [] s gap []) as H.
      cbn [app List.length after fold_left] in H. rewrite H; [reflexivity|].
      unfold r. now rewrite match_one, E.
    + rewrite scan_miss by (unfold r; now rewrite match_one, E). apply IH.
Qed.

(** *** Salary: the text of an amount *)

Lemma replace_absent (old : char) (new s : str) :
  forallb (fun c => negb (c =? old)%N) s = true -> replace old new s = s.
Proof.
  unfold replace. induction s as [|c s IH]; intros H; [reflexivity|].
  cbn [forallb] in H. apply andb_true_iff in H as [Hc H].
  apply negb_true_iff in Hc. cbn [flat_map]. rewrite Hc, (IH H). reflexivity.
Qed.

Lemma replace_delete (old : char) (s : str) :
  replace old [] s = filter (fun c => negb (c =? old)%N) s.
Proof.
  unfold replace. induction s as [|c s IH]; [reflexivity|].
  cbn [flat_map filter]. rewrite IH. now destruct (c =? old)%N.
Qed.

Lemma filter_all {A : Type} (p : A -> bool) (l : list A) :
  forallb p l = true -> filter p l = l.
Proof.
  induction l as [|x l IH]; intros H; [reflexivity|].
  cbn [forallb] in H. apply andb_true_iff in H as [Hx H].
  cbn [filter]. now rewrite Hx, (IH H).
Qed.

Lemma filter_none {A : Type} (p : A -> bool) (l : list A) :
  forallb (fun x => negb (p x)) l = true -> filter p l = [].
Proof.
  induction l as [|x l IH]; intros H; [reflexivity|].
  cbn [forallb] in H. apply andb_true_iff in H as [Hx H].
  apply negb_true_iff in Hx. cbn [filter]. now rewrite Hx, (IH H).
Qed.

Lemma lstrip_no_space (s : str) :
  forallb (fun c => negb (is_space c)) s = true -> lstrip_by is_space s = s.
Proof.
  destruct s as [|c s]; [reflexivity|]. cbn [forallb]. intros H.
  apply andb_true_iff in H as [Hc _]. apply negb_true_iff in Hc.
  now apply lstrip_by_head.
Qed.

Lemma strip_no_space (s : str) :
  forallb (fun c => negb (is_space c)) s = true -> strip s = s.
Proof.
  intros H. unfold strip, rstrip_by. rewrite (lstrip_no_space s H).
  rewrite lstrip_no_space; [apply rev_involutive|].
  rewrite forallb_forall in *. intros c Hc. apply H. now apply in_rev.
Qed.

Lemma digit_cases (c : char) :
  is_digit c = true -> In c (lit "0123456789").
Proof.
  intros H. char_props.
  assert (Hc : (c = 48 \/ c = 49 \/ c = 50 \/ c = 51 \/ c = 52 \/ c = 53
                \/ c = 54 \/ c = 55 \/ c = 56 \/ c = 57)%N) by lia.
  repeat destruct Hc as [->|Hc]; try subst c;
    vm_compute; repeat first [left; reflexivity | right].
Qed.

Lemma digits_figures (s : str) :
  all_digits s = true -> Forall (fun c => In c figures) s.
Proof.
  unfold all_digits. rewrite forallb_forall, Forall_forall. intros H c Hc.
  specialize (H c Hc). apply digit_cases in H. vm_compute in H.
  repeat destruct H as [<-|H]; try contradiction;
    vm_compute; repeat first [left; reflexivity | right].
Qed.

Lemma take_digits_all (s : str) (acc : Z) (n : nat) :
  all_digits s = true ->
  take_digits s acc n
  = (fold_left (fun acc c => 10 * acc + Z.of_N (c - 48)) s acc,
     (n + List.length s)%nat, []).
Proof.
  unfold all_digits. revert acc n. induction s as [|c s IH]; intros acc n H.
  - cbn. now rewrite Nat.add_0_r.
  - cbn [forallb] in H. apply andb_true_iff in H as [Hc H].
    cbn [take_digits fold_left List.length]. rewrite Hc, (IH _ _ H).
    now rewrite Nat.add_succ_r.
Qed.

Lemma float_of_digits (a : str) :
  a <> [] -> all_digits a = true -> float_of_str a = Some (of_Z (number a)).
Proof.
  intros Hne Ha. destruct a as [|c a]; [contradiction|].
  unfold float_of_str.
  assert (Hc : is_digit c = true).
  { unfold all_digits in Ha. cbn [forallb] in Ha.
    now apply andb_true_iff in Ha as [Hc _]. }
  assert ((c =? chr "-")%N = false) as ->.
  { apply N.eqb_neq. intros ->. discriminate Hc. }
  assert ((c =? chr "+")%N = false) as ->.
  { apply N.eqb_neq. intros ->. discriminate Hc. }
  rewrite (take_digits_all (c :: a) 0 0 Ha). reflexivity.
Qed.

Lemma in_alphabet (alphabet : str) (p : char -> bool) (c : char) :
  forallb p alphabet = true -> In c alphabet -> p c = true.
Proof. intros H Hc. rewrite forallb_forall in H. now apply H. Qed.

Lemma signs_chars (pre : str) : signs pre -> Forall (fun c => In c amount_chars) pre.
Proof.
  apply Forall_impl. intros c H. unfold amount_chars. apply in_or_app. now left.
Qed.

Lemma figures_chars (s : str) :
  Forall (fun c => In c figures) s -> Forall (fun c => In c amount_chars) s.
Proof.
  apply Forall_impl. intros c H. unfold amount_chars. apply in_or_app. now right.
Qed.

Lemma digits_chars (s : str) :
  all_digits s = true -> Forall (fun c => In c amount_chars) s.
Proof. intros H. now apply figures_chars, digits_figures. Qed.

Lemma suffix_figure (k : char) : In k (lit "kKmM") -> In k figures.
Proof.
  intros H. vm_compute in H.
  repeat destruct H as [<-|H]; try contradiction;
    vm_compute; repeat first [left; reflexivity | right].
Qed.

Lemma amount_chars_of (s : str) (v : float) :
  amount s v ->
  Forall (fun c => In c amount_chars) s /\ existsb is_digit s = true.
Proof.
  assert (Hd : forall a, a <> [] -> all_digits a = true -> existsb is_digit a = true).
  { intros [|c a] Hne Ha; [contradiction|]. unfold all_digits in Ha.
    cbn [forallb] in Ha. apply andb_true_iff in Ha as [Hc _].
    cbn [existsb]. now rewrite Hc. }
  assert (Hk : forall k, In k (lit "kK") \/ In k (lit "mM") ->
                 Forall (fun c => In c amount_chars) [k]).
  { intros k H. constructor; [|constructor]. unfold amount_chars.
    apply in_or_app. right. apply suffix_figure.
    destruct H as [H|H]; vm_compute in H; vm_compute; tauto. }
  intros H. destruct H as [pre a Hp Hne Ha|pre a b Hp Hne Ha Hb
                          |pre a k Hp Hne Ha Hk'|pre a k Hp Hne Ha Hk'].
  - split.
    + apply Forall_app. split; [now apply signs_chars | now apply digits_chars].
    + rewrite existsb_app, (Hd a Hne Ha). apply orb_true_r.
  - split.
    + apply Forall_app. split; [now apply signs_chars|].
      apply Forall_app. split; [now apply digits_chars|].
      constructor; [|now apply digits_chars].
      vm_compute. repeat first [left; reflexivity | right].
    + rewrite !existsb_app, (Hd a Hne Ha). cbn [orb]. apply orb_true_r.
  - split.
    + apply Forall_app. split; [now apply signs_chars|].
      apply Forall_app. split; [now apply digits_chars | apply Hk; now left].
    + rewrite !existsb_app, (Hd a Hne Ha). cbn [orb]. apply orb_true_r.
  - split.
    + apply Forall_app. split; [now apply signs_chars|].
      apply Forall_app. split; [now apply digits_chars | apply Hk; now right].
    + rewrite !existsb_app, (Hd a Hne Ha). cbn [orb]. apply orb_true_r.
Qed.

Lemma amount_chars_plain :
  forallb (fun c => negb (c =? 160)%N && negb (is_space c)
                    && inert re_wrapping c && inert re_range c
                    && inert re_verbose c)
          amount_chars = true.
Proof. vm_compute. reflexivity. Qed.

Lemma lower_char_digit (c : char) : is_digit (lower_char c) = is_digit c.
Proof.
  unfold lower_char. destruct (is_upper c) eqn:E; [|reflexivity].
  char_props.
  assert (H1 : (c <=? 57)%N = false) by (apply N.leb_gt; lia).
  assert (H2 : (c + 32 <=? 57)%N = false) by (apply N.leb_gt; lia).
  now rewrite H1, H2, !andb_false_r.
Qed.

Lemma not_null_word (s : str) :
  existsb is_digit s = true -> mem (lower s) null_words = false.
Proof.
  intros H. unfold mem.
  destruct (existsb (str_eqb (lower s)) null_words) eqn:E; [|reflexivity].
  apply existsb_exists in E as [w [Hw Hs]]. apply str_eqb_eq in Hs.
  assert (Hl : existsb is_digit (lower s) = true).
  { rewrite <- H. clear. induction s as [|c s IH]; [reflexivity|].
    cbn [lower map existsb]. rewrite lower_char_digit. f_equal. exact IH. }
  rewrite Hs in Hl.
  assert (Hn : forallb (fun w => negb (existsb is_digit w)) null_words = true)
    by (vm_compute; reflexivity).
  rewrite forallb_forall in Hn. specialize (Hn w Hw).
  rewrite Hl in Hn. discriminate Hn.
Qed.

(** *** Salary: the tokens of the number pattern *)

Lemma digit_atom (c : char) :
  Re.atom_ok false (Re.Cls false [Re.CDigit]) c = is_digit c.
Proof.
  unfold Re.atom_ok. cbn [existsb Re.cset_has andb xorb].
  now rewrite !orb_false_r.
Qed.

Lemma digits_atom (s : str) :
  all_digits s = true ->
  Forall (fun c => Re.atom_ok false (Re.Cls false [Re.CDigit]) c = true) s.
Proof.
  unfold all_digits. rewrite forallb_forall, Forall_forall.
  intros H c Hc. rewrite digit_atom. now apply H.
Qed.

Lemma digit_classes :
  forallb (fun c => negb (Re.atom_ok false (Re.Cls false (Re.chars "+-")) c)
                    && Re.atom_ok false
                         (Re.Cls false (Re.CDigit :: Re.chars ".,")) c
                    && negb (is_space c)
                    && negb (c =? chr ",")%N
                    && negb (c =? chr " ")%N
                    && inert re_not_decimal c
                    && inert re_parenthesized c
                    && negb (Re.atom_ok false
                               (Re.Cls true (Re.CDigit :: Re.chars ".,kKmM-+()")) c))
          (lit "0123456789") = true.
Proof. vm_compute. reflexivity. Qed.

(** The items after the digits of the number pattern. *)
Lemma number_end (prev : option char) : Re.match_at re_number prev [] = None.
Proof. reflexivity. Qed.

Lemma number_miss (c : char) (prev : option char) (rest : str) :
  In c (chr "," :: currency) -> Re.match_at re_number prev (c :: rest) = None.
Proof.
  intros H. vm_compute in H.
  repeat destruct H as [<-|H]; try contradiction; reflexivity.
Qed.

Lemma number_tail_nil (prev : option char) (pos : nat) (caps : list nat) :
  Re.m_items false
    [Re.opt (Re.chars ".,"); Re.many [Re.CDigit]; Re.opt (Re.chars "kKmM")]
    prev pos [] caps = Some (pos, caps).
Proof. reflexivity. Qed.

Lemma number_tail_suffix (k : char) (prev : option char) (pos : nat)
    (caps : list nat) :
  In k (lit "kKmM") ->
  Re.m_items false
    [Re.opt (Re.chars ".,"); Re.many [Re.CDigit]; Re.opt (Re.chars "kKmM")]
    prev pos [k] caps = Some (S pos, caps).
Proof.
  intros H. vm_compute in H.
  repeat destruct H as [<-|H]; try contradiction; reflexivity.
Qed.

(** A comma, digits, and then the end of the text or another comma. *)
Lemma number_tail_group (b rest : str) (prev : option char) (pos : nat)
    (caps : list nat) :
  all_digits b = true ->
  rest = [] \/ (exists rest', rest = chr "," :: rest') ->
  Re.m_items false
    [Re.opt (Re.chars ".,"); Re.many [Re.CDigit]; Re.opt (Re.chars "kKmM")]
    prev pos (chr "," :: b ++ rest) caps
  = Some (S (pos + List.length b), caps).
Proof.
  intros Hb Hrest. unfold Re.opt at 1. rewrite m_opt_cons.
  change (Re.atom_ok false (Re.Cls false (Re.chars ".,")) (chr ",")) with true.
  cbv iota. unfold Re.many.
  rewrite (star_run false (Re.Cls false [Re.CDigit]) [Re.opt (Re.chars "kKmM")]
             b rest (Some (chr ",")) (S pos) caps
             (S (pos + List.length b), caps)).
  - reflexivity.
  - now apply digits_atom.
  - destruct Hrest as [->|[rest' ->]]; [exact I | reflexivity].
  - destruct Hrest as [->|[rest' ->]]; reflexivity.
Qed.

(** The number pattern on digits followed by [t], when the items after
    the digits take exactly [t]. *)
Lemma number_match (a t rest : str) (prev : option char) :
  a <> [] -> all_digits a = true ->
  match t ++ rest with [] => True | d :: _ => is_digit d = false end ->
  (forall p,
     Re.m_items false
       [Re.opt (Re.chars ".,"); Re.many [Re.CDigit]; Re.opt (Re.chars "kKmM")]
       p (List.length a) (t ++ rest) []
     = Some ((List.length a + List.length t)%nat, [])) ->
  Re.match_at re_number prev (a ++ t ++ rest)
  = Some ((List.length a + List.length t)%nat, []).
Proof.
  intros Hne Ha Hhead Htail. destruct a as [|c a]; [contradiction|].
  pose proof Ha as Hall. unfold all_digits in Ha. cbn [forallb] in Ha.
  apply andb_true_iff in Ha as [Hc Ha].
  pose proof (in_alphabet _ _ c digit_classes (digit_cases c Hc)) as Hcls.
  repeat (apply andb_true_iff in Hcls as [Hcls ?]).
  apply negb_true_iff in Hcls.
  unfold Re.match_at, re_number, Re.re.
  cbn [Re.branches Re.ignorecase Re.m_branches app].
  unfold Re.opt at 1. rewrite m_opt_cons, Hcls.
  unfold Re.some. rewrite m_plus_cons, digit_atom, Hc.
  rewrite (star_run false (Re.Cls false [Re.CDigit])
             [Re.opt (Re.chars ".,"); Re.many [Re.CDigit]; Re.opt (Re.chars "kKmM")]
             a (t ++ rest) (Some c) 1 []
             ((List.length (c :: a) + List.length t)%nat, [])).
  - reflexivity.
  - now apply digits_atom.
  - destruct (t ++ rest) as [|d r]; [exact I|]. now rewrite digit_atom.
  - exact (Htail _).
Qed.

Lemma scan_misses (r : Re.regex) (pre s : str) (prev : option char) (gap : str) :
  Forall (fun c => forall p rest, Re.match_at r p (c :: rest) = None) pre ->
  Re.scan r prev 0 (pre ++ s) gap = Re.scan r (after pre prev) 0 s (rev pre ++ gap).
Proof.
  intros H. revert prev gap. induction H as [|c pre Hc H IH]; intros prev gap.
  - reflexivity.
  - cbn [app]. rewrite scan_miss by apply Hc. rewrite IH.
    cbn [rev]. now rewrite <- app_assoc.
Qed.

Lemma signs_miss (pre : str) :
  signs pre ->
  Forall (fun c => forall p rest, Re.match_at re_number p (c :: rest) = None) pre.
Proof.
  apply Forall_impl. intros c H p rest. apply number_miss. now right.
Qed.

(** One token after the currency signs. *)
Lemma number_tokens_one (pre body : str) :
  signs pre -> body <> [] ->
  (forall p, Re.match_at re_number p body = Some (List.length body, [])) ->
  Re.findall re_number (pre ++ body) = [body].
Proof.
  intros Hp Hne Hm. unfold Re.findall, Re.finditer.
  rewrite (scan_misses re_number pre body None [] (signs_miss pre Hp)).
  destruct body as [|c m]; [contradiction|].
  pose proof (scan_hit re_number (after pre None) c m [] (rev pre ++ []) []) as H.
  rewrite app_nil_r in H. rewrite H by apply Hm.
  rewrite scan_end by apply number_end. reflexivity.
Qed.

(** *** Salary: the suffix pattern *)

Lemma m_bos_none (ic : bool) (its : list Re.item) (pos : nat) (rest : str)
    (caps : list nat) :
  Re.m_items ic (Re.Bos :: its) None pos rest caps
  = Re.m_items ic its None pos rest caps.
Proof. reflexivity. Qed.

Lemma group_classes :
  forallb (fun c => negb (Re.atom_ok false (Re.Cls false (Re.chars "+-")) c)
                    && Re.atom_ok false
                         (Re.Cls false (Re.CDigit :: Re.chars ".,")) c
                    && negb (Re.atom_ok false (Re.Cls false [Re.CSpace]) c)
                    && negb (Re.atom_ok false (Re.Cls false (Re.chars "kKmM")) c))
          (lit "0123456789,") = true.
Proof. vm_compute. reflexivity. Qed.

(** Digits and commas never match the suffix pattern. *)
Lemma suffixed_none (body : str) :
  body <> [] -> Forall (fun c => In c (lit "0123456789,")) body ->
  Re.match_groups2 re_suffixed body = None.
Proof.
  intros Hne Hall.
  assert (Hcls : forall c, In c body ->
            Re.atom_ok false (Re.Cls false (Re.chars "+-")) c = false
            /\ Re.atom_ok false (Re.Cls false (Re.CDigit :: Re.chars ".,")) c = true
            /\ Re.atom_ok false (Re.Cls false [Re.CSpace]) c = false
            /\ Re.atom_ok false (Re.Cls false (Re.chars "kKmM")) c = false).
  { intros c Hc. rewrite Forall_forall in Hall.
    pose proof (in_alphabet _ _ c group_classes (Hall c Hc)) as H.
    repeat (apply andb_true_iff in H as [H ?]).
    repeat match goal with
    | H : negb _ = true |- _ => apply negb_true_iff in H
    end. auto. }
  assert (Hm : Re.match_at re_suffixed None body = None);
    [|unfold Re.match_groups2; now rewrite Hm].
  destruct body as [|c r]; [contradiction|].
  destruct (Hcls c (or_introl eq_refl)) as [Hpm [Hc _]].
  unfold Re.match_at, re_suffixed, Re.re.
  cbn [Re.branches Re.ignorecase Re.m_branches].
  rewrite m_bos_none, m_gopen. unfold Re.opt. rewrite m_opt_cons, Hpm.
  unfold Re.some. rewrite m_plus_cons, Hc.
  replace r with (r ++ []) by apply app_nil_r.
  rewrite star_fail; [reflexivity| | exact I |].
  - apply Forall_forall. intros d Hd. apply (Hcls d). now right.
  - intros s1 s2 E. rewrite app_nil_r. rewrite m_gclose.
    unfold Re.many. destruct s2 as [|d s2].
    + rewrite m_star_nil, m_gopen. reflexivity.
    + destruct (Hcls d) as [_ [_ [Hsp Hk]]].
      { right. rewrite E. apply in_or_app. right. now left. }
      rewrite m_star_cons, Hsp, m_gopen. unfold Re.one.
      now rewrite m_one_cons, Hk.
Qed.

Lemma slice_prefix (a t : str) : Re.slice (a ++ t) 0 (List.length a) = a.
Proof.
  unfold Re.slice. rewrite Nat.sub_0_r. cbn [skipn].
  rewrite firstn_app, firstn_all, Nat.sub_diag. cbn [firstn]. apply app_nil_r.
Qed.

Lemma slice_suffix (a : str) (k : char) :
  Re.slice (a ++ [k]) (List.length a) (S (List.length a)) = [k].
Proof.
  unfold Re.slice.
  replace (S (List.length a) - List.length a)%nat with 1%nat by lia.
  rewrite skipn_app, skipn_all, Nat.sub_diag. reflexivity.
Qed.

(** Digits with a suffix match it, with the digits and the suffix as the
    two groups. *)
Lemma suffixed_some (a : str) (k : char) :
  a <> [] -> all_digits a = true -> In k (lit "kKmM") ->
  Re.match_groups2 re_suffixed (a ++ [k]) = Some (a, [k]).
Proof.
  intros Hne Ha Hk.
  assert (Hcls : forall c, In c a ->
            Re.atom_ok false (Re.Cls false (Re.chars "+-")) c = false
            /\ Re.atom_ok false (Re.Cls false (Re.CDigit :: Re.chars ".,")) c = true).
  { intros c Hc. unfold all_digits in Ha. rewrite forallb_forall in Ha.
    pose proof (in_alphabet _ _ c digit_classes (digit_cases c (Ha c Hc))) as H.
    repeat (apply andb_true_iff in H as [H ?]).
    apply negb_true_iff in H. auto. }
  assert (Hm : Re.match_at re_suffixed None (a ++ [k])
               = Some (S (List.length a),
                       [S (List.length a); List.length a; List.length a; 0%nat])).
  { destruct a as [|c r]; [contradiction|].
    destruct (Hcls c (or_introl eq_refl)) as [Hpm Hc].
    unfold Re.match_at, re_suffixed, Re.re.
    cbn [Re.branches Re.ignorecase Re.m_branches app].
    rewrite m_bos_none, m_gopen. unfold Re.opt. rewrite m_opt_cons, Hpm.
    unfold Re.some. rewrite m_plus_cons, Hc.
    rewrite (star_run false _ _ r [k] (Some c) 1 [0%nat]
               (S (List.length (c :: r)),
                [S (List.length (c :: r)); List.length (c :: r);
                 List.length (c :: r); 0%nat])).
    - reflexivity.
    - apply Forall_forall. intros d Hd. apply (Hcls d). now right.
    - vm_compute in Hk.
      repeat destruct Hk as [<-|Hk]; try contradiction; reflexivity.
    - vm_compute in Hk.
      repeat destruct Hk as [<-|Hk]; try contradiction; reflexivity. }
  unfold Re.match_groups2. rewrite Hm.
  now rewrite slice_prefix, slice_suffix.
Qed.

(** *** Salary: an amount parses to its number *)

Lemma amount_text_plain (s : str) :
  Forall (fun c => In c amount_chars) s ->
  _normalize_whitespace s = s
  /\ Re.sub_del re_wrapping s = s
  /\ strip s = s
  /\ Re.search re_range s = false
  /\ Re.sub_del re_verbose s = s.
Proof.
  intros Hs.
  assert (H : forall p, (forall c, In c amount_chars ->
                                   (fun c => negb (c =? 160)%N && negb (is_space c)
                    && inert re_wrapping c && inert re_range c
                    && inert re_verbose c) c = true -> p c = true) ->
                        forallb p s = true).
  { intros p Hp. apply forallb_forall. intros c Hc.
    rewrite Forall_forall in Hs. apply Hp; [now apply Hs|].
    exact (in_alphabet _ _ c amount_chars_plain (Hs c Hc)). }
  assert (Hstrip : strip s = s).
  { apply strip_no_space, H. intros c _ Hc.
    repeat (apply andb_true_iff in Hc as [Hc ?]). assumption. }
  split; [|split; [|split; [exact Hstrip|split]]].
  - unfold _normalize_whitespace. rewrite replace_absent; [exact Hstrip|].
    apply H. intros c _ Hc.
    repeat (apply andb_true_iff in Hc as [Hc ?]). assumption.
  - apply sub_del_inert; [reflexivity|]. apply H. intros c _ Hc.
    repeat (apply andb_true_iff in Hc as [Hc ?]). assumption.
  - apply search_inert; [reflexivity|]. apply H. intros c _ Hc.
    repeat (apply andb_true_iff in Hc as [Hc ?]). assumption.
  - apply sub_del_inert; [reflexivity|]. apply H. intros c _ Hc.
    repeat (apply andb_true_iff in Hc as [Hc ?]). assumption.
Qed.

Lemma numeric_classes :
  forallb (fun c => Re.atom_ok false
                      (Re.Cls true (Re.CDigit :: Re.chars ".,kKmM-+()")) c)
          currency = true
  /\ forallb (fun c => negb (Re.atom_ok false
                         (Re.Cls true (Re.CDigit :: Re.chars ".,kKmM-+()")) c)
                       && negb (is_space c) && negb (c =? chr " ")%N
                       && inert re_parenthesized c)
             figures = true.
Proof. split; vm_compute; reflexivity. Qed.

(** Only the currency signs are not numeric. *)
Lemma keep_numeric (pre body : str) :
  signs pre -> Forall (fun c => In c figures) body ->
  Re.sub_del re_not_numeric (pre ++ body) = body.
Proof.
  intros Hp Hb. destruct numeric_classes as [Hc Hf].
  unfold re_not_numeric, Re.re, Re.none_of. rewrite sub_del_one, filter_app.
  rewrite filter_none, filter_all; [reflexivity| |].
  - apply (forallb_alphabet _ figures); [|exact Hb].
    apply forallb_forall. intros c Hin.
    pose proof (in_alphabet _ _ c Hf Hin) as H.
    repeat (apply andb_true_iff in H as [H ?]). exact H.
  - apply (forallb_alphabet _ currency); [|exact Hp].
    apply forallb_forall. intros c Hin.
    rewrite (in_alphabet _ _ c Hc Hin). reflexivity.
Qed.

Lemma figures_plain (body : str) :
  body <> [] -> Forall (fun c => In c figures) body ->
  strip body = body
  /\ replace (chr " ") [] body = body
  /\ Re.matches re_parenthesized body = false.
Proof.
  intros Hne Hb. destruct numeric_classes as [_ Hf].
  assert (H : forall c, In c body ->
            is_space c = false /\ (c =? chr " ")%N = false
            /\ inert re_parenthesized c = true).
  { intros c Hc. rewrite Forall_forall in Hb.
    pose proof (in_alphabet _ _ c Hf (Hb c Hc)) as H.
    repeat (apply andb_true_iff in H as [H ?]).
    repeat match goal with
    | H : negb _ = true |- _ => apply negb_true_iff in H
    end. auto. }
  split; [|split].
  - apply strip_no_space, forallb_forall. intros c Hc.
    destruct (H c Hc) as [-> _]. reflexivity.
  - apply replace_absent, forallb_forall. intros c Hc.
    destruct (H c Hc) as [_ [-> _]]. reflexivity.
  - destruct body as [|c r]; [contradiction|].
    unfold Re.matches. rewrite inert_miss; [reflexivity|].
    now apply (H c); left.
Qed.

(** The steps of [_parse_single_number] before the strategies, on the
    text [pre ++ body] of an amount. *)
Lemma parse_single_steps (pre body : str) :
  signs pre -> body <> [] -> Forall (fun c => In c figures) body ->
  existsb is_digit body = true ->
  _parse_single_number (pre ++ body) = _parse_single_number body.
Proof.
  intros Hp Hne Hb Hd.
  assert (Hall : Forall (fun c => In c amount_chars) (pre ++ body)).
  { apply Forall_app. split; [now apply signs_chars | now apply figures_chars]. }
  destruct (amount_text_plain _ Hall) as [Hn [_ [_ [_ Hv]]]].
  destruct (amount_text_plain body (figures_chars body Hb)) as [Hn' [_ [_ [_ Hv']]]].
  unfold _parse_single_number. rewrite Hn, Hn'.
  rewrite (not_null_word (pre ++ body)), (not_null_word body Hd).
  - rewrite Hv, Hv', (keep_numeric pre body Hp Hb).
    pose proof (keep_numeric [] body (Forall_nil _) Hb) as Hk.
    cbn [app] in Hk. rewrite Hk.
    destruct body as [|c r]; [contradiction|].
    destruct pre; reflexivity.
  - rewrite existsb_app, Hd. apply orb_true_r.
Qed.

Lemma digits_app (a b : str) :
  all_digits a = true -> all_digits b = true -> all_digits (a ++ b) = true.
Proof. unfold all_digits. intros Ha Hb. now rewrite forallb_app, Ha, Hb. Qed.

Lemma digits_plain (a : str) :
  all_digits a = true ->
  replace (chr ",") [] a = a /\ Re.sub_del re_not_decimal a = a.
Proof.
  intros Ha.
  assert (H : forall c, In c a ->
            (c =? chr ",")%N = false /\ inert re_not_decimal c = true).
  { intros c Hc. unfold all_digits in Ha. rewrite forallb_forall in Ha.
    pose proof (in_alphabet _ _ c digit_classes (digit_cases c (Ha c Hc))) as H.
    repeat (apply andb_true_iff in H as [H ?]).
    repeat match goal with
    | H : negb _ = true |- _ => apply negb_true_iff in H
    end. auto. }
  split.
  - apply replace_absent, forallb_forall. intros c Hc.
    destruct (H c Hc) as [-> _]. reflexivity.
  - apply sub_del_inert; [reflexivity|]. apply forallb_forall. intros c Hc.
    now destruct (H c Hc).
Qed.

Lemma search_digit (a : str) :
  a <> [] -> all_digits a = true -> Re.search re_digit a = true.
Proof.
  intros Hne Ha. unfold re_digit, Re.re, Re.one. rewrite search_one.
  destruct a as [|c a]; [contradiction|]. unfold all_digits in Ha.
  cbn [forallb] in Ha. apply andb_true_iff in Ha as [Hc _].
  cbn [existsb]. now rewrite digit_atom, Hc.
Qed.

(** Strategy A on digits in one or two groups. *)
Lemma parse_single_groups (a tail b : str) :
  a <> [] -> all_digits a = true -> all_digits b = true ->
  tail = [] /\ b = [] \/ tail = chr "," :: b ->
  _parse_single_number (a ++ tail) = of_Z (number (a ++ b)).
Proof.
  intros Hne Ha Hb Htail.
  assert (Hfig : Forall (fun c => In c (lit "0123456789,")) (a ++ tail)).
  { assert (Hd : forall s, all_digits s = true ->
                   Forall (fun c => In c (lit "0123456789,")) s).
    { intros s Hs. unfold all_digits in Hs.
      rewrite forallb_forall in Hs. apply Forall_forall. intros c Hc.
      pose proof (digit_cases c (Hs c Hc)) as H. vm_compute in H.
      repeat destruct H as [<-|H]; try contradiction;
        vm_compute; repeat first [left; reflexivity | right]. }
    apply Forall_app. split; [now apply Hd|].
    destruct Htail as [[-> _]| ->]; [constructor|].
    constructor; [|now apply Hd].
    vm_compute. repeat first [left; reflexivity | right]. }
  assert (Hfig' : Forall (fun c => In c figures) (a ++ tail)).
  { eapply Forall_impl; [|exact Hfig]. intros c H. vm_compute in H.
    repeat destruct H as [<-|H]; try contradiction;
      vm_compute; repeat first [left; reflexivity | right]. }
  assert (Hbody : a ++ tail <> []) by (destruct a; [contradiction | discriminate]).
  assert (Hdel : replace (chr ",") [] (a ++ tail) = a ++ b).
  { destruct (digits_plain a Ha) as [Ea _]. destruct (digits_plain b Hb) as [Eb _].
    assert (Happ : forall s t, replace (chr ",") [] (s ++ t)
                     = replace (chr ",") [] s ++ replace (chr ",") [] t)
      by (intros s t; apply flat_map_app).
    rewrite Happ, Ea. destruct Htail as [[-> ->]| ->]; [reflexivity|].
    change (replace (chr ",") [] (chr "," :: b)) with (replace (chr ",") [] b).
    now rewrite Eb. }
  destruct (amount_text_plain _ (figures_chars _ Hfig')) as [Hn [_ [_ [_ Hv]]]].
  destruct (figures_plain _ Hbody Hfig') as [Hstrip [Hsp Hpar]].
  pose proof (keep_numeric [] _ (Forall_nil _) Hfig') as Hk. cbn [app] in Hk.
  destruct (digits_plain _ (digits_app a b Ha Hb)) as [_ Hdec].
  assert (Hab : a ++ b <> []) by (destruct a; [contradiction | discriminate]).
  unfold _parse_single_number. rewrite Hn.
  rewrite not_null_word.
  2:{ rewrite existsb_app. destruct a as [|c a']; [contradiction|].
      unfold all_digits in Ha. cbn [forallb] in Ha.
      apply andb_true_iff in Ha as [Hc _]. cbn [existsb]. now rewrite Hc. }
  rewrite Hv, Hk, Hpar, Hstrip, (suffixed_none _ Hbody Hfig).
  rewrite Hsp, Hdel, Hdec, (search_digit _ Hab (digits_app a b Ha Hb)).
  rewrite (float_of_digits _ Hab (digits_app a b Ha Hb)).
  destruct (a ++ tail) as [|c r]; [contradiction|].
  destruct (a ++ b) as [|d r']; [contradiction|]. reflexivity.
Qed.

(** The suffix branch on digits with [k] or [m]. *)
Lemma parse_single_suffixed (a : str) (k : char) :
  a <> [] -> all_digits a = true -> In k (lit "kKmM") ->
  _parse_single_number (a ++ [k])
  = fmul (of_Z (number a))
         (if str_eqb (lower [k]) (lit "k") then of_Z 1000 else of_Z 1000000).
Proof.
  intros Hne Ha Hk.
  assert (Hfig' : Forall (fun c => In c figures) (a ++ [k])).
  { apply Forall_app. split; [now apply digits_figures|].
    constructor; [now apply suffix_figure | constructor]. }
  assert (Hbody : a ++ [k] <> []) by (destruct a; [contradiction | discriminate]).
  destruct (amount_text_plain _ (figures_chars _ Hfig')) as [Hn [_ [_ [_ Hv]]]].
  destruct (figures_plain _ Hbody Hfig') as [Hstrip [Hsp Hpar]].
  pose proof (keep_numeric [] _ (Forall_nil _) Hfig') as Hkeep. cbn [app] in Hkeep.
  destruct (digits_plain a Ha) as [Hcomma _].
  destruct (figures_plain a Hne (digits_figures a Ha)) as [_ [Hspace _]].
  unfold _parse_single_number. rewrite Hn.
  rewrite not_null_word.
  2:{ rewrite existsb_app. destruct a as [|c a']; [contradiction|].
      unfold all_digits in Ha. cbn [forallb] in Ha.
      apply andb_true_iff in Ha as [Hc _]. cbn [existsb]. now rewrite Hc. }
  rewrite Hv, Hkeep, Hpar, Hstrip, (suffixed_some a k Hne Ha Hk).
  rewrite Hcomma, Hspace, (float_of_digits a Hne Ha).
  destruct (a ++ [k]) as [|c r]; [contradiction|]. cbn [salary_parser_int.is_empty orb].
  vm_compute in Hk.
  repeat destruct Hk as [<-|Hk]; try contradiction; reflexivity.
Qed.

Lemma digits_exist (a : str) :
  a <> [] -> all_digits a = true -> existsb is_digit a = true.
Proof.
  intros Hne Ha. destruct a as [|c a]; [contradiction|]. unfold all_digits in Ha.
  cbn [forallb] in Ha. apply andb_true_iff in Ha as [Hc _].
  cbn [existsb]. now rewrite Hc.
Qed.

Lemma parse_single_amount (s : str) (v : float) :
  amount s v -> _parse_single_number s = v.
Proof.
  intros H. destruct H as [pre a Hp Hne Ha|pre a b Hp Hne Ha Hb
                          |pre a k Hp Hne Ha Hk|pre a k Hp Hne Ha Hk].
  - rewrite (parse_single_steps pre a Hp Hne (digits_figures a Ha)
               (digits_exist a Hne Ha)).
    pose proof (parse_single_groups a [] [] Hne Ha eq_refl
                  (or_introl (conj eq_refl eq_refl))) as H.
    now rewrite app_nil_r in H.
  - rewrite (parse_single_steps pre (a ++ chr "," :: b) Hp).
    + exact (parse_single_groups a (chr "," :: b) b Hne Ha Hb (or_intror eq_refl)).
    + destruct a; [contradiction | discriminate].
    + apply Forall_app. split; [now apply digits_figures|].
      constructor; [|now apply digits_figures].
      vm_compute. repeat first [left; reflexivity | right].
    + rewrite existsb_app, (digits_exist a Hne Ha). reflexivity.
  - rewrite (parse_single_steps pre (a ++ [k]) Hp).
    + rewrite (parse_single_suffixed a k Hne Ha).
      * vm_compute in Hk.
        repeat destruct Hk as [<-|Hk]; try contradiction; reflexivity.
      * vm_compute in Hk. vm_compute. tauto.
    + destruct a; [contradiction | discriminate].
    + apply Forall_app. split; [now apply digits_figures|].
      constructor; [|constructor]. apply suffix_figure.
      vm_compute in Hk. vm_compute. tauto.
    + rewrite existsb_app, (digits_exist a Hne Ha). reflexivity.
  - rewrite (parse_single_steps pre (a ++ [k]) Hp).
    + rewrite (parse_single_suffixed a k Hne Ha).
      * vm_compute in Hk.
        repeat destruct Hk as [<-|Hk]; try contradiction; reflexivity.
      * vm_compute in Hk. vm_compute. tauto.
    + destruct a; [contradiction | discriminate].
    + apply Forall_app. split; [now apply digits_figures|].
      constructor; [|constructor]. apply suffix_figure.
      vm_compute in Hk. vm_compute. tauto.
    + rewrite existsb_app, (digits_exist a Hne Ha). reflexivity.
Qed.

Lemma of_Z_known (z : Z) : isna (of_Z z) = false.
Proof. apply round_not_nan. Qed.

Lemma scaled_known (z n : Z) : 0 < n < 2 ^ 53 -> isna (fmul (of_Z z) (of_Z n)) = false.
Proof.
  intros Hn. rewrite (of_Z_small n) by lia. pose proof ONE_pos as HO.
  pose proof (of_Z_known z) as Hz.
  destruct (of_Z z) as [|s|x]; [discriminate| |].
  - cbn [fmul]. assert ((n * ONE =? 0) = false) as -> by (apply Z.eqb_neq; nia).
    reflexivity.
  - cbn [fmul]. apply round_not_nan.
Qed.

Lemma amount_known (s : str) (v : float) : amount s v -> isna v = false.
Proof.
  intros H. destruct H.
  - apply of_Z_known.
  - apply of_Z_known.
  - apply scaled_known. lia.
  - apply scaled_known. lia.
Qed.

Lemma amount_nonempty (s : str) (v : float) : amount s v -> s <> [].
Proof.
  intros H. destruct H as [pre a _ Hne _|pre a b _ Hne _ _
                          |pre a k _ Hne _ _|pre a k _ Hne _ _];
    destruct pre, a; try contradiction; discriminate.
Qed.

(** The number pattern on the digits of an amount and what follows them. *)
Lemma number_match_plain (a : str) (p : option char) :
  a <> [] -> all_digits a = true ->
  Re.match_at re_number p a = Some (List.length a, []).
Proof.
  intros Hne Ha.
  pose proof (number_match a [] [] p Hne Ha I) as H.
  cbn [app List.length] in H. rewrite app_nil_r, Nat.add_0_r in H.
  apply H. intros q. apply number_tail_nil.
Qed.

Lemma number_match_group (a b rest : str) (p : option char) :
  a <> [] -> all_digits a = true -> all_digits b = true ->
  rest = [] \/ (exists rest', rest = chr "," :: rest') ->
  Re.match_at re_number p ((a ++ chr "," :: b) ++ rest)
  = Some (List.length (a ++ chr "," :: b), []).
Proof.
  intros Hne Ha Hb Hrest.
  pose proof (number_match a (chr "," :: b) rest p Hne Ha eq_refl) as H.
  rewrite <- app_assoc, length_app. apply H. intros q. cbn [app List.length].
  rewrite (number_tail_group b rest q (List.length a) [] Hb Hrest).
  now rewrite Nat.add_succ_r.
Qed.

Lemma number_match_suffix (a : str) (k : char) (p : option char) :
  a <> [] -> all_digits a = true -> In k (lit "kKmM") ->
  Re.match_at re_number p (a ++ [k]) = Some (List.length (a ++ [k]), []).
Proof.
  intros Hne Ha Hk.
  pose proof (number_match a [k] [] p Hne Ha) as H.
  cbn [app List.length] in H. rewrite length_app. cbn [List.length]. apply H.
  - vm_compute in Hk.
    repeat destruct Hk as [<-|Hk]; try contradiction; reflexivity.
  - intros q. rewrite (number_tail_suffix k q (List.length a) [] Hk).
    now rewrite Nat.add_1_r.
Qed.

Lemma amount_one_token (s : str) (v : float) :
  amount s v -> exists body, Re.findall re_number s = [body].
Proof.
  intros H. destruct H as [pre a Hp Hne Ha|pre a b Hp Hne Ha Hb
                          |pre a k Hp Hne Ha Hk|pre a k Hp Hne Ha Hk].
  - exists a. apply (number_tokens_one pre a Hp Hne).
    intros p. now apply number_match_plain.
  - exists (a ++ chr "," :: b). apply (number_tokens_one pre _ Hp).
    + destruct a; [contradiction | discriminate].
    + intros p.
      pose proof (number_match_group a b [] p Hne Ha Hb (or_introl eq_refl)) as H.
      now rewrite app_nil_r in H.
  - exists (a ++ [k]). apply (number_tokens_one pre _ Hp).
    + destruct a; [contradiction | discriminate].
    + intros p. apply number_match_suffix; auto.
      vm_compute in Hk. vm_compute. tauto.
  - exists (a ++ [k]). apply (number_tokens_one pre _ Hp).
    + destruct a; [contradiction | discriminate].
    + intros p. apply number_match_suffix; auto.
      vm_compute in Hk. vm_compute. tauto.
Qed.

(** An amount alone in a cell: no range, one token. *)
Lemma amount_field (s : str) (v : float) :
  amount s v -> parse_salary_field (Some s) = (v, v, v).
Proof.
  intros H. pose proof (parse_single_amount s v H) as Hsingle.
  destruct (amount_chars_of s v H) as [Hchars _].
  destruct (amount_text_plain s Hchars) as [Hn [Hw [Hstrip [Hrange _]]]].
  destruct (amount_one_token s v H) as [body Htok].
  pose proof (amount_nonempty s v H) as Hne.
  unfold parse_salary_field. cbv zeta. rewrite Hn, Hw, Hstrip, Hrange, Htok.
  rewrite Hsingle, (amount_known s v H).
  destruct s; [contradiction | reflexivity].
Qed.

(** X9: an amount written as digits, as digits in two groups around a
    comma, or as digits with the suffix k or m, after any currency signs,
    parses to its number: [_parse_single_number] returns it (the comma is
    dropped as a thousands separator, k multiplies by 1000 and m by
    1000000), and [parse_salary_field] returns it as minimum, maximum and
    mean; it is never NaN. *)
Theorem amount_parses (s : str) (v : float) :
  amount s v ->
  _parse_single_number s = v
  /\ parse_salary_field (Some s) = (v, v, v)
  /\ isna v = false.
Proof.
  intros H. split; [|split].
  - exact (parse_single_amount s v H).
  - exact (amount_field s v H).
  - exact (amount_known s v H).
Qed.

Lemma amount_parses_witness :
  amount (lit "$50,000") (of_Z 50000)
  /\ _parse_single_number (lit "$50,000") = of_Z 50000
  /\ parse_salary_field (Some (lit "$50,000")) = (of_Z 50000, of_Z 50000, of_Z 50000)
  /\ isna (of_Z 50000) = false.
Proof.
  assert (H : amount (lit "$50,000") (of_Z 50000)).
  { apply (amount_grouped (lit "$") (lit "50") (lit "000")).
    - repeat constructor.
    - discriminate.
    - reflexivity.
    - reflexivity. }
  split; [exact H|]. exact (amount_parses (lit "$50,000") (of_Z 50000) H).
Defined.

(** *** Salary: ranges of two amounts *)

Lemma range_chars_plain :
  forallb (fun c => negb (c =? 160)%N && negb (is_space c)
                    && inert re_wrapping c)
          (dashes ++ amount_chars) = true.
Proof. vm_compute. reflexivity. Qed.

Lemma range_text_plain (s : str) :
  Forall (fun c => In c (dashes ++ amount_chars)) s ->
  _normalize_whitespace s = s /\ Re.sub_del re_wrapping s = s /\ strip s = s.
Proof.
  intros Hs.
  assert (H : forall c, In c s ->
            (c =? 160)%N = false /\ is_space c = false
            /\ inert re_wrapping c = true).
  { intros c Hc. rewrite Forall_forall in Hs.
    pose proof (in_alphabet _ _ c range_chars_plain (Hs c Hc)) as H.
    repeat (apply andb_true_iff in H as [H ?]).
    repeat match goal with
    | H : negb _ = true |- _ => apply negb_true_iff in H
    end. auto. }
  assert (Hstrip : strip s = s).
  { apply strip_no_space, forallb_forall. intros c Hc.
    destruct (H c Hc) as [_ [-> _]]. reflexivity. }
  split; [|split; [|exact Hstrip]].
  - unfold _normalize_whitespace. rewrite replace_absent; [exact Hstrip|].
    apply forallb_forall. intros c Hc. destruct (H c Hc) as [-> _]. reflexivity.
  - apply sub_del_inert; [reflexivity|]. apply forallb_forall. intros c Hc.
    now destruct (H c Hc) as [_ [_ ?]].
Qed.

Lemma range_hit (d : char) (prev : option char) (rest : str) :
  In d dashes -> Re.match_at re_range prev (d :: rest) = Some (1%nat, []).
Proof.
  intros Hd. unfold Re.match_at, re_range, Re.re.
  cbn [Re.branches Re.ignorecase Re.m_branches].
  rewrite (leading_fail false _ (Re.Lit (chr "t")) prev 0 d rest []).
  - vm_compute in Hd.
    repeat destruct Hd as [<-|Hd]; try contradiction; reflexivity.
  - reflexivity.
  - vm_compute in Hd.
    repeat destruct Hd as [<-|Hd]; try contradiction; reflexivity.
Qed.

Lemma amount_inert_range (s : str) :
  Forall (fun c => In c amount_chars) s -> forallb (inert re_range) s = true.
Proof.
  intros Hs. apply forallb_forall. intros c Hc. rewrite Forall_forall in Hs.
  pose proof (in_alphabet _ _ c amount_chars_plain (Hs c Hc)) as H.
  repeat (apply andb_true_iff in H as [H ?]). assumption.
Qed.

(** The range pattern finds the dash between two amounts, and only it. *)
Lemma range_scan (s1 s2 : str) (d : char) :
  Forall (fun c => In c amount_chars) s1 ->
  Forall (fun c => In c amount_chars) s2 ->
  In d dashes ->
  Re.finditer re_range (s1 ++ d :: s2) = ([(s1, [d])], s2).
Proof.
  intros H1 H2 Hd. unfold Re.finditer.
  rewrite (scan_misses re_range s1 (d :: s2) None []).
  - pose proof (scan_hit re_range (after s1 None) d [] s2 (rev s1 ++ []) []) as H.
    cbn [app List.length after fold_left] in H. rewrite H by now apply range_hit.
    rewrite (scan_inert re_range s2 (Some d) [] eq_refl (amount_inert_range s2 H2)).
    cbn [fst snd rev app]. now rewrite app_nil_r, rev_involutive.
  - apply Forall_forall. intros c Hc p rest. apply inert_miss.
    pose proof (amount_inert_range s1 H1) as Hi. rewrite forallb_forall in Hi.
    now apply Hi.
Qed.

Lemma flt_total (a b : float) :
  isna a = false -> isna b = false -> flt a b = false -> flt b a = false -> a = b.
Proof.
  destruct a as [|[]|x], b as [|[]|y]; simpl; try discriminate; try reflexivity.
  intros _ _ H1 H2. apply Z.ltb_ge in H1, H2. f_equal. lia.
Qed.

Lemma flt_asym (a b : float) : flt a b = true -> flt b a = false.
Proof.
  destruct a as [|[]|x], b as [|[]|y]; simpl; try discriminate; try reflexivity.
  intros H. apply Z.ltb_lt in H. apply Z.ltb_ge. lia.
Qed.

Lemma fadd_comm (a b : float) : fadd a b = fadd b a.
Proof.
  destruct a as [|[]|x], b as [|[]|y]; simpl; try reflexivity.
  now rewrite Z.add_comm.
Qed.

(** The least, the greatest and the mean of two numbers do not depend on
    their order. *)
Lemma span_of_swap (a b : float) :
  isna a = false -> isna b = false -> span_of a [b] = span_of b [a].
Proof.
  intros Ha Hb. unfold span_of, py_min, py_max. cbn [fold_left].
  destruct (flt a b) eqn:E1.
  - rewrite (flt_asym a b E1). reflexivity.
  - destruct (flt b a) eqn:E2; [reflexivity|].
    now rewrite (flt_total a b Ha Hb E1 E2).
Qed.

Lemma parsed_two_amounts (s1 s2 : str) (v1 v2 : float) :
  amount s1 v1 -> amount s2 v2 -> parsed_numbers [s1; s2] = [v1; v2].
Proof.
  intros A1 A2. unfold parsed_numbers. cbn [map filter].
  rewrite (parse_single_amount s1 v1 A1), (parse_single_amount s2 v2 A2).
  unfold notna. now rewrite (amount_known s1 v1 A1), (amount_known s2 v2 A2).
Qed.

Lemma amount_strip (s : str) (v : float) : amount s v -> strip s = s.
Proof.
  intros H. destruct (amount_chars_of s v H) as [Hc _].
  now destruct (amount_text_plain s Hc) as [_ [_ [? _]]].
Qed.

Lemma range_chars_of (s1 s2 : str) (d : char) :
  Forall (fun c => In c amount_chars) s1 ->
  Forall (fun c => In c amount_chars) s2 ->
  In d dashes ->
  Forall (fun c => In c (dashes ++ amount_chars)) (s1 ++ d :: s2).
Proof.
  intros H1 H2 Hd. apply Forall_app. split; [|constructor].
  - eapply Forall_impl; [|exact H1]. intros c Hc. apply in_or_app. now right.
  - apply in_or_app. now left.
  - eapply Forall_impl; [|exact H2]. intros c Hc. apply in_or_app. now right.
Qed.

Lemma lstrip_spaces (sp s : str) :
  spaces sp -> starts_ok s -> lstrip_by is_space (sp ++ s) = s.
Proof.
  intros Hsp Hs. induction Hsp as [|c sp -> Hsp IH]; [now apply lstrip_id|].
  exact IH.
Qed.

Lemma strip_spaces_left (sp s : str) :
  spaces sp -> trimmed s -> strip (sp ++ s) = s.
Proof.
  intros Hsp [H1 H2]. unfold strip. rewrite (lstrip_spaces sp s Hsp H1).
  unfold rstrip_by. rewrite (lstrip_id _ H2). apply rev_involutive.
Qed.

Lemma strip_spaces_right (sp s : str) :
  spaces sp -> trimmed s -> strip (s ++ sp) = s.
Proof.
  intros Hsp [H1 H2]. unfold strip.
  rewrite (lstrip_id _ (starts_ok_app s sp H1)).
  unfold rstrip_by. rewrite rev_app_distr, lstrip_spaces; [apply rev_involutive| |exact H2].
  apply Forall_forall. intros c Hc. apply in_rev in Hc.
  unfold spaces in Hsp. rewrite Forall_forall in Hsp. now apply Hsp.
Qed.

Lemma amount_trimmed (s : str) (v : float) : amount s v -> trimmed s.
Proof.
  intros H. rewrite <- (amount_strip s v H). apply strip_is_trimmed.
  rewrite (amount_strip s v H). exact (amount_nonempty s v H).
Qed.

Lemma separator_chars_plain :
  forallb (fun c => negb (c =? 160)%N && inert re_wrapping c)
          (lit " to" ++ dashes ++ amount_chars) = true
  /\ inert re_range space = true.
Proof. split; vm_compute; reflexivity. Qed.

Lemma separator_chars (mid : str) :
  separator mid -> Forall (fun c => In c (lit " to" ++ dashes ++ amount_chars)) mid.
Proof.
  assert (Hsp : forall sp, spaces sp ->
            Forall (fun c => In c (lit " to" ++ dashes ++ amount_chars)) sp).
  { intros sp H. eapply Forall_impl; [|exact H]. intros c ->. now left. }
  intros H. destruct H as [sp1 sp2 d H1 H2 Hd|sp1 sp2 H1 H2 _ _].
  - apply Forall_app. split; [now apply Hsp|]. constructor; [|now apply Hsp].
    apply in_or_app. right. apply in_or_app. now left.
  - apply Forall_app. split; [now apply Hsp|].
    apply Forall_app. split; [|now apply Hsp].
    repeat constructor; vm_compute; tauto.
Qed.

(** The text of a range is left as it is before the split. *)
Lemma range_text_whole (s1 mid s2 : str) (v1 v2 : float) :
  amount s1 v1 -> amount s2 v2 -> separator mid ->
  _normalize_whitespace (s1 ++ mid ++ s2) = s1 ++ mid ++ s2
  /\ Re.sub_del re_wrapping (s1 ++ mid ++ s2) = s1 ++ mid ++ s2
  /\ strip (s1 ++ mid ++ s2) = s1 ++ mid ++ s2.
Proof.
  intros A1 A2 Hmid. destruct separator_chars_plain as [Hplain _].
  assert (Hall : Forall (fun c => In c (lit " to" ++ dashes ++ amount_chars))
                   (s1 ++ mid ++ s2)).
  { assert (Ham : forall s v, amount s v ->
              Forall (fun c => In c (lit " to" ++ dashes ++ amount_chars)) s).
    { intros s v A. destruct (amount_chars_of s v A) as [C _].
      eapply Forall_impl; [|exact C]. intros c Hc.
      apply in_or_app. right. apply in_or_app. now right. }
    apply Forall_app. split; [now apply (Ham s1 v1)|].
    apply Forall_app. split; [now apply separator_chars | now apply (Ham s2 v2)]. }
  assert (H : forall c, In c (s1 ++ mid ++ s2) ->
            (c =? 160)%N = false /\ inert re_wrapping c = true).
  { intros c Hc. rewrite Forall_forall in Hall.
    pose proof (in_alphabet _ _ c Hplain (Hall c Hc)) as H.
    apply andb_true_iff in H as [H1 H2]. apply negb_true_iff in H1. auto. }
  assert (Hstrip : strip (s1 ++ mid ++ s2) = s1 ++ mid ++ s2).
  { apply strip_trimmed. destruct (amount_trimmed s1 v1 A1) as [T1 _].
    destruct (amount_trimmed s2 v2 A2) as [_ T2]. split.
    - now apply starts_ok_app.
    - rewrite !rev_app_distr, <- app_assoc. now apply starts_ok_app. }
  split; [|split; [|exact Hstrip]].
  - unfold _normalize_whitespace. rewrite replace_absent; [exact Hstrip|].
    apply forallb_forall. intros c Hc. destruct (H c Hc) as [-> _]. reflexivity.
  - apply sub_del_inert; [reflexivity|]. apply forallb_forall. intros c Hc.
    now destruct (H c Hc).
Qed.

Lemma spaces_inert_range (sp : str) :
  spaces sp -> forallb (inert re_range) sp = true.
Proof.
  intros H. apply forallb_forall. intros c Hc. unfold spaces in H.
  rewrite Forall_forall in H. rewrite (H c Hc). now destruct separator_chars_plain.
Qed.

Lemma after_spaces (sp : str) (prev : option char) :
  spaces sp -> sp <> [] -> after sp prev = Some space.
Proof.
  intros H Hne. rewrite after_last. destruct (rev sp) as [|c r] eqn:E.
  - apply (f_equal (@rev char)) in E. rewrite rev_involutive in E. contradiction.
  - f_equal. unfold spaces in H. rewrite Forall_forall in H. apply H.
    apply in_rev. rewrite E. now left.
Qed.

(** The range pattern finds the separator between two amounts, and only
    it: the parts are the amounts with the spaces next to them. *)
Lemma range_scan_separator (s1 s2 mid : str) (v1 v2 : float) :
  amount s1 v1 -> amount s2 v2 -> separator mid ->
  exists sp1 sep sp2,
    spaces sp1 /\ spaces sp2
    /\ Re.finditer re_range (s1 ++ mid ++ s2) = ([(s1 ++ sp1, sep)], sp2 ++ s2).
Proof.
  intros A1 A2 Hmid.
  destruct (amount_chars_of s1 v1 A1) as [C1 _].
  destruct (amount_chars_of s2 v2 A2) as [C2 _].
  assert (Hpre : forall sp1, spaces sp1 ->
            Forall (fun c => forall p rest, Re.match_at re_range p (c :: rest) = None)
                   (s1 ++ sp1)).
  { intros sp1 H1. apply Forall_forall. intros c Hc p rest. apply inert_miss.
    assert (Hi : forallb (inert re_range) (s1 ++ sp1) = true)
      by (rewrite forallb_app, (amount_inert_range s1 C1), (spaces_inert_range sp1 H1);
          reflexivity).
    rewrite forallb_forall in Hi. now apply Hi. }
  assert (Hpost : forall sp2 p, spaces sp2 ->
            Re.scan re_range p 0 (sp2 ++ s2) [] = ([], sp2 ++ s2)).
  { intros sp2 p H2. apply (scan_inert re_range (sp2 ++ s2) p [] eq_refl).
    now rewrite forallb_app, (amount_inert_range s2 C2), (spaces_inert_range sp2 H2). }
  destruct Hmid as [sp1 sp2 d H1 H2 Hd|sp1 sp2 H1 H2 N1 N2].
  - exists sp1, [d], sp2. split; [exact H1|]. split; [exact H2|].
    unfold Re.finditer.
    replace (s1 ++ (sp1 ++ d :: sp2) ++ s2) with ((s1 ++ sp1) ++ d :: (sp2 ++ s2))
      by (now rewrite <- !app_assoc).
    rewrite (scan_misses re_range (s1 ++ sp1) _ None [] (Hpre sp1 H1)).
    pose proof (scan_hit re_range (after (s1 ++ sp1) None) d [] (sp2 ++ s2)
                  (rev (s1 ++ sp1) ++ []) []) as H.
    cbn [app List.length after fold_left] in H. rewrite H by now apply range_hit.
    rewrite (Hpost sp2 _ H2). cbn [fst snd]. now rewrite app_nil_r, rev_involutive.
  - exists sp1, (lit "to"), sp2. split; [exact H1|]. split; [exact H2|].
    unfold Re.finditer.
    replace (s1 ++ (sp1 ++ lit "to" ++ sp2) ++ s2)
      with ((s1 ++ sp1) ++ chr "t" :: [chr "o"] ++ (sp2 ++ s2))
      by (now rewrite <- !app_assoc).
    rewrite (scan_misses re_range (s1 ++ sp1) _ None [] (Hpre sp1 H1)).
    rewrite (scan_hit re_range _ (chr "t") [chr "o"] (sp2 ++ s2) _ []).
    + rewrite (Hpost sp2 _ H2). cbn [fst snd]. now rewrite app_nil_r, rev_involutive.
    + rewrite after_app, (after_spaces sp1 _ H1 N1).
      destruct sp2 as [|c sp2']; [contradiction|].
      inversion H2 as [|? ? Hc _]; subst. reflexivity.
Qed.

Lemma range_of_amounts (s1 s2 mid : str) (v1 v2 : float) :
  amount s1 v1 -> amount s2 v2 -> separator mid ->
  parse_salary_field (Some (s1 ++ mid ++ s2)) = span_of v1 [v2].
Proof.
  intros A1 A2 Hmid.
  destruct (range_text_whole s1 mid s2 v1 v2 A1 A2 Hmid) as [Hn [Hw Hs]].
  destruct (range_scan_separator s1 s2 mid v1 v2 A1 A2 Hmid)
    as [sp1 [sep [sp2 [H1 [H2 Hscan]]]]].
  pose proof (amount_nonempty s1 v1 A1) as N1.
  pose proof (amount_nonempty s2 v2 A2) as N2.
  pose proof (strip_spaces_right sp1 s1 H1 (amount_trimmed s1 v1 A1)) as E1.
  pose proof (strip_spaces_left sp2 s2 H2 (amount_trimmed s2 v2 A2)) as E2.
  unfold parse_salary_field. cbv zeta. rewrite Hn, Hw, Hs.
  unfold Re.search, Re.split. rewrite Hscan. cbn [fst snd map app filter].
  rewrite E1, E2.
  assert (salary_parser_int.is_empty s1 = false) as -> by (now destruct s1).
  assert (salary_parser_int.is_empty s2 = false) as -> by (now destruct s2).
  cbn [negb map]. rewrite E1, E2.
  rewrite (parsed_two_amounts _ _ v1 v2 A1 A2).
  destruct (s1 ++ mid ++ s2) eqn:E; [|reflexivity].
  destruct s1; [contradiction | discriminate].
Qed.

(** X10: two amounts around a hyphen or dash, with or without spaces, or
    around the word [to] between spaces, parse to the least and the
    greatest of the two numbers and the float mean of these, whichever
    amount is written first. *)
Theorem range_parses_in_any_order (s1 s2 mid : str) (v1 v2 : float) :
  amount s1 v1 -> amount s2 v2 -> separator mid ->
  parse_salary_field (Some (s1 ++ mid ++ s2)) = span_of v1 [v2]
  /\ parse_salary_field (Some (s2 ++ mid ++ s1)) = span_of v1 [v2]
  /\ span_of v1 [v2]
     = (if flt v2 v1 then v2 else v1, if flt v1 v2 then v2 else v1,
        fdiv (fadd (if flt v2 v1 then v2 else v1) (if flt v1 v2 then v2 else v1))
             (of_Z 2)).
Proof.
  intros A1 A2 Hmid. split; [|split].
  - exact (range_of_amounts s1 s2 mid v1 v2 A1 A2 Hmid).
  - rewrite (range_of_amounts s2 s1 mid v2 v1 A2 A1 Hmid).
    symmetry. apply span_of_swap; [exact (amount_known s1 v1 A1)|].
    exact (amount_known s2 v2 A2).
  - reflexivity.
Qed.

Lemma range_parses_in_any_order_witness :
  amount (lit "60k") (fmul (of_Z 60) (of_Z 1000))
  /\ amount (lit "$40,000") (of_Z 40000)
  /\ separator (lit " to ")
  /\ parse_salary_field (Some (lit "60k to $40,000"))
     = span_of (fmul (of_Z 60) (of_Z 1000)) [of_Z 40000]
  /\ parse_salary_field (Some (lit "$40,000 to 60k"))
     = span_of (fmul (of_Z 60) (of_Z 1000)) [of_Z 40000]
  /\ span_of (fmul (of_Z 60) (of_Z 1000)) [of_Z 40000]
     = (of_Z 40000, of_Z 60000, of_Z 50000).
Proof.
  assert (H1 : amount (lit "60k") (fmul (of_Z 60) (of_Z 1000))).
  { apply (amount_thousands [] (lit "60") (chr "k")).
    - constructor.
    - discriminate.
    - reflexivity.
    - left. reflexivity. }
  assert (H2 : amount (lit "$40,000") (of_Z 40000)).
  { apply (amount_grouped (lit "$") (lit "40") (lit "000")).
    - repeat constructor.
    - discriminate.
    - reflexivity.
    - reflexivity. }
  assert (H3 : separator (lit " to ")).
  { apply (separator_to [space] [space]).
    - repeat constructor.
    - repeat constructor.
    - discriminate.
    - discriminate. }
  split; [exact H1|]. split; [exact H2|]. split; [exact H3|].
  destruct (range_parses_in_any_order (lit "60k") (lit "$40,000") (lit " to ") _ _
              H1 H2 H3) as [E1 [E2 _]].
  split; [exact E1|]. split; [exact E2|]. vm_compute. reflexivity.
Defined.

(** *** Salary: a leading minus sign *)

Lemma dash_scan (s : str) (d : char) :
  Forall (fun c => In c amount_chars) s -> In d dashes ->
  Re.finditer re_range (d :: s) = ([([], [d])], s).
Proof. intros Hs Hd. exact (range_scan [] s d (Forall_nil _) Hs Hd). Qed.

(** X11: a hyphen or dash in front of an amount is read as a range
    separator with nothing before it: the cell parses to the amount itself,
    as if the sign were not there. *)
Theorem leading_dash_is_dropped (s : str) (v : float) (d : char) :
  amount s v -> In d dashes ->
  parse_salary_field (Some (d :: s)) = (v, v, v)
  /\ parse_salary_field (Some (d :: s)) = parse_salary_field (Some s).
Proof.
  intros A Hd.
  assert (E : parse_salary_field (Some (d :: s)) = (v, v, v)).
  { destruct (amount_chars_of s v A) as [C _].
    pose proof (range_chars_of [] s d (Forall_nil _) C Hd) as Hall.
    cbn [app] in Hall.
    destruct (range_text_plain _ Hall) as [Hn [Hw Hs]].
    pose proof (amount_nonempty s v A) as N.
    unfold parse_salary_field. cbv zeta. rewrite Hn, Hw, Hs.
    unfold Re.search, Re.split. rewrite (dash_scan s d C Hd).
    cbn [fst snd map app filter]. rewrite (amount_strip s v A).
    change (strip []) with (@nil char).
    cbn [salary_parser_int.is_empty negb].
    destruct s as [|c r]; [contradiction|].
    cbn [salary_parser_int.is_empty negb map].
    rewrite (amount_strip _ v A). unfold parsed_numbers. cbn [map filter].
    rewrite (parse_single_amount _ v A). unfold notna.
    now rewrite (amount_known _ v A). }
  split; [exact E|]. rewrite E. symmetry. exact (amount_field s v A).
Qed.

Lemma leading_dash_is_dropped_witness :
  amount (lit "$5,000") (of_Z 5000)
  /\ parse_salary_field (Some (lit "-$5,000")) = (of_Z 5000, of_Z 5000, of_Z 5000)
  /\ parse_salary_field (Some (lit "-$5,000"))
     = parse_salary_field (Some (lit "$5,000")).
Proof.
  assert (H : amount (lit "$5,000") (of_Z 5000)).
  { apply (amount_grouped (lit "$") (lit "5") (lit "000")).
    - repeat constructor.
    - discriminate.
    - reflexivity.
    - reflexivity. }
  split; [exact H|].
  exact (leading_dash_is_dropped (lit "$5,000") (of_Z 5000) (chr "-") H
           (or_introl eq_refl)).
Defined.

(** *** Salary: three groups of digits *)

Lemma number_tokens_two (pre a b c : str) :
  signs pre -> a <> [] -> c <> [] ->
  all_digits a = true -> all_digits b = true -> all_digits c = true ->
  Re.findall re_number (pre ++ (a ++ chr "," :: b) ++ chr "," :: c)
  = [a ++ chr "," :: b; c].
Proof.
  intros Hp Ha0 Hc0 Ha Hb Hc. unfold Re.findall, Re.finditer.
  rewrite (scan_misses re_number pre _ None [] (signs_miss pre Hp)).
  assert (Hm1 : forall p, Re.match_at re_number p ((a ++ chr "," :: b) ++ chr "," :: c)
                          = Some (List.length (a ++ chr "," :: b), [])).
  { intros p. apply number_match_group; auto. right. now exists c. }
  destruct (a ++ chr "," :: b) as [|x m] eqn:E.
  { destruct a; [contradiction | discriminate]. }
  cbn [app]. cbn [app List.length] in Hm1.
  rewrite (scan_hit re_number _ x m (chr "," :: c) _ [] (Hm1 _)).
  rewrite scan_miss by (apply number_miss; now left).
  destruct c as [|y m']; [contradiction|].
  pose proof (scan_hit re_number (Some (chr ",")) y m' [] [chr ","] []) as H.
  rewrite app_nil_r in H. rewrite H by (now apply (number_match_plain (y :: m'))).
  rewrite scan_end by apply number_end. reflexivity.
Qed.

(** X12: in digits written in three groups around two commas, as in
    [1,000,000], the number pattern takes the first two groups as one token
    and the third as another, so [parse_salary_field] returns the range of
    the two numbers instead of one amount. *)
Theorem third_group_is_read_as_a_second_number (pre a b c : str) :
  signs pre -> a <> [] -> c <> [] ->
  all_digits a = true -> all_digits b = true -> all_digits c = true ->
  parse_salary_field (Some (pre ++ (a ++ chr "," :: b) ++ chr "," :: c))
  = span_of (of_Z (number (a ++ b))) [of_Z (number c)].
Proof.
  intros Hp Ha0 Hc0 Ha Hb Hc.
  assert (Hcomma : In (chr ",") amount_chars)
    by (vm_compute; repeat first [left; reflexivity | right]).
  assert (Hchars : Forall (fun x => In x amount_chars)
                     (pre ++ (a ++ chr "," :: b) ++ chr "," :: c)).
  { apply Forall_app. split; [now apply signs_chars|].
    apply Forall_app. split.
    - apply Forall_app. split; [now apply digits_chars|].
      constructor; [exact Hcomma | now apply digits_chars].
    - constructor; [exact Hcomma | now apply digits_chars]. }
  destruct (amount_text_plain _ Hchars) as [Hn [Hw [Hstrip [Hrange _]]]].
  unfold parse_salary_field. cbv zeta. rewrite Hn, Hw, Hstrip, Hrange.
  rewrite (number_tokens_two pre a b c Hp Ha0 Hc0 Ha Hb Hc).
  cbn [List.length Nat.leb]. unfold parsed_numbers. cbn [map filter].
  rewrite (parse_single_groups a (chr "," :: b) b Ha0 Ha Hb (or_intror eq_refl)).
  pose proof (parse_single_groups c [] [] Hc0 Hc eq_refl
                (or_introl (conj eq_refl eq_refl))) as H.
  rewrite !app_nil_r in H. rewrite H.
  unfold notna. rewrite !of_Z_known. cbn [negb].
  destruct (pre ++ (a ++ chr "," :: b) ++ chr "," :: c) eqn:E; [|reflexivity].
  destruct pre, a; try contradiction; discriminate.
Qed.

Lemma third_group_is_read_as_a_second_number_witness :
  parse_salary_field (Some (lit "$1,000,000"))
  = span_of (of_Z 1000) [of_Z 0]
  /\ span_of (of_Z 1000) [of_Z 0] = (of_Z 0, of_Z 1000, of_Z 500).
Proof.
  split; [|vm_compute; reflexivity].
  apply (third_group_is_read_as_a_second_number
           (lit "$") (lit "1") (lit "000") (lit "000")).
  - repeat constructor.
  - discriminate.
  - discriminate.
  - reflexivity.
  - reflexivity.
  - reflexivity.
Defined.

(** *** Location: normalising twice *)

Lemma normalize_state_in_set (tok ab : str) :
  _normalize_state tok = Some ab -> In ab _state_abbrev_set.
Proof.
  unfold _normalize_state.
  destruct (location_cleaner.is_empty (strip tok)); [discriminate|].
  destruct (mem (upper (strip tok)) _state_abbrev_set) eqn:Em.
  - intros [= <-]. unfold mem in Em. apply existsb_exists in Em as [x [Hin Hx]].
    apply str_eqb_eq in Hx. now subst.
  - apply lookup_in.
Qed.

Lemma state_codes_fixed :
  forallb (fun a => match _normalize_state a with
                    | Some b => str_eqb a b
                    | None => false
                    end)
          _state_abbrev_set = true.
Proof. vm_compute. reflexivity. Qed.

(** X13: a state [_normalize_state] returns is an abbreviation of
    [US_STATE_MAP], and normalising it again returns it unchanged. *)
Theorem normalize_state_idempotent (tok ab : str) :
  _normalize_state tok = Some ab ->
  In ab _state_abbrev_set /\ _normalize_state ab = Some ab.
Proof.
  intros H. pose proof (normalize_state_in_set tok ab H) as Hin.
  split; [exact Hin|].
  pose proof state_codes_fixed as Hf. rewrite forallb_forall in Hf.
  specialize (Hf ab Hin).
  destruct (_normalize_state ab) as [b|]; [|discriminate].
  apply str_eqb_eq in Hf. now subst.
Qed.

Lemma normalize_state_idempotent_witness :
  _normalize_state (lit " new york ") = Some (lit "NY")
  /\ In (lit "NY") _state_abbrev_set
  /\ _normalize_state (lit "NY") = Some (lit "NY").
Proof.
  split; [vm_compute; reflexivity|].
  apply (normalize_state_idempotent (lit " new york ") (lit "NY")).
  vm_compute. reflexivity.
Defined.

Lemma lower_upper_char (c : char) : lower_char (upper_char c) = lower_char c.
Proof.
  unfold lower_char, upper_char.
  destruct (is_lower c) eqn:El, (is_upper c) eqn:Eu.
  - char_props. lia.
  - assert (is_upper (c - 32)%N = true) as -> by (char_props; lia).
    char_props. lia.
  - reflexivity.
  - reflexivity.
Qed.

Lemma lower_upper (s : str) : lower (upper s) = lower s.
Proof.
  unfold lower, upper. rewrite map_map. apply map_ext, lower_upper_char.
Qed.

Lemma upper_upper (s : str) : upper (upper s) = upper s.
Proof.
  unfold upper. rewrite map_map. apply map_ext. intros c.
  unfold upper_char at 1. destruct (is_lower (upper_char c)) eqn:E; [|reflexivity].
  unfold upper_char in E. destruct (is_lower c) eqn:El.
  - char_props. lia.
  - rewrite El in E. discriminate.
Qed.

Lemma lower_lower (s : str) : lower (lower s) = lower s.
Proof.
  unfold lower. rewrite map_map. apply map_ext. intros c.
  unfold lower_char at 1. destruct (is_upper (lower_char c)) eqn:E; [|reflexivity].
  unfold lower_char in E. destruct (is_upper c) eqn:Eu.
  - char_props. lia.
  - rewrite Eu in E. discriminate.
Qed.

Lemma country_codes_fixed :
  forallb (fun k => match _normalize_country k with
                    | Some b => str_eqb k b
                    | None => false
                    end)
          (map snd COUNTRY_MAP) = true.
Proof. vm_compute. reflexivity. Qed.

(** The key the country table is searched with. *)
Lemma country_key_upper (s : str) :
  strip s = s ->
  strip (Re.sub_del re_punctuation (lower (strip (upper s))))
  = strip (Re.sub_del re_punctuation (lower s)).
Proof.
  intros Hs.
  assert (E : strip (upper s) = upper s).
  { destruct s as [|c s']; [reflexivity|].
    apply strip_trimmed, upper_trimmed. rewrite <- Hs. apply strip_is_trimmed.
    rewrite Hs. discriminate. }
  now rewrite E, lower_upper.
Qed.

Lemma lower_key (s : str) :
  lower (strip (Re.sub_del re_punctuation (lower s)))
  = strip (Re.sub_del re_punctuation (lower s)).
Proof.
  set (t := strip (Re.sub_del re_punctuation (lower s))).
  assert (H : Forall (fun c => lower_char c = c) t).
  { unfold t. apply strip_forall. unfold re_punctuation, Re.re, Re.none_of.
    rewrite sub_del_one. apply Forall_forall. intros c Hc.
    apply filter_In in Hc as [Hc _]. unfold lower in Hc.
    apply in_map_iff in Hc as [d [<- _]].
    pose proof (lower_lower [d]) as E. now injection E. }
  unfold lower. induction H as [|c l Hc H IH]; [reflexivity|].
  cbn [map]. now rewrite Hc, IH.
Qed.

Lemma upper_alpha (t : str) : isalpha t = true -> isalpha (upper t) = true.
Proof.
  unfold isalpha. destruct t as [|c t]; [discriminate|].
  cbn [upper map]. intros H. rewrite forallb_forall in *. intros x Hx.
  change (upper_char c :: map upper_char t) with (map upper_char (c :: t)) in Hx.
  apply in_map_iff in Hx as [d [<- Hd]]. specialize (H d Hd).
  unfold upper_char. destruct (is_lower d) eqn:E; [|exact H].
  unfold is_alpha. assert (is_upper (d - 32)%N = true) as -> by (char_props; lia).
  reflexivity.
Qed.

(** X14: for a token of the ASCII range, a country [_normalize_country]
    returns is a fixed point: normalising it again returns it unchanged. *)
Theorem normalize_country_idempotent (tok k : str) :
  ascii_text tok ->
  _normalize_country tok = Some k ->
  _normalize_country k = Some k.
Proof.
  intros _. unfold _normalize_country at 1.
  set (t := strip (Re.sub_del re_punctuation (lower (strip tok)))).
  destruct (location_cleaner.is_empty t) eqn:Et; [discriminate|].
  destruct (lookup t COUNTRY_MAP) as [code|] eqn:El.
  - intros [= <-]. apply lookup_in in El.
    pose proof country_codes_fixed as Hf. rewrite forallb_forall in Hf.
    specialize (Hf code El).
    destruct (_normalize_country code) as [b|]; [|discriminate].
    apply str_eqb_eq in Hf. now subst.
  - destruct ((List.length t =? 2)%nat && isalpha t) eqn:E2.
    + intros [= <-]. apply andb_true_iff in E2 as [Hlen Ha].
      apply Nat.eqb_eq in Hlen.
      rewrite normalize_country_two_letters.
      * unfold country_code. rewrite lower_upper.
        assert (Ht : lower t = t) by apply lower_key.
        now rewrite Ht, El, upper_upper.
      * unfold upper. now rewrite length_map.
      * now apply upper_alpha.
    + destruct (location_cleaner.is_empty (strip tok)) eqn:Es; [discriminate|].
      intros [= <-]. unfold _normalize_country.
      assert (Hs : strip (strip tok) = strip tok).
      { apply strip_trimmed. now apply nonempty_strip_trimmed. }
      rewrite (country_key_upper (strip tok) Hs). fold t.
      rewrite Et, El, E2.
      assert (E : strip (upper (strip tok)) = upper (strip tok)).
      { apply strip_trimmed, upper_trimmed. now apply nonempty_strip_trimmed. }
      rewrite E, upper_upper.
      destruct (upper (strip tok)) eqn:Eu; [|reflexivity].
      destruct (strip tok); [discriminate Es | discriminate Eu].
Qed.

Lemma normalize_country_idempotent_witness :
  _normalize_country (lit " U.S.A. ") = Some (lit "US")
  /\ _normalize_country (lit "US") = Some (lit "US")
  /\ _normalize_country (lit "Germany") = Some (lit "GERMANY")
  /\ _normalize_country (lit "GERMANY") = Some (lit "GERMANY").
Proof.
  split; [vm_compute; reflexivity|]. split.
  - apply (normalize_country_idempotent (lit " U.S.A. ") (lit "US")).
    + repeat constructor.
    + vm_compute. reflexivity.
  - split; [vm_compute; reflexivity|].
    apply (normalize_country_idempotent (lit "Germany") (lit "GERMANY")).
    + repeat constructor.
    + vm_compute. reflexivity.
Defined.

(** *** Titles: a keyword decides the label *)

Lemma lower_lower_char (c : char) : lower_char (lower_char c) = lower_char c.
Proof. pose proof (lower_lower [c]) as E. now injection E. Qed.

Lemma lower_char_word (c : char) : is_word (lower_char c) = true -> is_word c = true.
Proof.
  unfold lower_char. destruct (is_upper c) eqn:E; [|auto].
  intros _. apply alpha_is_word. unfold is_alpha. now rewrite E.
Qed.

(** Literal characters under [re.I] match text that is equal to them up
    to letter case. *)
Lemma lits_match (w : str) (p : str) (its : list Re.item) (prev : option char)
    (pos : nat) (rest : str) (caps : list nat) :
  lower w = p ->
  Re.m_items true (map (fun c => Re.Tok (Re.Lit c) Re.One) p ++ its)
             prev pos (w ++ rest) caps
  = Re.m_items true its (after w prev) (pos + List.length w) rest caps.
Proof.
  revert p prev pos. induction w as [|c w IH]; intros p prev pos <-.
  - cbn [lower map app after fold_left List.length]. now rewrite Nat.add_0_r.
  - change (lower (c :: w)) with (lower_char c :: lower w).
    cbn [map app]. rewrite m_one_cons.
    assert (Re.atom_ok true (Re.Lit (lower_char c)) c = true) as ->.
    { unfold Re.atom_ok. rewrite lower_lower_char. apply N.eqb_refl. }
    rewrite (IH (lower w) (Some c) (S pos) eq_refl).
    cbn [List.length after fold_left]. now rewrite Nat.add_succ_r.
Qed.

Lemma word_match (kw : string) (w post : str) (prev : option char) :
  lower w = lit kw ->
  Re.is_w (hd_error (lit kw)) = true ->
  Re.is_w (hd_error (rev (lit kw))) = true ->
  Re.is_w prev = false ->
  edge post ->
  Re.match_at (word_re kw) prev (w ++ post) = Some (List.length w, []).
Proof.
  intros Hw Hfirst Hlast Hprev Hpost.
  assert (H1 : Re.at_boundary prev (w ++ post) = true).
  { unfold Re.at_boundary. rewrite Hprev. rewrite <- Hw in Hfirst.
    destruct w as [|c w']; [discriminate Hfirst|].
    cbn [app hd_error Re.is_w]. cbn [lower map hd_error Re.is_w] in Hfirst.
    now rewrite (lower_char_word c Hfirst). }
  assert (H2 : Re.at_boundary (after w prev) post = true).
  { unfold Re.at_boundary. rewrite after_last.
    rewrite <- Hw in Hlast. unfold lower in Hlast. rewrite <- map_rev in Hlast.
    destruct (rev w) as [|c r]; [discriminate Hlast|].
    cbn [map hd_error Re.is_w] in Hlast. cbn [Re.is_w].
    rewrite (lower_char_word c Hlast).
    destruct post as [|d post']; [reflexivity|].
    destruct Hpost as [_ Hd]. cbn [hd_error Re.is_w]. now rewrite Hd. }
  unfold Re.match_at, word_re, Re.re_i, Re.lits.
  cbn [Re.branches Re.ignorecase Re.m_branches app].
  rewrite m_wordb, H1, (lits_match w (lit kw) _ prev 0 post [] Hw).
  rewrite m_wordb, H2. reflexivity.
Qed.

(** A match somewhere in the text makes the search succeed. *)
Lemma scan_finds (r : Re.regex) (pre rest : str) (prev : option char) (gap : str)
    (x : nat * list nat) :
  Re.match_at r (after pre prev) rest = Some x ->
  fst (Re.scan r prev 0 (pre ++ rest) gap) <> [].
Proof.
  revert prev gap. induction pre as [|c pre IH]; intros prev gap H.
  - cbn [app after fold_left] in *. destruct rest as [|d rest].
    + cbn [Re.scan]. rewrite H. discriminate.
    + cbn [Re.scan]. rewrite H. destruct x as [len caps].
      destruct (Re.scan r (Some d) (len - 1) rest _). discriminate.
  - cbn [app]. rewrite after_cons in H.
    destruct (Re.match_at r prev (c :: pre ++ rest)) as [[len caps]|] eqn:E.
    + cbn [Re.scan]. rewrite E.
      destruct (Re.scan r (Some c) (len - 1) (pre ++ rest) _). discriminate.
    + rewrite (scan_miss r prev c (pre ++ rest) gap E). now apply IH.
Qed.

Lemma keyword_ends :
  forallb (fun kw => Re.is_w (hd_error (lit kw))
                     && Re.is_w (hd_error (rev (lit kw))))
          (data_words ++ software_words) = true.
Proof. vm_compute. reflexivity. Qed.

Lemma keyword_search (kw : string) (t : str) :
  In kw (data_words ++ software_words) -> whole_word kw t ->
  Re.search (word_re kw) t = true /\ t <> [].
Proof.
  intros Hin [pre [w [post [-> [Hw [Hpre Hpost]]]]]].
  pose proof keyword_ends as Hk. rewrite forallb_forall in Hk.
  specialize (Hk kw Hin). apply andb_true_iff in Hk as [Hfirst Hlast].
  assert (Hprev : Re.is_w (after pre None) = false).
  { rewrite after_last. destruct (rev pre) as [|c r]; [reflexivity|].
    now destruct Hpre. }
  pose proof (word_match kw w post (after pre None) Hw Hfirst Hlast Hprev Hpost) as Hm.
  split.
  - unfold Re.search, Re.finditer.
    pose proof (scan_finds (word_re kw) pre (w ++ post) None [] _ Hm) as Hs.
    destruct (fst (Re.scan (word_re kw) None 0 (pre ++ w ++ post) []));
      [contradiction | reflexivity].
  - rewrite <- Hw in Hfirst. destruct w as [|c w']; [discriminate Hfirst|].
    destruct pre; discriminate.
Qed.

Lemma software_words_patterns :
  Forall (fun kw => In (word_re kw) _SOFTWARE_RE) software_words.
Proof.
  repeat (constructor; [repeat first [left; reflexivity | right]|]). constructor.
Qed.

(** X15: a title that holds a word of [DATA_PATTERNS] as a whole word, in
    any letter case, is labelled [Data Scientist] whatever else it holds;
    one that holds a word of [SOFTWARE_PATTERNS] is labelled
    [Data Scientist] or [Software Engineer], never [Other] or [Unknown]. *)
Theorem keyword_decides_label (x : str) (kw : string) (coerce : bool) :
  whole_word kw (strip x) ->
  (In kw data_words -> classify (Some x) coerce = lit "Data Scientist")
  /\ (In kw software_words ->
      classify (Some x) coerce = lit "Data Scientist"
      \/ classify (Some x) coerce = lit "Software Engineer").
Proof.
  intros Hword.
  assert (Hcl : classify (Some x) coerce
             = if title_cleaner.is_empty (strip x) then lit "Unknown"
               else if first_match _DATA_RE (strip x) then lit "Data Scientist"
               else if first_match _SOFTWARE_RE (strip x) then lit "Software Engineer"
               else if coerce then lit "Software Engineer" else lit "Other")
    by reflexivity.
  split; intros Hin.
  - destruct (keyword_search kw (strip x)) as [Hs Hne];
      [apply in_or_app; now left | exact Hword |].
    rewrite Hcl. destruct (strip x) as [|c r] eqn:E; [contradiction|].
    cbn [title_cleaner.is_empty].
    assert (first_match _DATA_RE (c :: r) = true) as ->; [|reflexivity].
    apply first_match_exists. exists (word_re kw). split; [|exact Hs].
    change _DATA_RE with (map word_re data_words). now apply in_map.
  - destruct (keyword_search kw (strip x)) as [Hs Hne];
      [apply in_or_app; now right | exact Hword |].
    rewrite Hcl. destruct (strip x) as [|c r] eqn:E; [contradiction|].
    cbn [title_cleaner.is_empty].
    destruct (first_match _DATA_RE (c :: r)); [now left|]. right.
    assert (first_match _SOFTWARE_RE (c :: r) = true) as ->; [|reflexivity].
    apply first_match_exists. exists (word_re kw). split; [|exact Hs].
    pose proof software_words_patterns as Hp. rewrite Forall_forall in Hp.
    now apply Hp.
Qed.

Lemma keyword_decides_label_witness :
  whole_word "ml engineer" (strip (lit " Senior ML Engineer (Remote) "))
  /\ classify (Some (lit " Senior ML Engineer (Remote) ")) false
     = lit "Data Scientist".
Proof.
  assert (H : whole_word "ml engineer" (strip (lit " Senior ML Engineer (Remote) "))).
  { exists (lit "Senior "), (lit "ML Engineer"), (lit " (Remote)").
    split; [vm_compute; reflexivity|]. split; [vm_compute; reflexivity|].
    split; split; try reflexivity. }
  split; [exact H|].
  apply (keyword_decides_label (lit " Senior ML Engineer (Remote) ")
           "ml engineer" false H).
  vm_compute. tauto.
Defined.

(** *** Location: a state name as the last token *)

Lemma lookup_key_in (k v : str) (d : list (str * str)) :
  lookup k d = Some v -> In k (map fst d).
Proof.
  induction d as [|[k' v'] d IH]; [discriminate|]. cbn [lookup map fst].
  destruct (str_eqb k k') eqn:E.
  - intros _. left. symmetry. now apply str_eqb_eq.
  - intros H. right. now apply IH.
Qed.

Lemma state_names_plain :
  forallb (fun key => str_eqb (strip (Re.sub_del re_punctuation key)) key
                      && negb (location_cleaner.is_empty key)
                      && negb (mem key (map fst COUNTRY_MAP))
                      && match lookup key COUNTRY_MAP with
                         | Some _ => false
                         | None => true
                         end)
          (map fst US_STATE_MAP) = true.
Proof. vm_compute. reflexivity. Qed.

Lemma state_codes_two :
  forallb (fun a => (List.length a =? 2)%nat && negb (location_cleaner.is_empty a))
          _state_abbrev_set = true.
Proof. vm_compute. reflexivity. Qed.

Lemma lower_length (s : str) : List.length (lower s) = List.length s.
Proof. apply length_map. Qed.

Lemma upper_length (s : str) : List.length (upper s) = List.length s.
Proof. apply length_map. Qed.

(** X16: when the last token left after the remote step is the full name
    of a state (a key of [US_STATE_MAP], in any letter case, and not of two
    letters), [parse_location] reads it as the state and not as the
    country: the state is its abbreviation, the city is the join of the
    tokens before it, and no country is set unless the city is one of the
    bare country names. *)
Theorem state_name_last_token_is_state (c : str) (toks : list str) (tok code : str) :
  remaining_tokens c = toks ++ [tok] ->
  lookup (lower tok) US_STATE_MAP = Some code ->
  List.length tok <> 2%nat ->
  parse_location (Some c)
  = Ok {| city := city_of toks;
          state := Some code;
          country := country_from_city (city_of toks) None;
          is_remote := mentions_remote (location_tokens (strip c));
          raw := Some c |}.
Proof.
  intros Hrem Hcode Hlen.
  (* the token is trimmed, and its lower case is a key of the state table *)
  assert (Htrim : strip tok = tok).
  { pose proof (remaining_tokens_clean c) as H. rewrite Hrem in H.
    apply Forall_app in H as [_ H]. inversion H as [|? ? [Ht _] _]; subst.
    now apply strip_trimmed. }
  pose proof (lookup_key_in _ _ _ Hcode) as Hkey.
  pose proof state_names_plain as Hplain. rewrite forallb_forall in Hplain.
  specialize (Hplain _ Hkey).
  repeat (apply andb_true_iff in Hplain as [Hplain ?]).
  apply str_eqb_eq in Hplain.
  repeat match goal with
  | H : negb _ = true |- _ => apply negb_true_iff in H
  end.
  assert (Hnomap : lookup (lower tok) COUNTRY_MAP = None)
    by (destruct (lookup (lower tok) COUNTRY_MAP); [discriminate | reflexivity]).
  assert (Hl2 : (List.length (lower tok) =? 2)%nat = false)
    by (rewrite lower_length; now apply Nat.eqb_neq).
  assert (Ht2 : (List.length tok =? 2)%nat = false) by now apply Nat.eqb_neq.
  assert (Hne : location_cleaner.is_empty tok = false).
  { destruct tok; [|reflexivity]. cbn in *. discriminate. }
  (* the country step leaves the token in place *)
  assert (Hcountry : _normalize_country tok = Some (upper tok)).
  { unfold _normalize_country. rewrite Htrim, Hplain.
    match goal with H : location_cleaner.is_empty (lower tok) = false |- _ =>
      rewrite H end.
    now rewrite Hnomap, Hl2, Hne. }
  assert (Hstep : forall parts n, country_step tok parts n = (None, parts, n)).
  { intros parts n. unfold country_step. rewrite Hcountry, Htrim, Ht2, Hl2.
    match goal with H : mem (lower tok) (map fst COUNTRY_MAP) = false |- _ =>
      rewrite H end.
    assert (str_eqb (upper tok) (upper tok) = true) as -> by now apply str_eqb_eq.
    reflexivity. }
  (* the state step takes it *)
  assert (Hstate : _normalize_state tok = Some code).
  { unfold _normalize_state. rewrite Htrim, Hne.
    destruct (mem (upper tok) _state_abbrev_set) eqn:Em; [|exact Hcode].
    unfold mem in Em. apply existsb_exists in Em as [a [Hin Ha]].
    apply str_eqb_eq in Ha. subst a.
    pose proof state_codes_two as H2. rewrite forallb_forall in H2.
    specialize (H2 _ Hin). apply andb_true_iff in H2 as [H2 _].
    apply Nat.eqb_eq in H2. rewrite upper_length in H2. contradiction. }
  assert (Htruthy : truthy (Some code) = true).
  { apply lookup_in in Hcode.
    pose proof state_codes_two as H2. rewrite forallb_forall in H2.
    specialize (H2 _ Hcode). apply andb_true_iff in H2 as [_ H2].
    apply negb_true_iff in H2. now destruct code. }
  rewrite parse_location_some.
  assert (Hparts : remaining_tokens c <> [])
    by (rewrite Hrem; intros E; now apply app_eq_nil in E as [_ E]).
  apply remaining_tokens_nonempty in Hparts.
  destruct (location_tokens (strip c)) eqn:Eparts; [contradiction|].
  rewrite Hrem. unfold parse_tokens. rewrite last_of_app, Hstep.
  unfold state_step.
  assert ((1 <=? Z.of_nat (List.length (toks ++ [tok])))%Z = true) as ->
    by (apply Z.leb_le; rewrite length_app; simpl; lia).
  rewrite last_of_app, Hstate, Htruthy, removelast_last.
  replace (Z.of_nat (List.length (toks ++ [tok])) - 1)%Z
    with (Z.of_nat (List.length toks))
    by (rewrite length_app; simpl; lia).
  now rewrite city_step_city_of.
Qed.

Lemma state_name_last_token_is_state_witness :
  parse_location (Some (lit "Austin, Texas"))
  = Ok {| city := Some (lit "Austin");
          state := Some (lit "TX");
          country := None;
          is_remote := false;
          raw := Some (lit "Austin, Texas") |}.
Proof.
  apply (state_name_last_token_is_state (lit "Austin, Texas") [lit "Austin"]
           (lit "Texas") (lit "TX")).
  - vm_compute. reflexivity.
  - vm_compute. reflexivity.
  - vm_compute. discriminate.
Defined.

(** *** Location: a country name as the last token *)

Lemma country_names_plain :
  forallb (fun key => str_eqb (strip (Re.sub_del re_punctuation key)) key
                      && negb (location_cleaner.is_empty key)
                      && mem key (map fst COUNTRY_MAP))
          (map fst COUNTRY_MAP) = true.
Proof. vm_compute. reflexivity. Qed.

(** X17: when the last token left after the remote step is a name of
    [COUNTRY_MAP], in any letter case, [parse_location] sets the country to
    its code and reads the state and the city from the tokens before
    it. *)
Theorem country_name_last_token_is_country (c : str) (toks : list str)
    (tok code : str) :
  remaining_tokens c = toks ++ [tok] ->
  lookup (lower tok) COUNTRY_MAP = Some code ->
  exists st parts n,
    state_step toks (Z.of_nat (List.length toks)) = Ok (st, parts, n)
    /\ parse_location (Some c)
       = Ok {| city := city_step parts n;
               state := st;
               country := Some code;
               is_remote := mentions_remote (location_tokens (strip c));
               raw := Some c |}.
Proof.
  intros Hrem Hcode.
  assert (Htrim : strip tok = tok).
  { pose proof (remaining_tokens_clean c) as H. rewrite Hrem in H.
    apply Forall_app in H as [_ H]. inversion H as [|? ? [Ht _] _]; subst.
    now apply strip_trimmed. }
  pose proof (lookup_key_in _ _ _ Hcode) as Hkey.
  pose proof country_names_plain as Hplain. rewrite forallb_forall in Hplain.
  specialize (Hplain _ Hkey).
  apply andb_true_iff in Hplain as [Hplain Hmem].
  apply andb_true_iff in Hplain as [Hplain Hne].
  apply str_eqb_eq in Hplain. apply negb_true_iff in Hne.
  assert (Hcountry : _normalize_country tok = Some code).
  { unfold _normalize_country. now rewrite Htrim, Hplain, Hne, Hcode. }
  assert (Hstep : forall parts n,
            country_step tok parts n = (Some code, removelast parts, (n - 1)%Z)).
  { intros parts n. unfold country_step. now rewrite Hcountry, Htrim, Hmem. }
  assert (Htruthy : truthy (Some code) = true).
  { apply lookup_in in Hcode.
    pose proof country_codes_trimmed as H. rewrite Forall_forall in H.
    destruct (H code Hcode) as [H1 _]. now destruct code. }
  destruct (state_step_ok toks) as [st [parts [Hst _]]].
  exists st, parts, (Z.of_nat (List.length parts)).
  split; [exact Hst|].
  rewrite parse_location_some.
  assert (Hparts : remaining_tokens c <> [])
    by (rewrite Hrem; intros E; now apply app_eq_nil in E as [_ E]).
  apply remaining_tokens_nonempty in Hparts.
  destruct (location_tokens (strip c)) eqn:Eparts; [contradiction|].
  rewrite Hrem. unfold parse_tokens. rewrite last_of_app, Hstep, removelast_last.
  replace (Z.of_nat (List.length (toks ++ [tok])) - 1)%Z
    with (Z.of_nat (List.length toks))
    by (rewrite length_app; simpl; lia).
  rewrite Hst. f_equal. f_equal.
  unfold country_from_city. rewrite Htruthy. cbn [negb].
  destruct (city_step parts (Z.of_nat (List.length parts))) as [ct|];
    [now rewrite andb_false_r | reflexivity].
Qed.

Lemma country_name_last_token_is_country_witness :
  exists st parts n,
    state_step [lit "London"] 1 = Ok (st, parts, n)
    /\ parse_location (Some (lit "London, United Kingdom"))
       = Ok {| city := city_step parts n;
               state := st;
               country := Some (lit "UK");
               is_remote := mentions_remote
                              (location_tokens (strip (lit "London, United Kingdom")));
               raw := Some (lit "London, United Kingdom") |}.
Proof.
  apply (country_name_last_token_is_country (lit "London, United Kingdom")
           [lit "London"] (lit "United Kingdom") (lit "UK")).
  - vm_compute. reflexivity.
  - vm_compute. reflexivity.
Defined.

(** *** Salary: no digit, no number *)

Lemma forall_firstn {A : Type} (P : A -> Prop) (n : nat) (l : list A) :
  Forall P l -> Forall P (firstn n l).
Proof.
  intros H. revert n. induction H as [|x l Hx H IH]; intros [|n]; cbn [firstn];
    try constructor; auto.
Qed.

Lemma forall_skipn {A : Type} (P : A -> Prop) (n : nat) (l : list A) :
  Forall P l -> Forall P (skipn n l).
Proof.
  intros H. revert n. induction H as [|x l Hx H IH]; intros [|n]; cbn [skipn];
    try constructor; auto.
Qed.

(** The pieces and the matches of a scan are made of characters of the
    text. *)
Lemma scan_forall (P : char -> Prop) (r : Re.regex) (rest : str) :
  forall (prev : option char) (skip : nat) (gap : str),
    Forall P rest -> Forall P gap ->
    Forall (fun pm => Forall P (fst pm) /\ Forall P (snd pm))
           (fst (Re.scan r prev skip rest gap))
    /\ Forall P (snd (Re.scan r prev skip rest gap)).
Proof.
  induction rest as [|c rest IH]; intros prev skip gap Hrest Hgap.
  - assert (Hrev : Forall P (rev gap)) by now apply Forall_rev.
    destruct skip; cbn [Re.scan].
    + destruct (Re.match_at r prev []); cbn [fst snd]; split; auto.
    + cbn [fst snd]. split; auto.
  - assert (Hrev : Forall P (rev gap)) by now apply Forall_rev.
    inversion Hrest as [|? ? Hc Hrest']; subst.
    destruct skip as [|k].
    + cbn [Re.scan]. destruct (Re.match_at r prev (c :: rest)) as [[len caps]|].
      * assert (Hg : Forall P (match len with O => [c] | S _ => [] end))
          by (destruct len; auto).
        destruct (IH (Some c) (len - 1)%nat _ Hrest' Hg) as [H1 H2].
        destruct (Re.scan r (Some c) (len - 1) rest _) as [l tail].
        cbn [fst snd] in *. split; [|exact H2].
        constructor; [|exact H1]. cbn [fst snd]. split; [exact Hrev|].
        now apply forall_firstn.
      * apply IH; auto.
    + cbn [Re.scan]. apply IH; auto.
Qed.

Lemma sub_del_forall (P : char -> Prop) (r : Re.regex) (s : str) :
  Forall P s -> Forall P (Re.sub_del r s).
Proof.
  intros H. unfold Re.sub_del, Re.split, Re.finditer.
  destruct (scan_forall P r s None 0 [] H (Forall_nil _)) as [H1 H2].
  apply Forall_concat. apply Forall_app. split; [|now constructor].
  apply Forall_map. eapply Forall_impl; [|exact H1]. now intros pm [Hf _].
Qed.

Lemma split_forall (P : char -> Prop) (r : Re.regex) (s : str) :
  Forall P s -> Forall (Forall P) (Re.split r s).
Proof.
  intros H. unfold Re.split, Re.finditer.
  destruct (scan_forall P r s None 0 [] H (Forall_nil _)) as [H1 H2].
  apply Forall_app. split; [|now constructor].
  apply Forall_map. eapply Forall_impl; [|exact H1]. now intros pm [Hf _].
Qed.

Lemma replace_forall (P : char -> Prop) (old : char) (new s : str) :
  Forall P new -> Forall P s -> Forall P (replace old new s).
Proof.
  intros Hnew H. unfold replace. induction H as [|c s Hc H IH]; [constructor|].
  cbn [flat_map]. apply Forall_app. split; [|exact IH].
  destruct (c =? old)%N; auto.
Qed.

Lemma rstrip_forall (P : char -> Prop) (p : char -> bool) (s : str) :
  Forall P s -> Forall P (rstrip_by p s).
Proof.
  intros H. unfold rstrip_by. apply Forall_rev, lstrip_forall. now apply Forall_rev.
Qed.

(** Text without a decimal digit. *)
Lemma no_digit_forall (s : str) :
  existsb is_digit s = false <-> Forall (fun c => is_digit c = false) s.
Proof.
  induction s as [|c s IH]; cbn [existsb].
  - split; auto.
  - rewrite orb_false_iff, IH. split.
    + intros [H1 H2]. now constructor.
    + intros H. inversion H; auto.
Qed.

Lemma take_digits_none (s : str) (acc : Z) :
  Forall (fun c => is_digit c = false) s -> take_digits s acc 0 = (acc, 0%nat, s).
Proof.
  intros H. destruct H as [|c s Hc H]; [reflexivity|].
  cbn [take_digits]. now rewrite Hc.
Qed.

Lemma float_of_str_no_digit (s : str) :
  Forall (fun c => is_digit c = false) s -> float_of_str s = None.
Proof.
  intros H. unfold float_of_str.
  assert (Hbody : forall body, Forall (fun c => is_digit c = false) body ->
            (let '(ip, ni, rest) := take_digits body 0 0 in
             match rest with
             | [] => if (ni =? 0)%nat then None
                     else Some ((fun x : float => x) (round (ip * ONE) 1))
             | c :: rest' =>
               if (c =? chr ".")%N then
                 let '(all, nf, rest'') := take_digits rest' ip 0 in
                 match rest'' with
                 | [] => if (ni + nf =? 0)%nat then None
                         else Some ((fun x : float => x)
                                      (round (all * ONE) (10 ^ Z.of_nat nf)))
                 | _ :: _ => None
                 end
               else None
             end) = @None float).
  { intros body Hb. rewrite (take_digits_none body 0 Hb).
    destruct Hb as [|c rest' Hc Hb]; [reflexivity|].
    destruct (c =? chr ".")%N; [|reflexivity].
    rewrite (take_digits_none rest' 0 Hb). now destruct rest'. }
  destruct H as [|c r Hc Hr].
  - reflexivity.
  - assert (Hall : Forall (fun c => is_digit c = false) (c :: r)) by now constructor.
    destruct (c =? chr "-")%N.
    + rewrite (take_digits_none r 0 Hr). destruct Hr as [|d rest' Hd Hr']; [reflexivity|].
      destruct (d =? chr ".")%N; [|reflexivity].
      rewrite (take_digits_none rest' 0 Hr'). now destruct rest'.
    + destruct (c =? chr "+")%N.
      * rewrite (take_digits_none r 0 Hr).
        destruct Hr as [|d rest' Hd Hr']; [reflexivity|].
        destruct (d =? chr ".")%N; [|reflexivity].
        rewrite (take_digits_none rest' 0 Hr'). now destruct rest'.
      * rewrite (take_digits_none (c :: r) 0 Hall).
        destruct (c =? chr ".")%N; [|reflexivity].
        rewrite (take_digits_none r 0 Hr). now destruct r.
Qed.

(** The number pattern needs a digit. *)
Lemma number_needs_digit (s : str) (prev : option char) :
  Forall (fun c => is_digit c = false) s -> Re.match_at re_number prev s = None.
Proof.
  intros H. destruct H as [|c r Hc Hr]; [reflexivity|].
  unfold Re.match_at, re_number, Re.re.
  cbn [Re.branches Re.ignorecase Re.m_branches].
  assert (Hplus : forall p pos t caps,
            Forall (fun c => is_digit c = false) t ->
            Re.m_items false
              [Re.some [Re.CDigit]; Re.opt (Re.chars ".,"); Re.many [Re.CDigit];
               Re.opt (Re.chars "kKmM")] p pos t caps = None).
  { intros p pos t caps Ht. destruct Ht as [|d t Hd Ht]; [reflexivity|].
    unfold Re.some. now rewrite m_plus_cons, digit_atom, Hd. }
  unfold Re.opt at 1. rewrite m_opt_cons.
  rewrite (Hplus (Some c) 1%nat r [] Hr).
  rewrite (Hplus prev 0%nat (c :: r) []) by now constructor.
  now destruct (Re.atom_ok false (Re.Cls false (Re.chars "+-")) c).
Qed.

Lemma findall_number_none (s : str) :
  Forall (fun c => is_digit c = false) s -> Re.findall re_number s = [].
Proof.
  intros H. unfold Re.findall, Re.finditer.
  assert (E : forall prev gap, Re.scan re_number prev 0 s gap = ([], rev gap ++ s)).
  { induction H as [|c s Hc H IH]; intros prev gap.
    - rewrite scan_end by reflexivity. now rewrite app_nil_r.
    - rewrite scan_miss by (apply number_needs_digit; now constructor).
      rewrite IH. cbn [rev]. now rewrite <- app_assoc. }
  now rewrite E.
Qed.

Lemma existsb_digit_atom (l : str) :
  existsb (Re.atom_ok false (Re.Cls false [Re.CDigit])) l = existsb is_digit l.
Proof.
  induction l as [|c l IH]; [reflexivity|].
  cbn [existsb]. now rewrite digit_atom, IH.
Qed.

Lemma parse_single_no_digit (s : str) :
  Forall (fun c => is_digit c = false) s -> _parse_single_number s = FNaN.
Proof.
  intros H. unfold _parse_single_number.
  assert (H0 : Forall (fun c => is_digit c = false) (_normalize_whitespace s)).
  { unfold _normalize_whitespace. apply strip_forall, replace_forall; [|exact H].
    repeat constructor. }
  set (s0 := _normalize_whitespace s) in *.
  destruct (salary_parser_int.is_empty s0 || mem (lower s0) null_words);
    [reflexivity|].
  cbv zeta.
  assert (H1 : Forall (fun c => is_digit c = false)
                 (Re.sub_del re_not_numeric (Re.sub_del re_verbose s0)))
    by (now apply sub_del_forall, sub_del_forall).
  set (s1 := Re.sub_del re_not_numeric (Re.sub_del re_verbose s0)) in *.
  assert (H2 : Forall (fun c => is_digit c = false)
                 (if Re.matches re_parenthesized s1
                  then lit "-" ++ rstrip_chr (chr ")") (lstrip_chr (chr "(") (strip s1))
                  else s1)).
  { destruct (Re.matches re_parenthesized s1); [|exact H1].
    apply Forall_app. split; [repeat constructor|].
    apply rstrip_forall, lstrip_forall, strip_forall, H1. }
  set (s2 := if Re.matches re_parenthesized s1
             then lit "-" ++ rstrip_chr (chr ")") (lstrip_chr (chr "(") (strip s1))
             else s1) in *.
  assert (Hc : match Re.findall re_number s2 with
               | t :: _ =>
                 match float_of_str
                         (replace (chr ",") []
                            (if contains (chr ",") t && negb (contains (chr ".") t)
                             then replace (chr ",") (lit ".") t else t)) with
                 | Some v => v
                 | None => FNaN
                 end
               | [] => FNaN
               end = FNaN)
    by (now rewrite (findall_number_none s2 H2)).
  rewrite Hc.
  assert (Hdel : forall t, Forall (fun c => is_digit c = false) t ->
            float_of_str t = None) by apply float_of_str_no_digit.
  assert (Hb : (if contains (chr ".") s2 && contains (chr ",") s2
                   && (rfind (chr ".") s2 <? rfind (chr ",") s2)
                then match float_of_str
                             (Re.sub_del re_not_decimal
                                (replace (chr ",") (lit ".")
                                   (replace (chr ".") [] s2))) with
                     | Some v => v
                     | None => FNaN
                     end
                else FNaN) = FNaN).
  { destruct (contains (chr ".") s2 && contains (chr ",") s2
              && (rfind (chr ".") s2 <? rfind (chr ",") s2)); [|reflexivity].
    rewrite Hdel; [reflexivity|].
    apply sub_del_forall, replace_forall; [repeat constructor|].
    apply replace_forall; [constructor | exact H2]. }
  rewrite Hb.
  assert (Ha : Forall (fun c => is_digit c = false)
                 (Re.sub_del re_not_decimal
                    (replace (chr ",") [] (replace (chr " ") [] s2)))).
  { apply sub_del_forall, replace_forall; [constructor|].
    apply replace_forall; [constructor | exact H2]. }
  assert (Hsearch : Re.search re_digit
                      (Re.sub_del re_not_decimal
                         (replace (chr ",") [] (replace (chr " ") [] s2))) = false).
  { unfold re_digit, Re.re, Re.one. rewrite search_one, existsb_digit_atom.
    now apply no_digit_forall. }
  rewrite Hsearch, andb_false_r.
  destruct (Re.match_groups2 re_suffixed (strip s2)) as [[num suf]|] eqn:Em;
    [|reflexivity].
  rewrite Hdel; [reflexivity|].
  apply replace_forall; [constructor|]. apply replace_forall; [constructor|].
  unfold Re.match_groups2 in Em.
  destruct (Re.match_at re_suffixed None (strip s2)) as [[e caps]|]; [|discriminate].
  destruct caps as [|c2 [|o2 [|c1 [|o1 [|]]]]]; try discriminate.
  injection Em as <- _. unfold Re.slice.
  apply forall_firstn, forall_skipn, strip_forall, H2.
Qed.

(** X18: a cell of the ASCII range without a decimal digit never gives a
    number: [_parse_single_number] returns NaN and [parse_salary_field]
    returns three NaN, whatever words, signs and separators the cell
    holds. *)
Theorem no_digit_no_number (c : str) :
  ascii_text c -> existsb is_digit c = false ->
  _parse_single_number c = FNaN /\ parse_salary_field (Some c) = all_nan.
Proof.
  intros _ Hd. apply no_digit_forall in Hd. split; [now apply parse_single_no_digit|].
  unfold parse_salary_field.
  assert (H0 : Forall (fun c => is_digit c = false) (_normalize_whitespace c)).
  { unfold _normalize_whitespace. apply strip_forall, replace_forall; [|exact Hd].
    repeat constructor. }
  set (s := _normalize_whitespace c) in *.
  destruct (salary_parser_int.is_empty s); [reflexivity|]. cbv zeta.
  assert (H1 : Forall (fun c => is_digit c = false)
                 (strip (Re.sub_del re_wrapping s)))
    by (now apply strip_forall, sub_del_forall).
  set (s_clean := strip (Re.sub_del re_wrapping s)) in *.
  rewrite (parse_single_no_digit s_clean H1). cbn [isna].
  rewrite (findall_number_none s_clean H1). cbn [List.length Nat.leb].
  destruct (Re.search re_range s_clean); [|reflexivity].
  assert (Hparts : forall parts, Forall (Forall (fun c => is_digit c = false)) parts ->
            parsed_numbers parts = []).
  { intros parts Hp. unfold parsed_numbers.
    induction Hp as [|p parts Hp Hps IH]; [reflexivity|].
    cbn [map filter]. rewrite (parse_single_no_digit p Hp). exact IH. }
  rewrite Hparts; [reflexivity|].
  apply Forall_map. apply Forall_forall. intros p Hp.
  apply filter_In in Hp as [Hp _]. apply strip_forall.
  pose proof (split_forall _ re_range s_clean H1) as Hs.
  rewrite Forall_forall in Hs. now apply Hs.
Qed.

Lemma ascii_text_check (s : str) :
  forallb (fun c => (c <? 128)%N) s = true -> ascii_text s.
Proof.
  intros H. apply Forall_forall. intros c Hc. rewrite forallb_forall in H.
  apply N.ltb_lt. now apply H.
Qed.

Lemma no_digit_no_number_witness :
  _parse_single_number (lit "Competitive - DOE (negotiable)") = FNaN
  /\ parse_salary_field (Some (lit "Competitive - DOE (negotiable)")) = all_nan.
Proof.
  apply (no_digit_no_number (lit "Competitive - DOE (negotiable)")).
  - apply ascii_text_check. vm_compute. reflexivity.
  - vm_compute. reflexivity.
Defined.
